(** * esp-idf-docs-ka: the documentation monitor and the HTML translator

    A shallow embedding of [src/monitor.py] and [src/translate.py].

    Conventions of the embedding.
    - A Python [str] is a Rocq [string]: a sequence of 8-bit characters.  On
      ASCII text this is the Python string itself; other text is read as its
      UTF-8 bytes, for which substring search and replacement agree with
      Python's.  The two places that classify characters (the regular
      expression of [protect_code_identifiers] and [str.strip]) are modelled
      for ASCII characters; a character above 127 is neither a word character
      nor white space here.
    - A [dict] whose iteration order the code relies on is an association
      list in insertion order; a [dict] or [set] used only through lookups is
      a [gmap] or [gset].
    - The network, the file system and the translation service are
      parameters (an environment record, or Section variables); what the code
      writes is collected in an explicit state. *)

From stdpp Require Import gmap strings list sorting.
From Stdlib Require Import String Ascii DecimalString DecimalNat.

Local Open Scope string_scope.
Local Open Scope list_scope.

(* ===================================================================== *)
(** * Part I: the program                                                  *)
(* ===================================================================== *)

(** ** Python string primitives *)

Module PyStr.

(** The double quote character, code 34. *)
Definition dquote : string := String (ascii_of_nat 34) "".

(** [str(i)] for a non-negative [int]. *)
Definition str_of_nat (i : nat) : string :=
  NilEmpty.string_of_uint (Nat.to_uint i).

Definition str_head (s : string) : option ascii :=
  match s with
  | "" => None
  | String c _ => Some c
  end.

Fixpoint str_drop (n : nat) (s : string) : string :=
  match n, s with
  | S k, String _ s' => str_drop k s'
  | _, _ => s
  end.

(** [s.startswith(p)] *)
Fixpoint startswith (p s : string) : bool :=
  match p, s with
  | "", _ => true
  | String a p', String b s' => Ascii.eqb a b && startswith p' s'
  | String _ _, "" => false
  end.

(** [s.endswith(p)]: [p] is [s] or the end of what follows its first
    character. *)
Fixpoint endswith (p s : string) : bool :=
  String.eqb p s ||
  match s with
  | "" => false
  | String _ s' => endswith p s'
  end.

(** [p in s]: [p] occurs in [s] as a substring (always so when [p] is empty). *)
Fixpoint contains (p s : string) : bool :=
  startswith p s ||
  match s with
  | "" => false
  | String _ s' => contains p s'
  end.

(** [c in s] for a single character. *)
Fixpoint has_char (c : ascii) (s : string) : bool :=
  match s with
  | "" => false
  | String a s' => Ascii.eqb a c || has_char c s'
  end.

(** [s.replace(old, new)] for a non-empty [old]: a left-to-right scan that
    replaces every non-overlapping occurrence.  [skip] counts the characters
    of the current occurrence that are still to be passed over. *)
Fixpoint replace_go (old new : string) (skip : nat) (s : string) : string :=
  match s with
  | "" => ""
  | String c s' =>
      match skip with
      | S k => replace_go old new k s'
      | O =>
          if startswith old s
          then new +:+ replace_go old new (String.length old - 1) s'
          else String c (replace_go old new 0 s')
      end
  end.

(** [s.replace("", new)]: [new] is put before every character and at the end. *)
Fixpoint intersperse (new s : string) : string :=
  match s with
  | "" => new
  | String c s' => new +:+ String c (intersperse new s')
  end.

Definition replace (old new s : string) : string :=
  match old with
  | "" => intersperse new s
  | String _ _ => replace_go old new 0 s
  end.

(** [s] without its leading characters that satisfy [f]. *)
Fixpoint lstrip_by (f : ascii -> bool) (s : string) : string :=
  match s with
  | String a s' => if f a then lstrip_by f s' else s
  | "" => ""
  end.

(** [s] without its trailing characters that satisfy [f]. *)
Fixpoint rstrip_by (f : ascii -> bool) (s : string) : string :=
  match s with
  | String a s' =>
      match rstrip_by f s' with
      | "" => if f a then "" else String a ""
      | r => String a r
      end
  | "" => ""
  end.

(** [s.lstrip(c)] for a one-character argument. *)
Definition lstrip_char (c : ascii) (s : string) : string :=
  lstrip_by (Ascii.eqb c) s.

(** [s.rstrip(c)] for a one-character argument. *)
Definition rstrip_char (c : ascii) (s : string) : string :=
  rstrip_by (Ascii.eqb c) s.

Definition in_range (lo hi : nat) (c : ascii) : bool :=
  (lo <=? nat_of_ascii c)%nat && (nat_of_ascii c <=? hi)%nat.

Definition is_digit (c : ascii) : bool := in_range 48 57 c.
Definition is_alpha (c : ascii) : bool := in_range 65 90 c || in_range 97 122 c.

(** [\w] on ASCII: letters, digits and the underscore. *)
Definition is_word (c : ascii) : bool :=
  is_alpha c || is_digit c || Ascii.eqb c "_".

(** [str.isspace] and [\s] on ASCII: tab to carriage return, the four
    separators 28 to 31, and the space. *)
Definition is_space (c : ascii) : bool :=
  in_range 9 13 c || in_range 28 32 c.

(** [s.strip()] *)
Definition strip (s : string) : string :=
  rstrip_by is_space (lstrip_by is_space s).

(** The truth value of a [str]: it is not empty. *)
Definition truthy (s : string) : bool :=
  match s with
  | "" => false
  | String _ _ => true
  end.

(** [s.rfind(c) + 1] for a one-character [c]: the length of the prefix of [s]
    that ends with the last [c], or [0] when [c] does not occur. *)
Fixpoint after_last (c : ascii) (s : string) : nat :=
  match s with
  | "" => 0
  | String a s' =>
      match after_last c s' with
      | S k => S (S k)
      | O => if Ascii.eqb a c then 1 else 0
      end
  end.

Fixpoint str_take (n : nat) (s : string) : string :=
  match n, s with
  | S k, String c s' => String c (str_take k s')
  | _, _ => ""
  end.

End PyStr.

Import PyStr.

(** ** translate.py: configuration *)

Definition CHAR_LIMIT_PER_MONTH : N := 999999999.

Definition TRANSLATABLE_TAGS : list string :=
  ["p"; "h1"; "h2"; "h3"; "h4"; "h5"; "h6"; "li"; "a"; "span"; "strong";
   "em"; "td"; "th"; "figcaption"; "blockquote"; "title"].

Definition EXCLUDED_TAGS : list string :=
  ["code"; "pre"; "script"; "style"; "kbd"].

Definition BATCH_SIZE : nat := 128.

Definition max_retries : nat := 3.

(** [x in l] for a list of strings. *)
Definition mem (x : string) (l : list string) : bool :=
  bool_decide (x ∈ l).

(** ** translate.py: protect_terminology and unprotect_terminology *)

(** An insertion-ordered [dict] from strings to strings. *)
Definition odict : Type := list (string * string).

(** [d[k] = v]: the value of an existing key is overwritten in place, a new
    key goes to the end. *)
Fixpoint dict_set (d : odict) (k v : string) : odict :=
  match d with
  | [] => [(k, v)]
  | (k', v') :: d' =>
      if String.eqb k' k then (k, v) :: d' else (k', v') :: dict_set d' k v
  end.

(** The placeholder of the [i]-th term of the dictionary: a [span] of class
    [notranslate] around the word [term] and the index. *)
Definition placeholder (i : nat) : string :=
  "<span class=" +:+ dquote +:+ "notranslate" +:+ dquote +:+ ">term"
    +:+ str_of_nat i +:+ "</span>".

(** The loop of [protect_terminology], from the [i]-th term on. *)
Fixpoint protect_terminology_from (i : nat) (text : string)
    (terminology placeholders : odict) : string * odict :=
  match terminology with
  | [] => (text, placeholders)
  | (en_term, ka_term) :: rest =>
      if contains en_term text
      then protect_terminology_from (S i)
             (replace en_term (placeholder i) text) rest
             (dict_set placeholders (placeholder i) ka_term)
      else protect_terminology_from (S i) text rest placeholders
  end.

Definition protect_terminology (text : string) (terminology : odict)
    : string * odict :=
  protect_terminology_from 0 text terminology [].

Fixpoint unprotect_terminology (text : string) (placeholders : odict) : string :=
  match placeholders with
  | [] => text
  | (ph, ka_term) :: rest => unprotect_terminology (replace ph ka_term text) rest
  end.

(** ** translate.py: protect_code_identifiers *)

(** The pattern is
    [(\b[a-zA-Z_][a-zA-Z0-9_.:]*\b)(\s*\(C(?:\+\+)?\s(?:macro|function|class|member|enumerator|type)\))].
    The matcher below follows the backtracking search of [re]: greedy
    repetitions give characters back when what follows does not match, and
    alternatives are tried in order. *)

Definition is_ident_start (c : ascii) : bool := is_alpha c || Ascii.eqb c "_".

Definition is_ident_char (c : ascii) : bool :=
  is_alpha c || is_digit c || Ascii.eqb c "_" || Ascii.eqb c "." || Ascii.eqb c ":".

Definition word_opt (c : option ascii) : bool :=
  match c with
  | Some a => is_word a
  | None => false
  end.

(** [\b] between the character [prev] (if any) and the text [s]. *)
Definition word_boundary (prev : option ascii) (s : string) : bool :=
  xorb (word_opt prev) (word_opt (str_head s)).

Definition strip_prefix (p s : string) : option string :=
  if startswith p s then Some (str_drop (String.length p) s) else None.

Definition type_kinds : list string :=
  ["macro"; "function"; "class"; "member"; "enumerator"; "type"].

(** [(?:macro|...|type)\)] at the start of [s]: the first alternative after
    which the closing parenthesis follows. *)
Fixpoint match_kind (kinds : list string) (s : string) : option (string * string) :=
  match kinds with
  | [] => None
  | k :: kinds' =>
      match strip_prefix (k +:+ ")") s with
      | Some rest => Some (k +:+ ")", rest)
      | None => match_kind kinds' s
      end
  end.

(** [\s(?:macro|...)\)] at the start of [s]. *)
Definition match_space_kind (s : string) : option (string * string) :=
  match s with
  | String c s' =>
      if is_space c
      then match match_kind type_kinds s' with
           | Some (k, rest) => Some (String c k, rest)
           | None => None
           end
      else None
  | "" => None
  end.

(** [\(C(?:\+\+)?\s(?:macro|...)\)] at the start of [s]: the optional [++]
    is tried first, and left out when the rest does not match with it. *)
Definition match_paren (s : string) : option (string * string) :=
  match strip_prefix "(C" s with
  | None => None
  | Some s1 =>
      let without :=
        match match_space_kind s1 with
        | Some (k, rest) => Some ("(C" +:+ k, rest)
        | None => None
        end in
      match strip_prefix "++" s1 with
      | Some s2 =>
          match match_space_kind s2 with
          | Some (k, rest) => Some ("(C++" +:+ k, rest)
          | None => without
          end
      | None => without
      end
  end.

(** Group 2, [\s*\(C ... \)], at the start of [s]: white space is taken
    greedily and given back one character at a time. *)
Fixpoint match_type_info (s : string) : option (string * string) :=
  match s with
  | String c s' =>
      if is_space c
      then match match_type_info s' with
           | Some (t, rest) => Some (String c t, rest)
           | None => match_paren s
           end
      else match_paren s
  | "" => match_paren s
  end.

(** The rest of group 1 after its last character so far, [prev]: one more
    identifier character when the whole match succeeds with it, and otherwise
    the end of the group, where [\b] and group 2 must follow.  The result is
    (rest of group 1, group 2, text after the match). *)
Fixpoint ident_tail (prev : ascii) (s : string) : option (string * string * string) :=
  let stop :=
    if word_boundary (Some prev) s
    then match match_type_info s with
         | Some (t, rest) => Some ("", t, rest)
         | None => None
         end
    else None in
  match s with
  | String c s' =>
      if is_ident_char c
      then match ident_tail c s' with
           | Some (i, t, rest) => Some (String c i, t, rest)
           | None => stop
           end
      else stop
  | "" => stop
  end.

(** The pattern at the start of [s], the character before being [prev]. *)
Definition match_at (prev : option ascii) (s : string)
    : option (string * string * string) :=
  match s with
  | String c s' =>
      if word_boundary prev s && is_ident_start c
      then match ident_tail c s' with
           | Some (i, t, rest) => Some (String c i, t, rest)
           | None => None
           end
      else None
  | "" => None
  end.

(** [repl]: the identifier in a [span] of class [notranslate], then group 2. *)
Definition repl (identifier type_info : string) : string :=
  "<span class=" +:+ dquote +:+ "notranslate" +:+ dquote +:+ ">" +:+ identifier
    +:+ "</span>" +:+ type_info.

(** [pattern.sub(repl, text)]: the leftmost match is replaced and the search
    goes on after it. *)
Fixpoint sub_go (skip : nat) (prev : option ascii) (s : string) : string :=
  match s with
  | "" => ""
  | String c s' =>
      match skip with
      | S k => sub_go k (Some c) s'
      | O =>
          match match_at prev s with
          | Some (i, t, _) =>
              repl i t +:+ sub_go (String.length i + String.length t - 1) (Some c) s'
          | None => String c (sub_go 0 (Some c) s')
          end
      end
  end.

Definition protect_code_identifiers (text : string) : string :=
  sub_go 0 None text.

(** Whether the pattern matches somewhere in the text, as
    [pattern.search(text) is not None] would tell; used to state when
    [protect_code_identifiers] has nothing to do. *)
Fixpoint pattern_search (prev : option ascii) (s : string) : bool :=
  match s with
  | "" => false
  | String c s' =>
      match match_at prev s with
      | Some _ => true
      | None => pattern_search (Some c) s'
      end
  end.

(** The protection passes in the order of [translate_batch_with_retry]. *)
Definition protect (text : string) (terminology : odict) : string * odict :=
  protect_terminology (protect_code_identifiers text) terminology.

(** Protection, a translation that returns its input, and restoration. *)
Definition protect_restore (text : string) (terminology : odict) : string :=
  let '(protected_text, placeholders) := protect text terminology in
  unprotect_terminology protected_text placeholders.

(** ** monitor.py: configuration *)

Definition BASE_URL : string :=
  "https://docs.espressif.com/projects/esp-idf/en/latest/".

Definition SOURCE_DIR : string := "source_html".

(** ** Library functions used by monitor.py *)

(** [s[:s.find(c)]] when [c] occurs in [s], and [s] otherwise. *)
Fixpoint before_char (c : ascii) (s : string) : string :=
  match s with
  | "" => ""
  | String a s' => if Ascii.eqb a c then "" else String a (before_char c s')
  end.

Fixpoint forallb_str (p : ascii -> bool) (s : string) : bool :=
  match s with
  | "" => true
  | String a s' => p a && forallb_str p s'
  end.

Definition is_scheme_char (c : ascii) : bool :=
  is_alpha c || is_digit c || Ascii.eqb c "+" || Ascii.eqb c "-" || Ascii.eqb c ".".

Definition lower (c : ascii) : ascii :=
  if in_range 65 90 c then ascii_of_nat (nat_of_ascii c + 32) else c.

Fixpoint lower_str (s : string) : string :=
  match s with
  | "" => ""
  | String a s' => String (lower a) (lower_str s')
  end.

(** The schemes of [urllib.parse.uses_params]. *)
Definition uses_params : list string :=
  [""; "ftp"; "hdl"; "prospero"; "http"; "imap"; "https"; "shttp"; "rtsp";
   "rtspu"; "sip"; "sips"; "mms"; "sftp"; "tel"].

(** The scheme of a URL and what follows its colon, as [urlsplit] separates
    them: the text before the first colon is a scheme when it starts with a
    letter and holds only letters, digits, [+], [-] and [.]. *)
Definition split_scheme (url : string) : string * string :=
  let s := before_char ":" url in
  let valid :=
    match s with
    | String c _ => is_alpha c && forallb_str is_scheme_char s
    | "" => false
    end in
  if has_char ":" url && valid
  then (lower_str s, str_drop (S (String.length s)) url)
  else ("", url).

(** The text from the first of [/], [?] and [#] on. *)
Fixpoint from_delim (s : string) : string :=
  match s with
  | "" => ""
  | String a s' =>
      if Ascii.eqb a "/" || Ascii.eqb a "?" || Ascii.eqb a "#" then s else from_delim s'
  end.

(** The path of [_splitparams]: the text before the first [;] of the last
    path segment. *)
Definition strip_params (url : string) : string :=
  let i := after_last "/" url in
  str_take i url +:+ before_char ";" (str_drop i url).

(** [urlparse(url).path], for a URL without control characters: the scheme
    and the network location are taken off, then the fragment, the query and
    the parameters of the last segment. *)
Definition url_path (url : string) : string :=
  let '(scheme, rest) := split_scheme url in
  let rest := if startswith "//" rest then from_delim (str_drop 2 rest) else rest in
  let rest := before_char "?" (before_char "#" rest) in
  if mem scheme uses_params then strip_params rest else rest.

(** [os.path.basename] *)
Definition basename (p : string) : string := str_drop (after_last "/" p) p.

(** [os.path.dirname]: the part before the last separator, without trailing
    separators unless it holds nothing else. *)
Definition dirname (p : string) : string :=
  let head := str_take (after_last "/" p) p in
  if truthy head && negb (forallb_str (Ascii.eqb "/") head)
  then rstrip_char "/" head
  else head.

(** [os.path.join] of two components. *)
Definition path_join (a b : string) : string :=
  if startswith "/" b then b
  else if negb (truthy a) || endswith "/" a then a +:+ b
  else a +:+ "/" +:+ b.

(** ** monitor.py: save_html_file *)

(** [relative_path] of [save_html_file]: the URL's path without its leading
    separators and, when it starts with the base URL's path, without that. *)
Definition relative_path (url base_url : string) : string :=
  let relative_path := lstrip_char "/" (url_path url) in
  let base_path_part := lstrip_char "/" (url_path base_url) in
  if startswith base_path_part relative_path
  then lstrip_char "/" (str_drop (String.length base_path_part) relative_path)
  else relative_path.

Definition file_name_of (relative_path : string) : string :=
  if String.eqb relative_path "" || endswith "/" relative_path
  then "index.html"
  else
    let file_name := basename relative_path in
    if has_char "." file_name then file_name else file_name +:+ ".html".

(** [file_path] of [save_html_file]. *)
Definition local_path (url base_dir base_url : string) : string :=
  let relative_path := relative_path url base_url in
  let file_name := file_name_of relative_path in
  let dir_path := path_join base_dir (dirname relative_path) in
  path_join dir_path file_name.

(** [save_html_file]: the file written and its content; nothing is written
    for an empty content. *)
Definition save_html_file (content url base_dir base_url : string)
    : option (string * string) :=
  if negb (truthy content) then None
  else Some (local_path url base_dir base_url, content).

(** ** monitor.py: discover_links and the discovery loop of main *)

Section Discovery.

(** The hyperlinks of a page, each already joined to the base URL and
    without fragment and query ([urljoin], then [urlparse], [_replace] and
    [geturl]); [None] when the request raises [RequestException]. *)
Variable page_links : string -> option (list string).

(** [discover_links]: the links of the page that start with the base URL;
    no link at all when the request failed. *)
Definition discover_links (url base_url : string) : gset string :=
  match page_links url with
  | Some hrefs => list_to_set (filter (fun u => startswith base_url u = true) hrefs)
  | None => ∅
  end.

Record crawl_state : Type := CrawlState {
  all_links : gset string;
  to_crawl : gset string;
  crawled : gset string;
  (** the URLs [discover_links] was called on, oldest first *)
  fetched : list string
}.

Definition crawl_init (base_url : string) : crawl_state :=
  {| all_links := ∅; to_crawl := {[ base_url ]}; crawled := ∅; fetched := [] |}.

(** One turn of the [while] loop, [current_url] being what [to_crawl.pop()]
    returned. *)
Definition crawl_body (base_url : string) (st : crawl_state)
    (current_url : string) : crawl_state :=
  let to_crawl1 := to_crawl st ∖ {[ current_url ]} in
  if bool_decide (current_url ∈ crawled st)
  then {| all_links := all_links st; to_crawl := to_crawl1;
          crawled := crawled st; fetched := fetched st |}
  else
    let new_links := discover_links current_url base_url in
    {| all_links := all_links st ∪ new_links;
       to_crawl := to_crawl1 ∪ (new_links ∖ crawled st);
       crawled := crawled st ∪ {[ current_url ]};
       fetched := fetched st ++ [current_url] |}.

(** [set.pop] removes an arbitrary element: any element of [to_crawl] may be
    the one of the next turn. *)
Inductive crawl_step (base_url : string) : crawl_state -> crawl_state -> Prop :=
  | crawl_pop st u :
      u ∈ to_crawl st ->
      crawl_step base_url st (crawl_body base_url st u).

(** The states the loop can be in after some turns. *)
Inductive crawl_run (base_url : string) : crawl_state -> crawl_state -> Prop :=
  | crawl_run_refl st : crawl_run base_url st st
  | crawl_run_step st1 st2 st3 :
      crawl_run base_url st1 st2 ->
      crawl_step base_url st2 st3 ->
      crawl_run base_url st1 st3.

(** The loop with the popped elements given in advance: it stops when
    [to_crawl] is empty, or when the next given element is not in it. *)
Fixpoint crawl_with (base_url : string) (pops : list string) (st : crawl_state)
    : crawl_state :=
  match pops with
  | [] => st
  | u :: pops' =>
      if bool_decide (u ∈ to_crawl st)
      then crawl_with base_url pops' (crawl_body base_url st u)
      else st
  end.

(** A URL reachable from the base URL by following discovered links. *)
Inductive reachable (base_url : string) : string -> Prop :=
  | reachable_base : reachable base_url base_url
  | reachable_link u v :
      reachable base_url u ->
      v ∈ discover_links u base_url ->
      reachable base_url v.

End Discovery.

(** ** monitor.py: get_page_content_and_hash and the update check of main *)

Section UpdateCheck.

(** [session.get(url).content] after [raise_for_status]; [None] when the
    request raises [RequestException]. *)
Variable fetch : string -> option string.

(** [hashlib.sha256(content).hexdigest()] *)
Variable sha256_hexdigest : string -> string.

Definition get_page_content_and_hash (url : string)
    : option string * option string :=
  match fetch url with
  | Some content => (Some content, Some (sha256_hexdigest content))
  | None => (None, None)
  end.

Record check_state : Type := CheckState {
  current_hashes : gmap string string;
  updated_or_new_urls : list string;
  (** the lines written to the update log, without their line ends *)
  log_file : list string;
  (** the files written by [save_html_file], oldest first *)
  saved_files : list (string * string)
}.

Definition check_init : check_state :=
  {| current_hashes := ∅; updated_or_new_urls := []; log_file := [];
     saved_files := [] |}.

(** The body of the [for] loop over the sorted URLs. *)
Definition check_url (previous_hashes : gmap string string)
    (base_dir base_url : string) (st : check_state) (url : string) : check_state :=
  match get_page_content_and_hash url with
  | (Some content, Some new_hash) =>
      if negb (truthy new_hash) then st
      else
        let hashes := <[ url := new_hash ]> (current_hashes st) in
        if bool_decide (previous_hashes !! url ≠ Some new_hash)
        then {| current_hashes := hashes;
                updated_or_new_urls := updated_or_new_urls st ++ [url];
                log_file := log_file st ++ [url];
                saved_files :=
                  saved_files st ++
                  option_list (save_html_file content url base_dir base_url) |}
        else {| current_hashes := hashes;
                updated_or_new_urls := updated_or_new_urls st;
                log_file := log_file st;
                saved_files := saved_files st |}
  | _ => st
  end.

(** [sorted(list(all_links))] *)
Definition sorted_urls (all_links : gset string) : list string :=
  merge_sort String.le (elements all_links).

(** Step 2 of [main]. *)
Definition check_updates (all_links : gset string)
    (previous_hashes : gmap string string) (base_dir base_url : string)
    : check_state :=
  foldl (check_url previous_hashes base_dir base_url) check_init
        (sorted_urls all_links).

(** The digest of a URL when it was fetched and the digest is a non-empty
    string: the case in which the loop body goes past its [continue]. *)
Definition hashed (url : string) : option string :=
  match fetch url with
  | Some content =>
      if truthy (sha256_hexdigest content) then Some (sha256_hexdigest content)
      else None
  | None => None
  end.

(** The classification as the specification words it:
    [previous.get(url) != digest], for a URL whose digest was computed. *)
Definition changed_or_new (previous_hashes : gmap string string) (url : string)
    : bool :=
  match hashed url with
  | Some new_hash => bool_decide (previous_hashes !! url ≠ Some new_hash)
  | None => false
  end.

(** What [save_html_file] writes for a URL. *)
Definition saved_for (base_dir base_url url : string) : list (string * string) :=
  match fetch url with
  | Some content => option_list (save_html_file content url base_dir base_url)
  | None => []
  end.

End UpdateCheck.

(** ** translate.py: the parsed document *)

(** A node of the tree [BeautifulSoup] builds: a string or a tag with its
    children.  The document itself is a tag named [[document]]; a [soup] is
    the list of its children. *)
#[warning="-register-all"]
Inductive node : Type :=
  | Text (s : string)
  | Tag (name : string) (children : list node).

Definition soup : Type := list node.

Definition DOCUMENT : string := "[document]".

(** A string of the document: where it stands (the child indices from the
    document down), its text, and the names of its parents as
    [find_parents] yields them, nearest first. *)
Record text_node : Type := TextNode {
  tn_path : list nat;
  tn_text : string;
  tn_parents : list string
}.

Definition under_index (i : nat) (t : text_node) : text_node :=
  {| tn_path := i :: tn_path t; tn_text := tn_text t; tn_parents := tn_parents t |}.

Definition under_tag (name : string) (t : text_node) : text_node :=
  {| tn_path := tn_path t; tn_text := tn_text t;
     tn_parents := tn_parents t ++ [name] |}.

(** The strings below the children [cs], the first of which has index [i]. *)
Fixpoint children_strings (f : node -> list text_node) (i : nat) (cs : list node)
    : list text_node :=
  match cs with
  | [] => []
  | c :: cs' => map (under_index i) (f c) ++ children_strings f (S i) cs'
  end.

(** The strings of a node, in document order. *)
Fixpoint node_strings (n : node) : list text_node :=
  match n with
  | Text s => [ {| tn_path := []; tn_text := s; tn_parents := [] |} ]
  | Tag name cs => map (under_tag name) (children_strings node_strings 0 cs)
  end.

(** [soup.find_all(string=True)] *)
Definition find_all_strings (doc : soup) : list text_node :=
  map (under_tag DOCUMENT) (children_strings node_strings 0 doc).

(** The test of the node filter: the parent is a translatable tag, no parent
    is an excluded tag, and the stripped text is not empty. *)
Definition is_translatable (t : text_node) : bool :=
  match tn_parents t with
  | parent :: _ => mem parent TRANSLATABLE_TAGS
  | [] => false
  end
  && forallb (fun p => negb (mem p EXCLUDED_TAGS)) (tn_parents t)
  && truthy (strip (tn_text t)).

Definition translatable_nodes (doc : soup) : list text_node :=
  List.filter is_translatable (find_all_strings doc).

(** [node.replace_with(NavigableString(new))] for the string at [path]. *)
Fixpoint replace_in (path : list nat) (new : string) (n : node) : node :=
  match path, n with
  | [], Text _ => Text new
  | i :: path', Tag name cs => Tag name (alter (replace_in path' new) i cs)
  | _, _ => n
  end.

Definition replace_with (path : list nat) (new : string) (doc : soup) : soup :=
  match path with
  | i :: path' => alter (replace_in path' new) i doc
  | [] => doc
  end.

(** The string at [path], if there is one. *)
Fixpoint text_in (path : list nat) (n : node) : option string :=
  match path, n with
  | [], Text s => Some s
  | i :: path', Tag _ cs =>
      match cs !! i with
      | Some c => text_in path' c
      | None => None
      end
  | _, _ => None
  end.

Definition text_at (path : list nat) (doc : soup) : option string :=
  match path with
  | i :: path' =>
      match doc !! i with
      | Some c => text_in path' c
      | None => None
      end
  | [] => None
  end.

(** ** translate.py: the environment and the state of a run *)

Inductive exn : Type :=
  | GoogleAPICallError
  | IndexError
  | OSError
  | OtherError.

(** What one call of [client.translate] does: it returns the translated
    texts, or raises. *)
Inductive api_reply : Type :=
  | Translated (results : list string)
  | ApiRaises (e : exn).

Record env : Type := Env {
  (** the reply of the call of [client.translate] that [n] calls precede *)
  env_client : nat -> list string -> api_reply;
  (** [open] and [BeautifulSoup] on a source file; [None] when they raise *)
  env_read : string -> option soup;
  (** whether [makedirs], [open] and [write] succeed for the output of a file *)
  env_write_ok : string -> bool;
  (** whether [save_processed_files] succeeds after a file *)
  env_save_ok : string -> bool
}.

Inductive log_entry : Type :=
  | LogRetry
  | LogBatchFailed (first_text : string)
  | LogReadError (filepath : string)
  | LogSoupError
  | LogWriteError (filepath : string)
  | LogLimitReached
  | LogCritical (filepath : string).

Record world : Type := World {
  (** [char_limit_tracker['count']] *)
  char_count : N;
  (** the number of calls of [client.translate] so far *)
  api_calls : nat;
  (** the seconds of each [time.sleep], oldest first *)
  sleeps : list N;
  log : list log_entry;
  (** the source files opened, oldest first *)
  files_read : list string;
  (** the translated files written, oldest first *)
  outputs : list (string * soup);
  (** the set [processed_files] of [main] *)
  processed_files : gset string;
  (** what the state file holds, as [load_processed_files] reads it *)
  state_file : gset string
}.

Definition set_char_count (f : N -> N) (w : world) : world :=
  {| char_count := f (char_count w); api_calls := api_calls w; sleeps := sleeps w;
     log := log w; files_read := files_read w; outputs := outputs w;
     processed_files := processed_files w; state_file := state_file w |}.

Definition set_api_calls (f : nat -> nat) (w : world) : world :=
  {| char_count := char_count w; api_calls := f (api_calls w); sleeps := sleeps w;
     log := log w; files_read := files_read w; outputs := outputs w;
     processed_files := processed_files w; state_file := state_file w |}.

Definition set_sleeps (f : list N -> list N) (w : world) : world :=
  {| char_count := char_count w; api_calls := api_calls w; sleeps := f (sleeps w);
     log := log w; files_read := files_read w; outputs := outputs w;
     processed_files := processed_files w; state_file := state_file w |}.

Definition set_log (f : list log_entry -> list log_entry) (w : world) : world :=
  {| char_count := char_count w; api_calls := api_calls w; sleeps := sleeps w;
     log := f (log w); files_read := files_read w; outputs := outputs w;
     processed_files := processed_files w; state_file := state_file w |}.

Definition set_files_read (f : list string -> list string) (w : world) : world :=
  {| char_count := char_count w; api_calls := api_calls w; sleeps := sleeps w;
     log := log w; files_read := f (files_read w); outputs := outputs w;
     processed_files := processed_files w; state_file := state_file w |}.

Definition set_outputs (f : list (string * soup) -> list (string * soup))
    (w : world) : world :=
  {| char_count := char_count w; api_calls := api_calls w; sleeps := sleeps w;
     log := log w; files_read := files_read w; outputs := f (outputs w);
     processed_files := processed_files w; state_file := state_file w |}.

Definition set_processed_files (f : gset string -> gset string) (w : world) : world :=
  {| char_count := char_count w; api_calls := api_calls w; sleeps := sleeps w;
     log := log w; files_read := files_read w; outputs := outputs w;
     processed_files := f (processed_files w); state_file := state_file w |}.

Definition set_state_file (f : gset string -> gset string) (w : world) : world :=
  {| char_count := char_count w; api_calls := api_calls w; sleeps := sleeps w;
     log := log w; files_read := files_read w; outputs := outputs w;
     processed_files := processed_files w; state_file := f (state_file w) |}.

(** A computation that reads and changes the state, and returns or raises.
    What was changed before an exception stays changed. *)
Inductive result (A : Type) : Type :=
  | Ok (a : A)
  | Raise (e : exn).
Arguments Ok {A} a.
Arguments Raise {A} e.

Definition M (A : Type) : Type := world -> result A * world.

Definition ret {A} (a : A) : M A := fun w => (Ok a, w).

Definition raise {A} (e : exn) : M A := fun w => (Raise e, w).

Definition bind {A B} (m : M A) (k : A -> M B) : M B :=
  fun w =>
    match m w with
    | (Ok a, w') => k a w'
    | (Raise e, w') => (Raise e, w')
    end.

(** [try: m except Exception: handler] *)
Definition try_except {A} (m : M A) (handler : exn -> M A) : M A :=
  fun w =>
    match m w with
    | (Ok a, w') => (Ok a, w')
    | (Raise e, w') => handler e w'
    end.

Definition modify (f : world -> world) : M unit := fun w => (Ok tt, f w).

Definition gets {A} (f : world -> A) : M A := fun w => (Ok (f w), w).

Declare Scope py_scope.
Delimit Scope py_scope with py.
Notation "x <- m ;; k" := (bind m (fun x => k))
  (at level 100, m at next level, right associativity) : py_scope.
Notation "m ;;; k" := (bind m (fun _ => k))
  (at level 100, right associativity) : py_scope.
Local Open Scope py_scope.

Definition logging (e : log_entry) : M unit := modify (set_log (fun l => l ++ [e])).

Definition sleep (seconds : N) : M unit :=
  modify (set_sleeps (fun l => l ++ [seconds])).

(** [len(s)] as a Python integer. *)
Definition len (s : string) : N := N.of_nat (String.length s).

(** ** translate.py: translate_batch_with_retry *)

(** Step 3, the loop over [enumerate(results)]: [placeholders_list[i]] raises
    [IndexError] when there are more results than texts. *)
Fixpoint restore_results (results : list string) (placeholders_list : list odict)
    : result (list string) :=
  match results with
  | [] => Ok []
  | translated_text :: results' =>
      match placeholders_list with
      | [] => Raise IndexError
      | placeholders :: rest =>
          match restore_results results' rest with
          | Ok final_texts =>
              Ok (unprotect_terminology translated_text placeholders :: final_texts)
          | Raise e => Raise e
          end
      end
  end.

(** The [for attempt in range(max_retries)] loop, [remaining] attempts being
    left.  [None] stands for the end of the loop without a [return]. *)
Fixpoint attempts (client : nat -> list string -> api_reply)
    (protected_texts : list string) (placeholders_list : list odict)
    (total_char_count : N) (remaining attempt : nat)
    : M (option (list string * N)) :=
  match remaining with
  | O => ret None
  | S remaining' =>
      n <- gets api_calls ;;
      modify (set_api_calls S) ;;;
      match client n protected_texts with
      | Translated results =>
          match restore_results results placeholders_list with
          | Ok final_texts => ret (Some (final_texts, total_char_count))
          | Raise e => raise e
          end
      | ApiRaises GoogleAPICallError =>
          logging LogRetry ;;;
          sleep (5 * (N.of_nat attempt + 1)) ;;;
          attempts client protected_texts placeholders_list total_char_count
                   remaining' (S attempt)
      | ApiRaises e => raise e
      end
  end.

Definition sum_N (l : list N) : N := foldr N.add 0%N l.

Definition translate_batch_with_retry (client : nat -> list string -> api_reply)
    (texts : list string) (terminology : odict) : M (list string * N) :=
  match texts with
  | [] => ret ([], 0%N)
  | first_text :: _ =>
      let protected := map (fun text => protect text terminology) texts in
      let protected_texts := map fst protected in
      let placeholders_list := map snd protected in
      let total_char_count := sum_N (map len protected_texts) in
      r <- attempts client protected_texts placeholders_list total_char_count
                    max_retries 0 ;;
      match r with
      | Some done => ret done
      | None =>
          logging (LogBatchFailed (str_take 100 first_text)) ;;;
          ret (texts, 0%N)
      end
  end.

(** ** translate.py: translate_soup_content *)

(** [l[i:i + BATCH_SIZE] for i in range(0, len(l), BATCH_SIZE)] *)
Fixpoint batches_go {A} (fuel : nat) (l : list A) : list (list A) :=
  match fuel with
  | O => []
  | S fuel' =>
      match l with
      | [] => []
      | _ :: _ => take BATCH_SIZE l :: batches_go fuel' (drop BATCH_SIZE l)
      end
  end.

Definition batches {A} (l : list A) : list (list A) := batches_go (List.length l) l.

(** The loop over [enumerate(batch_nodes)]: [translated_texts[j]] raises
    [IndexError] when there are fewer texts than nodes. *)
Fixpoint replace_batch (batch_nodes : list text_node) (translated_texts : list string)
    (doc : soup) : result soup :=
  match batch_nodes with
  | [] => Ok doc
  | t :: batch_nodes' =>
      match translated_texts with
      | [] => Raise IndexError
      | new :: translated_texts' =>
          replace_batch batch_nodes' translated_texts'
                        (replace_with (tn_path t) new doc)
      end
  end.

(** The loop over the batches; it ends at the first batch that finds the
    character count at the limit. *)
Fixpoint translate_batches (client : nat -> list string -> api_reply)
    (terminology : odict) (todo : list (list text_node)) (doc : soup)
    (translated_chars_total : N) : M (soup * N) :=
  match todo with
  | [] => ret (doc, translated_chars_total)
  | batch_nodes :: todo' =>
      let original_texts := map tn_text batch_nodes in
      count <- gets char_count ;;
      if (CHAR_LIMIT_PER_MONTH <=? count)%N
      then ret (doc, translated_chars_total)
      else
        r <- translate_batch_with_retry client original_texts terminology ;;
        let '(translated_texts, n) := r in
        modify (set_char_count (fun c => c + n)%N) ;;;
        match replace_batch batch_nodes translated_texts doc with
        | Ok doc' =>
            translate_batches client terminology todo' doc'
                              (translated_chars_total + n)%N
        | Raise e => raise e
        end
  end.

Definition translate_soup_content (client : nat -> list string -> api_reply)
    (doc : soup) (terminology : odict) : M (option soup * N) :=
  try_except
    (r <- translate_batches client terminology (batches (translatable_nodes doc))
                            doc 0%N ;;
     ret (Some (fst r), snd r))
    (fun _ => logging LogSoupError ;;; ret (None, 0%N)).

(** ** translate.py: reading, writing and the state file *)

Definition TRANSLATED_DIR : string := "translated_html".

(** [read_and_prepare_soup]: the document, or [None] after an exception
    that it logs. *)
Definition read_and_prepare_soup (e : env) (filepath : string) : M (option soup) :=
  modify (set_files_read (fun l => l ++ [filepath])) ;;;
  match env_read e filepath with
  | Some doc => ret (Some doc)
  | None => logging (LogReadError filepath) ;;; ret None
  end.

(** [os.path.relpath(filepath, SOURCE_DIR)] for a path that
    [os.walk(SOURCE_DIR)] yields: what follows the directory and its
    separator. *)
Definition relpath (filepath start : string) : string :=
  if startswith (start +:+ "/") filepath
  then str_drop (S (String.length start)) filepath
  else filepath.

Definition output_path (original_filepath : string) : string :=
  path_join TRANSLATED_DIR (relpath original_filepath SOURCE_DIR).

(** [write_translated_file]: an exception while writing is logged and not
    raised again. *)
Definition write_translated_file (e : env) (doc : soup) (original_filepath : string)
    : M unit :=
  try_except
    (if env_write_ok e original_filepath
     then modify (set_outputs (fun l => l ++ [(output_path original_filepath, doc)]))
     else raise OSError)
    (fun _ => logging (LogWriteError original_filepath)).

Definition save_processed_files (e : env) (filepath : string) : M unit :=
  if env_save_ok e filepath
  then modify (fun w => set_state_file (fun _ => processed_files w) w)
  else raise OSError.

(** ** translate.py: get_html_files *)

(** [get_html_files], given what [os.walk(directory)] yields: each directory
    with the names of its files.  The names that end with [.html] are joined
    to their directory, in the order of the walk. *)
Definition get_html_files (walk : list (string * list string)) : list string :=
  flat_map (fun entry => map (path_join entry.1)
                             (List.filter (endswith ".html") entry.2)) walk.

(** ** translate.py: main *)

(** The body of the loop of [main] after the test of the character limit:
    [true] stands for the end of the body, [false] for a [continue]. *)
Definition process_file (e : env) (terminology : odict) (filepath : string) : M bool :=
  doc <- read_and_prepare_soup e filepath ;;
  match doc with
  | None => ret false
  | Some doc =>
      r <- translate_soup_content (env_client e) doc terminology ;;
      match fst r with
      | None => ret false
      | Some translated_soup =>
          write_translated_file e translated_soup filepath ;;;
          modify (set_processed_files (fun s => s ∪ {[ filepath ]})) ;;;
          save_processed_files e filepath ;;;
          ret true
      end
  end.

(** One turn of the loop with its [try] and [except Exception]. *)
Definition loop_body (e : env) (terminology : odict) (filepath : string) : M bool :=
  try_except (process_file e terminology filepath)
             (fun _ => logging (LogCritical filepath) ;;; ret false).

(** The loop over [files_to_process]; the [break] when the character count
    is at the limit ends it. *)
Fixpoint process_files (e : env) (terminology : odict) (files : list string)
    (w : world) : world :=
  match files with
  | [] => w
  | filepath :: files' =>
      if (CHAR_LIMIT_PER_MONTH <=? char_count w)%N
      then set_log (fun l => l ++ [LogLimitReached]) w
      else process_files e terminology files' (snd (loop_body e terminology filepath w))
  end.

(** [[f for f in all_html_files if f not in processed_files]] *)
Definition files_to_process (all_html_files : list string)
    (processed_files : gset string) : list string :=
  List.filter (fun f => negb (bool_decide (f ∈ processed_files))) all_html_files.

(** The state at the start of a run that finds [stored] in the state file. *)
Definition start_world (stored : gset string) : world :=
  {| char_count := 0; api_calls := 0; sleeps := []; log := []; files_read := [];
     outputs := []; processed_files := stored; state_file := stored |}.

(** [main], once the client is initialised: the state when the run ends. *)
Definition main (e : env) (terminology : odict) (all_html_files : list string)
    (stored : gset string) : world :=
  process_files e terminology (files_to_process all_html_files stored)
                (start_world stored).


(** ** Notions used to state the properties *)

(** *** Positions in a document

    The names of the tags around the string at a path, nearest first, as
    the tree itself gives them. *)
Fixpoint parents_in (path : list nat) (n : node) : option (list string) :=
  match path, n with
  | [], Text _ => Some []
  | i :: path', Tag name cs =>
      match cs !! i with
      | Some c =>
          match parents_in path' c with
          | Some names => Some (names ++ [name])
          | None => None
          end
      | None => None
      end
  | _, _ => None
  end.

Definition parents_at (path : list nat) (doc : soup) : option (list string) :=
  parents_in path (Tag DOCUMENT doc).

(** Document order: the order in which a depth-first, left-to-right walk
    meets the strings, which is the lexicographic order of their paths. *)
Fixpoint path_ltb (p q : list nat) : bool :=
  match p, q with
  | [], _ :: _ => true
  | i :: p', j :: q' => (i <? j)%nat || ((i =? j)%nat && path_ltb p' q')
  | _, [] => false
  end.

Definition before (t1 t2 : text_node) : Prop :=
  path_ltb (tn_path t1) (tn_path t2) = true.

(** The criterion of the specification for a string with the given text and
    parents. *)
Definition qualifies (text : string) (parents : list string) : Prop :=
  (∃ parent rest, parents = parent :: rest ∧ parent ∈ TRANSLATABLE_TAGS)
  ∧ (∀ p, p ∈ parents -> p ∉ EXCLUDED_TAGS)
  ∧ strip text ≠ "".

(** *** Invariants of the discovery loop

    What holds of every state of the loop of [main] in monitor.py: the
    visited set is the set of fetched URLs, none fetched twice; every URL
    of the worklist or visited is reachable; the base URL and the links of
    every visited page are in the worklist or visited. *)
Record crawl_inv (page_links : string -> option (list string))
    (base_url : string) (st : crawl_state) : Prop := CrawlInv {
  inv_fetched : crawled st = list_to_set (fetched st);
  inv_nodup : NoDup (fetched st);
  inv_reach : ∀ u, u ∈ to_crawl st ∪ crawled st -> reachable page_links base_url u;
  inv_base : base_url ∈ to_crawl st ∪ crawled st;
  inv_closed : ∀ u v, u ∈ crawled st -> v ∈ discover_links page_links u base_url ->
               v ∈ to_crawl st ∪ crawled st
}.

(** A bound on the turns the loop still takes, [R] holding every reachable
    URL: each turn visits a new URL of [R] or shortens the worklist. *)
Definition crawl_measure (R : gset string) (st : crawl_state) : nat :=
  size (R ∖ crawled st) * S (size R) + size (to_crawl st).

(** A turn of the loop from a state that the loop reaches. *)
Definition crawl_next (page_links : string -> option (list string))
    (base_url : string) (st' st : crawl_state) : Prop :=
  crawl_run page_links base_url (crawl_init base_url) st
  ∧ crawl_step page_links base_url st st'.

(** *** The back-off of the retry loop

    The delays of [count] failed attempts in a row, the first of which is
    attempt number [attempt] (counted from zero): five seconds times the
    number of the attempt counted from one. *)
Definition backoff (attempt count : nat) : list N :=
  map (fun a => 5 * (N.of_nat a + 1))%N (seq attempt count).

(** The state after [count] failed attempts in a row. *)
Definition after_failures (attempt count : nat) (w : world) : world :=
  set_sleeps (fun l => l ++ backoff attempt count)
    (set_log (fun l => l ++ repeat LogRetry count)
       (set_api_calls (fun n => n + count) w)).

(** *** What translation leaves alone

    The functions that talk to the provider change the character count,
    the call count, the sleeps and the log, and nothing else. *)
Definition same_files (w w' : world) : Prop :=
  files_read w' = files_read w
  ∧ outputs w' = outputs w
  ∧ processed_files w' = processed_files w
  ∧ state_file w' = state_file w.


(** *** The tree of tags of a document

    A node without the text of its strings: what is left is the tree of
    tags, with a string wherever the document has one. *)
Fixpoint skeleton (n : node) : node :=
  match n with
  | Text _ => Text ""
  | Tag name cs => Tag name (map skeleton cs)
  end.

(** *** A provider that translates each text on its own

    What [translate_batch_with_retry] makes of a text when the provider
    turns a protected text [s] into [f s]: protection, [f], restoration. *)
Definition translated_text (f : string -> string) (terminology : odict)
    (text : string) : string :=
  unprotect_terminology (f (protect text terminology).1) (protect text terminology).2.

(** The characters submitted for a list of texts: the lengths of the
    protected texts. *)
Definition protected_chars (terminology : odict) (texts : list string) : N :=
  sum_N (map (fun text => len (protect text terminology).1) texts).

(** The most characters that one batch of a list of batches submits. *)
Definition max_batch_chars (terminology : odict) (todo : list (list text_node)) : N :=
  foldr N.max 0%N
        (map (fun batch => protected_chars terminology (map tn_text batch)) todo).

(** The document with the text of each of the given nodes replaced by what
    [h] makes of it, in the order of the list. *)
Definition write_back (h : string -> string) (doc : soup) (nodes : list text_node)
    : soup :=
  foldl (fun d t => replace_with (tn_path t) (h (tn_text t)) d) doc nodes.

(** The document with every selected string translated. *)
Definition translate_doc (f : string -> string) (terminology : odict) (doc : soup)
    : soup :=
  write_back (translated_text f terminology) doc (translatable_nodes doc).

(** *** Annotated identifiers

    A text that the first group of the pattern of [protect_code_identifiers]
    matches as a whole: a letter or an underscore, then letters, digits,
    underscores, dots and colons, the last character being a letter, a digit
    or an underscore. *)
Fixpoint identifier_tail (c : ascii) (body : string) : bool :=
  match body with
  | "" => is_word c
  | String a body' => is_ident_char a && identifier_tail a body'
  end.

Definition is_identifier (s : string) : bool :=
  match s with
  | String c body => is_ident_start c && identifier_tail c body
  | "" => false
  end.

(** The annotation of an index entry: a space, then [(C kind)] or
    [(C++ kind)]. *)
Definition type_info (plus : bool) (kind : string) : string :=
  " (C" +:+ (if plus then "++" else "") +:+ " " +:+ kind +:+ ")".

(** *** A run in which nothing fails

    The document of a source file (the empty document when the file cannot
    be read), and the characters that a list of files submits. *)
Definition source_doc (e : env) (filepath : string) : soup :=
  default [] (env_read e filepath).

Definition run_chars (e : env) (terminology : odict) (files : list string) : N :=
  sum_N (map (fun filepath =>
                protected_chars terminology
                  (map tn_text (translatable_nodes (source_doc e filepath))))
             files).

(** *** The pages of the site

    What can follow the base URL in the URL of a page: characters that are
    not control characters and are none of [?], [#] and [;], so that the
    URL has no query, no fragment and no parameters. *)
Definition path_text (s : string) : bool :=
  forallb_str (fun c => (32 <=? nat_of_ascii c)%nat
                        && negb (Ascii.eqb c "?")
                        && negb (Ascii.eqb c "#")
                        && negb (Ascii.eqb c ";")) s.

(** ** Sample inputs

    Small sites, documents and environments on which the properties of
    Part II are run. *)

(** Three pages for the update check: the first is unchanged, the second is
    new, the third cannot be fetched. *)

Definition demo_fetch (url : string) : option string :=
  if String.eqb url "https://d/a" then Some "A"
  else if String.eqb url "https://d/b" then Some "B"
  else None.

Definition demo_digest (content : string) : string := String "#" content.

Definition demo_links : gset string :=
  {[ "https://d/c"; "https://d/b"; "https://d/a" ]}.

Definition demo_previous : gmap string string :=
  {[ "https://d/a" := "#A"; "https://d/c" := "#C" ]}.

(** A site of three pages: the base page links to itself, to a second page
    and to another site; the second page links back and to a third page,
    whose request fails. *)
Definition demo_base : string := "https://d/".

Definition demo_site (url : string) : option (list string) :=
  if String.eqb url "https://d/"
  then Some ["https://d/"; "https://d/a"; "https://elsewhere/"]
  else if String.eqb url "https://d/a"
  then Some ["https://d/"; "https://d/b"]
  else None.

Definition demo_pages : gset string :=
  {[ "https://d/"; "https://d/a"; "https://d/b" ]}.

(** A small page: a paragraph with a code span, a preformatted block with a
    span inside, a list item, and a string directly below the body. *)
Definition demo_doc : soup :=
  [Tag "html"
     [Tag "body"
        [Tag "p" [Text "Call "; Tag "code" [Text "gpio_init"]; Text "  "];
         Tag "pre" [Tag "span" [Text "raw text"]];
         Tag "ul" [Tag "li" [Text "Learn about FreeRTOS here."]];
         Text "loose"]]].

(** A client that is down, and a client that returns its input. *)
Definition client_down (n : nat) (texts : list string) : api_reply :=
  ApiRaises GoogleAPICallError.

Definition client_identity (n : nat) (texts : list string) : api_reply :=
  Translated texts.

(** A client that is down for its first two calls. *)
Definition client_flaky (n : nat) (texts : list string) : api_reply :=
  if (n <? 2)%nat then ApiRaises GoogleAPICallError else Translated texts.

(** An environment in which every source file is the sample page and the
    provider returns its input, with the given outcomes of writing the
    output and saving the state. *)
Definition demo_env (write_ok save_ok : bool) : env :=
  {| env_client := client_identity;
     env_read := fun _ => Some demo_doc;
     env_write_ok := fun _ => write_ok;
     env_save_ok := fun _ => save_ok |}.

(** An environment in which no source file can be read. *)
Definition unreadable_env : env :=
  {| env_client := client_identity;
     env_read := fun _ => None;
     env_write_ok := fun _ => true;
     env_save_ok := fun _ => true |}.

(** A page of 129 paragraphs, a provider that marks what it translates,
    and a run that has already used all but a hundred characters of the
    limit. *)
Definition demo_long_doc : soup :=
  [Tag "body" (repeat (Tag "p" [Text "Hello."]) 129)].

Definition client_mark (n : nat) (texts : list string) : api_reply :=
  Translated (map (fun text => "ka:" +:+ text) texts).

Definition demo_long_env : env :=
  {| env_client := client_mark;
     env_read := fun _ => Some demo_long_doc;
     env_write_ok := fun _ => true;
     env_save_ok := fun _ => true |}.

Definition demo_late_world : world :=
  set_char_count (fun _ => 999999899%N) (start_world ∅).

Definition demo_long_translated : soup :=
  [Tag "body" (repeat (Tag "p" [Text "ka:Hello."]) 128 ++ [Tag "p" [Text "Hello."]])].

(** The sample page as [client_mark] translates it. *)
Definition demo_doc_marked : soup :=
  [Tag "html"
     [Tag "body"
        [Tag "p" [Text "ka:Call "; Tag "code" [Text "gpio_init"]; Text "  "];
         Tag "pre" [Tag "span" [Text "raw text"]];
         Tag "ul" [Tag "li" [Text "ka:Learn about FreeRTOS here."]];
         Text "loose"]]].

(** A provider that returns no text at all, and a provider that raises an
    error of its own. *)
Definition client_silent (n : nat) (texts : list string) : api_reply :=
  Translated [].

Definition client_broken (n : nat) (texts : list string) : api_reply :=
  ApiRaises OtherError.

(** An environment whose provider marks what it translates and in which
    every file is the sample page. *)
Definition demo_mark_env : env :=
  {| env_client := client_mark;
     env_read := fun _ => Some demo_doc;
     env_write_ok := fun _ => true;
     env_save_ok := fun _ => true |}.

(* ===================================================================== *)
(** * Part II: properties                                                  *)
(* ===================================================================== *)

(** ** Strings *)

Lemma append_cons (c : ascii) (s t : string) :
  String c s +:+ t = String c (s +:+ t).
Proof. reflexivity. Qed.

Lemma append_empty_r (s : string) : s +:+ "" = s.
Proof. induction s as [|c s IH]; [done|]. by rewrite append_cons, IH. Qed.

Lemma append_assoc (s t u : string) : (s +:+ t) +:+ u = s +:+ (t +:+ u).
Proof. induction s as [|c s IH]; [done|]. by rewrite !append_cons, IH. Qed.

Lemma length_append (s t : string) :
  String.length (s +:+ t) = String.length s + String.length t.
Proof. induction s as [|c s IH]; [done|]. rewrite append_cons. simpl. by rewrite IH. Qed.

Lemma startswith_append (p s : string) : startswith p (p +:+ s) = true.
Proof.
  induction p as [|c p IH]; [done|].
  rewrite append_cons. simpl. by rewrite Ascii.eqb_refl, IH.
Qed.


Lemma has_char_cons_false (a c : ascii) (s : string) :
  has_char a (String c s) = false -> c ≠ a ∧ has_char a s = false.
Proof.
  simpl. destruct (Ascii.eqb_spec c a) as [->|Hne]; [done|].
  intros H. split; [exact Hne|exact H].
Qed.

(** ** Replacement *)







Lemma replace_go_absent (old new s : string) :
  contains old s = false -> replace_go old new 0 s = s.
Proof.
  induction s as [|c s IH]; [done|].
  intros H. cbn [contains] in H. apply orb_false_iff in H as [H1 H2].
  cbn [replace_go]. rewrite H1. by rewrite IH.
Qed.

Lemma contains_empty (s : string) : contains "" s = true.
Proof. by destruct s. Qed.

Lemma replace_absent (old new s : string) :
  contains old s = false -> replace old new s = s.
Proof.
  destruct old as [|o old]; [by rewrite contains_empty|].
  apply replace_go_absent.
Qed.

(** ** The protection passes *)



Lemma sub_go_no_match (prev : option ascii) (s : string) :
  pattern_search prev s = false -> sub_go 0 prev s = s.
Proof.
  revert prev. induction s as [|c s IH]; intros prev; [done|].
  cbn [pattern_search sub_go].
  destruct (match_at prev (String c s)) as [[[i t] r]|]; [done|].
  intros H. by rewrite IH.
Qed.




(** ** Paths *)

Lemma str_take_drop (n : nat) (s : string) : str_take n s +:+ str_drop n s = s.
Proof.
  revert s. induction n as [|n IH]; intros [|c s]; try done.
  simpl. by rewrite append_cons, IH.
Qed.

(** Where the last [c] of [s] is: nowhere, or at the end of the prefix that
    [after_last] measures, with no [c] after it. *)
Lemma after_last_split (c : ascii) (s : string) :
  (after_last c s = 0 ∧ has_char c s = false)
  ∨ (∃ h, str_take (after_last c s) s = h +:+ String c ""
          ∧ has_char c (str_drop (after_last c s) s) = false).
Proof.
  induction s as [|a s IH]; [by left|].
  destruct IH as [[H0 Hno]|(h & Hh & Hno)].
  - simpl. rewrite H0, Hno. destruct (Ascii.eqb_spec a c) as [->|Hne].
    + right. exists "". by split.
    + by left.
  - right. simpl. destruct (after_last c s) as [|k] eqn:Hk.
    + by destruct h.
    + exists (String a h). split; [|exact Hno].
      change (str_take (S (S k)) (String a s)) with (String a (str_take (S k) s)).
      by rewrite Hh.
Qed.

Lemma has_char_startswith (c : ascii) (s : string) :
  has_char c s = false -> startswith (String c "") s = false.
Proof.
  destruct s as [|a s]; [done|]. simpl.
  rewrite (Ascii.eqb_sym c a). by destruct (Ascii.eqb a c).
Qed.

Lemma endswith_empty (c : ascii) : endswith (String c "") "" = false.
Proof. reflexivity. Qed.

Lemma endswith_append_nonempty (c a : ascii) (s t : string) :
  endswith (String c "") (s +:+ String a t) = endswith (String c "") (String a t).
Proof.
  induction s as [|b s IH]; [done|].
  rewrite append_cons. cbn [endswith]. rewrite IH.
  replace (String.eqb (String c "") (String b (s +:+ String a t))) with false; [done|].
  symmetry. apply String.eqb_neq. intros [= _ H]. by destruct s.
Qed.

Lemma endswith_snoc (c : ascii) (s : string) :
  endswith (String c "") (s +:+ String c "") = true.
Proof.
  rewrite endswith_append_nonempty. simpl. by rewrite Ascii.eqb_refl.
Qed.

Lemma endswith_after_last (c : ascii) (s : string) :
  endswith (String c "") s = true -> str_take (after_last c s) s = s.
Proof.
  induction s as [|a s IH]; [done|].
  cbn [endswith]. intros H. apply orb_true_iff in H as [H|H].
  - apply String.eqb_eq in H. injection H as <- <-. simpl.
    by rewrite Ascii.eqb_refl.
  - specialize (IH H). simpl. destruct (after_last c s) as [|k] eqn:Hk.
    + destruct s; [done|]. simpl in IH. discriminate.
    + change (str_take (S (S k)) (String a s)) with (String a (str_take (S k) s)).
      by rewrite IH.
Qed.

Lemma rstrip_by_snoc (f : ascii -> bool) (c : ascii) (h : string) :
  f c = true -> rstrip_by f (h +:+ String c "") = rstrip_by f h.
Proof.
  intros Hc. induction h as [|a h IH].
  - simpl. by rewrite Hc.
  - rewrite append_cons. cbn [rstrip_by]. by rewrite IH.
Qed.

Lemma rstrip_char_id (c : ascii) (h : string) :
  endswith (String c "") h = false -> rstrip_char c h = h.
Proof.
  unfold rstrip_char. induction h as [|a h IH]; [done|].
  cbn [endswith]. intros H. apply orb_false_iff in H as [H1 H2].
  cbn [rstrip_by]. rewrite (IH H2). destruct h as [|b h]; [|done].
  destruct (Ascii.eqb_spec c a) as [->|_]; [|done].
  simpl in H1. by rewrite Ascii.eqb_refl in H1.
Qed.

Lemma no_double_separator (c : ascii) (h t : string) :
  contains (String c (String c "")) (h +:+ String c t) = false ->
  endswith (String c "") h = false.
Proof.
  induction h as [|a h IH]; [done|].
  rewrite append_cons. cbn [contains endswith].
  intros H. apply orb_false_iff in H as [H1 H2].
  rewrite (IH H2), orb_false_r.
  apply String.eqb_neq. intros [= <- <-].
  simpl in H1. by rewrite !Ascii.eqb_refl in H1.
Qed.

Lemma lstrip_char_head (c : ascii) (s : string) :
  startswith (String c "") (lstrip_char c s) = false.
Proof.
  unfold lstrip_char. induction s as [|a s IH]; [done|].
  simpl. destruct (Ascii.eqb c a) eqn:E; [exact IH|].
  simpl. by rewrite E.
Qed.

Lemma relative_path_head (url base_url : string) :
  startswith "/" (relative_path url base_url) = false.
Proof.
  unfold relative_path.
  destruct (startswith (lstrip_char "/" (url_path base_url)) _);
    apply lstrip_char_head.
Qed.


(** The two joins of [save_html_file] put the file name after the part of
    the relative path that ends with its last separator. *)
Lemma path_join_mirror (base_dir rel file_name : string) :
  base_dir ≠ "" ->
  endswith "/" base_dir = false ->
  startswith "/" rel = false ->
  contains "//" rel = false ->
  startswith "/" file_name = false ->
  path_join (path_join base_dir (dirname rel)) file_name
  = base_dir +:+ "/" +:+ str_take (after_last "/" rel) rel +:+ file_name.
Proof.
  intros Hbase Hend Hrel Hdouble Hfile.
  assert (Htruthy : truthy base_dir = true) by (by destruct base_dir).
  unfold dirname.
  destruct (after_last_split "/" rel) as [[H0 _]|(h & Hh & _)].
  - rewrite H0. simpl str_take. simpl.
    unfold path_join at 2. simpl startswith. rewrite Htruthy, Hend. simpl.
    unfold path_join. rewrite Hfile.
    change ("/" +:+ "") with "/".
    rewrite endswith_snoc, orb_true_r.
    by rewrite append_assoc.
  - rewrite Hh.
    assert (Hrel' : rel = h +:+ String "/" (basename rel)).
    { rewrite <- (str_take_drop (after_last "/" rel) rel) at 1.
      rewrite Hh. by rewrite append_assoc. }
    destruct h as [|a h].
    { rewrite Hrel' in Hrel. simpl in Hrel. discriminate. }
    assert (Ha : Ascii.eqb "/" a = false).
    { rewrite Hrel', append_cons in Hrel. cbn [startswith] in Hrel.
      by rewrite andb_true_r in Hrel. }
    assert (Hh_end : endswith "/" (String a h) = false).
    { apply (no_double_separator "/" _ (basename rel)). by rewrite <- Hrel'. }
    replace (truthy (String a h +:+ "/") && negb (forallb_str (Ascii.eqb "/") (String a h +:+ "/")))
      with true
      by (rewrite append_cons; cbn [truthy forallb_str]; by rewrite Ha).
    unfold rstrip_char. rewrite rstrip_by_snoc by done.
    fold (rstrip_char "/" (String a h)). rewrite (rstrip_char_id _ _ Hh_end).
    unfold path_join at 2. cbn [startswith]. rewrite Ha, Htruthy, Hend. simpl negb.
    cbn [orb andb].
    unfold path_join. rewrite Hfile.
    change ("/" +:+ String a h) with (String "/" (String a h)).
    rewrite endswith_append_nonempty.
    replace (endswith "/" (String "/" (String a h))) with false
      by (change (endswith "/" (String "/" (String a h)))
            with (String.eqb "/" (String "/" (String a h))
                  || endswith "/" (String a h));
          by rewrite Hh_end).
    replace (truthy (base_dir +:+ String "/" (String a h))) with true
      by (by destruct base_dir).
    simpl negb. cbn [orb].
    rewrite !append_assoc. reflexivity.
Qed.

Lemma basename_no_separator (p : string) : has_char "/" (basename p) = false.
Proof.
  unfold basename.
  destruct (after_last_split "/" p) as [[H0 Hno]|(h & _ & Hno)]; [|exact Hno].
  by rewrite H0.
Qed.

Lemma startswith_char_append (c : ascii) (s t : string) :
  startswith (String c "") s = false ->
  startswith (String c "") t = false ->
  startswith (String c "") (s +:+ t) = false.
Proof. destruct s as [|a s]; [done|]. intros H _. exact H. Qed.

Lemma joined_path_of_relative (base_dir rel : string) :
  base_dir ≠ "" ->
  endswith "/" base_dir = false ->
  startswith "/" rel = false ->
  contains "//" rel = false ->
  path_join (path_join base_dir (dirname rel)) (file_name_of rel)
  = base_dir +:+ "/" +:+ rel +:+
      (if String.eqb rel "" || endswith "/" rel then "index.html"
       else if has_char "." (basename rel) then "" else ".html").
Proof.
  intros Hbase Hend Hrel Hdouble.
  pose proof (basename_no_separator rel) as Hsep.
  apply has_char_startswith in Hsep.
  unfold file_name_of.
  destruct (String.eqb rel "" || endswith "/" rel) eqn:Hindex.
  - rewrite path_join_mirror by done.
    replace (str_take (after_last "/" rel) rel) with rel; [done|].
    apply orb_true_iff in Hindex as [H|H].
    + apply String.eqb_eq in H. by subst rel.
    + symmetry. by apply endswith_after_last.
  - destruct (has_char "." (basename rel)).
    + rewrite path_join_mirror by done.
      unfold basename. by rewrite str_take_drop, append_empty_r.
    + rewrite path_join_mirror; try done.
      * unfold basename.
        rewrite <- (append_assoc (str_take _ rel)). by rewrite str_take_drop.
      * by apply startswith_char_append.
Qed.

(** C2, as amended.  [save_html_file] writes below the mirror root the
    URL's path without the base URL's path: for a mirror root that is not
    empty and does not end with a separator, and a relative path without a
    doubled separator, the local path is the root, a separator and the
    relative path, followed by [index.html] when the relative path is empty
    or ends with a separator, by nothing when its last segment holds a dot,
    and by [.html] otherwise.  In particular the page [docs/api/] of a site
    whose base is [docs/] goes to [api/index.html] under the root. *)
Theorem C2_local_path (url base_dir base_url : string) :
  (base_dir ≠ "" ->
   endswith "/" base_dir = false ->
   contains "//" (relative_path url base_url) = false ->
   local_path url base_dir base_url
   = base_dir +:+ "/" +:+ relative_path url base_url +:+
       (if String.eqb (relative_path url base_url) ""
           || endswith "/" (relative_path url base_url)
        then "index.html"
        else if has_char "." (basename (relative_path url base_url))
             then "" else ".html"))
  ∧ local_path "https://site.example/docs/api/" "mirror"
               "https://site.example/docs/" = "mirror/api/index.html".
Proof.
  split; [|reflexivity].
  intros Hbase Hend Hdouble.
  unfold local_path.
  apply joined_path_of_relative; try done.
  apply relative_path_head.
Qed.

(** A run of the theorem on a page without extension. *)
Lemma C2_local_path_witness :
  local_path "https://site.example/docs/api/gpio" "source_html"
             "https://site.example/docs/" = "source_html/api/gpio.html".
Proof.
  exact (proj1 (C2_local_path "https://site.example/docs/api/gpio" "source_html"
                  "https://site.example/docs/")
               ltac:(discriminate) eq_refl eq_refl).
Defined.

(** C2 as stated fails on its own example: the base path [docs/] is taken
    off, so the page is not saved below [docs/]. *)
Lemma C2_save_path_counterexample :
  local_path "https://site.example/docs/api/" "mirror" "https://site.example/docs/"
  ≠ "mirror/docs/api/index.html".
Proof. by vm_compute. Qed.

(** ** The update check *)

Section UpdateCheckProps.

Variable fetch : string -> option string.
Variable sha256_hexdigest : string -> string.
Variable previous_hashes : gmap string string.
Variables base_dir base_url : string.

Local Abbreviation check_url' :=
  (check_url fetch sha256_hexdigest previous_hashes base_dir base_url).

Local Abbreviation hashed' := (hashed fetch sha256_hexdigest).
Local Abbreviation changed' :=
  (changed_or_new fetch sha256_hexdigest previous_hashes).
Local Abbreviation saved_for' := (saved_for fetch base_dir base_url).

Lemma check_url_skip (st : check_state) (url : string) :
  hashed' url = None -> check_url' st url = st.
Proof.
  unfold hashed, check_url, get_page_content_and_hash.
  destruct (fetch url) as [content|]; [|done].
  by destruct (truthy (sha256_hexdigest content)).
Qed.

Lemma check_url_hashed (st : check_state) (url new_hash : string) :
  hashed' url = Some new_hash ->
  check_url' st url =
    {| current_hashes := <[ url := new_hash ]> (current_hashes st);
       updated_or_new_urls :=
         updated_or_new_urls st ++ (if changed' url then [url] else []);
       log_file := log_file st ++ (if changed' url then [url] else []);
       saved_files :=
         saved_files st ++ (if changed' url then saved_for' url else []) |}.
Proof.
  unfold changed_or_new, saved_for. intros H. rewrite H. revert H.
  unfold hashed, check_url, get_page_content_and_hash.
  destruct (fetch url) as [content|]; [|done].
  destruct (truthy (sha256_hexdigest content)); [|done].
  intros [= <-]. simpl.
  destruct (bool_decide _); [done|].
  by rewrite !app_nil_r.
Qed.

(** The loop appends the changed URLs, in the order of the list, to the
    list of updated URLs and to the log. *)
Lemma check_fold_updated (l : list string) (st : check_state) :
  updated_or_new_urls (foldl check_url' st l)
    = updated_or_new_urls st ++ List.filter changed' l
  ∧ log_file (foldl check_url' st l)
    = log_file st ++ List.filter changed' l.
Proof.
  revert st. induction l as [|u l IH]; intros st.
  - by rewrite !app_nil_r.
  - cbn [foldl List.filter]. destruct (IH (check_url' st u)) as [-> ->].
    destruct (hashed' u) as [h|] eqn:Hu.
    + rewrite (check_url_hashed _ _ _ Hu). simpl.
      destruct (changed' u); by rewrite <- !app_assoc.
    + rewrite (check_url_skip _ _ Hu).
      unfold changed_or_new. by rewrite Hu.
Qed.

Lemma check_fold_hashes (l : list string) (st : check_state) (url : string) :
  current_hashes (foldl check_url' st l) !! url
  = if bool_decide (url ∈ l) then
      match hashed' url with
      | Some h => Some h
      | None => current_hashes st !! url
      end
    else current_hashes st !! url.
Proof.
  revert st. induction l as [|u l IH]; intros st; [done|].
  cbn [foldl]. rewrite IH.
  destruct (hashed' u) as [h|] eqn:Hu.
  - rewrite (check_url_hashed _ _ _ Hu). simpl.
    destruct (decide (u = url)) as [->|Hne].
    + rewrite Hu, lookup_insert_eq.
      rewrite (bool_decide_eq_true_2 (url ∈ url :: l)) by constructor.
      by destruct (bool_decide (url ∈ l)).
    + rewrite lookup_insert_ne by done.
      destruct (bool_decide (url ∈ l)) eqn:Hin.
      * apply bool_decide_eq_true_1 in Hin.
        by rewrite (bool_decide_eq_true_2 (url ∈ u :: l)) by (by constructor).
      * apply bool_decide_eq_false_1 in Hin.
        rewrite (bool_decide_eq_false_2 (url ∈ u :: l)); [done|].
        intros [->|H]%elem_of_cons; done.
  - rewrite (check_url_skip _ _ Hu).
    destruct (decide (u = url)) as [->|Hne].
    + rewrite Hu.
      rewrite (bool_decide_eq_true_2 (url ∈ url :: l)) by constructor.
      by destruct (bool_decide (url ∈ l)).
    + destruct (bool_decide (url ∈ l)) eqn:Hin.
      * apply bool_decide_eq_true_1 in Hin.
        by rewrite (bool_decide_eq_true_2 (url ∈ u :: l)) by (by constructor).
      * apply bool_decide_eq_false_1 in Hin.
        rewrite (bool_decide_eq_false_2 (url ∈ u :: l)); [done|].
        intros [->|H]%elem_of_cons; done.
Qed.

Lemma check_fold_saved (l : list string) (st : check_state) :
  saved_files (foldl check_url' st l)
  = saved_files st ++ flat_map saved_for' (List.filter changed' l).
Proof.
  revert st. induction l as [|u l IH]; intros st.
  - simpl. by rewrite app_nil_r.
  - cbn [foldl List.filter]. rewrite IH.
    destruct (hashed' u) as [h|] eqn:Hu.
    + rewrite (check_url_hashed _ _ _ Hu). simpl.
      destruct (changed' u); simpl; by rewrite <- !app_assoc.
    + rewrite (check_url_skip _ _ Hu).
      unfold changed_or_new. by rewrite Hu.
Qed.

Lemma sorted_urls_elem (all_links : gset string) (url : string) :
  url ∈ sorted_urls all_links ↔ url ∈ all_links.
Proof.
  unfold sorted_urls. rewrite merge_sort_Permutation. apply elem_of_elements.
Qed.

Lemma sorted_urls_sorted (all_links : gset string) :
  StronglySorted String.le (sorted_urls all_links).
Proof. apply StronglySorted_merge_sort; apply _. Qed.

(** C5.  The update check goes through the discovered URLs in sorted order,
    and a URL that was fetched is in the list of changed or new URLs exactly
    when the previous fingerprint map does not hold the digest of its
    content for it (which includes holding nothing for it).  The digest is
    a SHA-256 hex digest: never the empty string. *)
Theorem C5_change_classification (all_links : gset string) :
  (∀ content, sha256_hexdigest content ≠ "") ->
  StronglySorted String.le (sorted_urls all_links)
  ∧ (∀ url, url ∈ sorted_urls all_links ↔ url ∈ all_links)
  ∧ updated_or_new_urls
      (check_updates fetch sha256_hexdigest all_links previous_hashes
                     base_dir base_url)
    = List.filter (changed_or_new fetch sha256_hexdigest previous_hashes)
                  (sorted_urls all_links)
  ∧ ∀ url content,
      url ∈ all_links ->
      fetch url = Some content ->
      (url ∈ updated_or_new_urls
               (check_updates fetch sha256_hexdigest all_links previous_hashes
                              base_dir base_url)
       ↔ previous_hashes !! url ≠ Some (sha256_hexdigest content)).
Proof.
  intros Hsha.
  assert (Hupd : updated_or_new_urls
      (check_updates fetch sha256_hexdigest all_links previous_hashes
                     base_dir base_url)
    = List.filter (changed_or_new fetch sha256_hexdigest previous_hashes)
                  (sorted_urls all_links)).
  { unfold check_updates.
    by destruct (check_fold_updated (sorted_urls all_links) check_init) as [-> _]. }
  split; [apply sorted_urls_sorted|].
  split; [apply sorted_urls_elem|].
  split; [exact Hupd|].
  intros url content Hin Hfetch. rewrite Hupd.
  rewrite list_elem_of_In, List.filter_In, <- list_elem_of_In, sorted_urls_elem.
  unfold changed_or_new, hashed. rewrite Hfetch.
  specialize (Hsha content).
  destruct (sha256_hexdigest content) as [|c d] eqn:Hd; [done|]. simpl.
  rewrite bool_decide_eq_true. tauto.
Qed.

(** C6.  A URL whose fetch fails during the update check is not in the list
    of changed or new URLs, has no entry in the new fingerprint map whatever
    the previous map held for it, is not written to the log of changed URLs,
    and every file that is saved is the page of another URL, one that was
    fetched. *)
Theorem C6_failed_fetch_skipped (all_links : gset string) (url : string) :
  fetch url = None ->
  (url ∉ updated_or_new_urls
           (check_updates fetch sha256_hexdigest all_links previous_hashes
                          base_dir base_url))
  ∧ current_hashes
      (check_updates fetch sha256_hexdigest all_links previous_hashes
                     base_dir base_url) !! url = None
  ∧ (url ∉ log_file
             (check_updates fetch sha256_hexdigest all_links previous_hashes
                            base_dir base_url))
  ∧ ∀ file,
      file ∈ saved_files
               (check_updates fetch sha256_hexdigest all_links previous_hashes
                              base_dir base_url) ->
      ∃ u content,
        u ≠ url ∧ u ∈ all_links ∧ fetch u = Some content
        ∧ file = (local_path u base_dir base_url, content).
Proof.
  intros Hfail. unfold check_updates.
  destruct (check_fold_updated (sorted_urls all_links) check_init) as [-> ->].
  rewrite check_fold_hashes, check_fold_saved. simpl.
  assert (Hh : hashed' url = None) by (unfold hashed; by rewrite Hfail).
  assert (Hnot : url ∉ List.filter changed' (sorted_urls all_links)).
  { rewrite list_elem_of_In, List.filter_In.
    unfold changed_or_new. rewrite Hh. intros [_ ?]. done. }
  split; [exact Hnot|].
  split; [rewrite Hh; by destruct (bool_decide _)|].
  split; [exact Hnot|].
  intros file Hfile.
  apply list_elem_of_In, in_flat_map in Hfile as (u & Hu & Hfile).
  apply List.filter_In in Hu as [Hu Hchanged].
  apply list_elem_of_In, sorted_urls_elem in Hu.
  unfold saved_for, save_html_file in Hfile.
  destruct (fetch u) as [content|] eqn:Hfetch; [|done].
  exists u, content. split; [congruence|]. split; [done|]. split; [done|].
  destruct (negb (truthy content)); [done|].
  simpl in Hfile. by destruct Hfile as [<-|[]].
Qed.

End UpdateCheckProps.

(** A run of C5: of three pages, one is unchanged, one is new and one is not
    fetched. *)
Lemma C5_change_classification_witness :
  updated_or_new_urls
    (check_updates demo_fetch demo_digest demo_links demo_previous
                   "source_html" "https://d/") = ["https://d/b"]
  ∧ ("https://d/a" ∈ updated_or_new_urls
        (check_updates demo_fetch demo_digest demo_links demo_previous
                       "source_html" "https://d/")
     ↔ demo_previous !! "https://d/a" ≠ Some (demo_digest "A")).
Proof.
  destruct (C5_change_classification demo_fetch demo_digest demo_previous
              "source_html" "https://d/" demo_links) as (_ & _ & H3 & H4).
  - intros content. discriminate.
  - split.
    + rewrite H3. by vm_compute.
    + apply H4; [|reflexivity]. unfold demo_links. set_solver.
Defined.

(** A run of C6: the page that is not fetched loses its entry and is
    neither listed nor logged. *)
Lemma C6_failed_fetch_skipped_witness :
  demo_previous !! "https://d/c" = Some "#C"
  ∧ ("https://d/c" ∉ updated_or_new_urls
        (check_updates demo_fetch demo_digest demo_links demo_previous
                       "source_html" "https://d/"))
  ∧ current_hashes
      (check_updates demo_fetch demo_digest demo_links demo_previous
                     "source_html" "https://d/") !! "https://d/c" = None
  ∧ ("https://d/c" ∉ log_file
        (check_updates demo_fetch demo_digest demo_links demo_previous
                       "source_html" "https://d/")).
Proof.
  destruct (C6_failed_fetch_skipped demo_fetch demo_digest demo_previous
              "source_html" "https://d/" demo_links "https://d/c" eq_refl)
    as (H1 & H2 & H3 & _).
  split; [reflexivity|]. split; [exact H1|]. split; [exact H2|exact H3].
Defined.

(** A decidable proposition settled by evaluating its decision procedure. *)
Ltac by_compute := apply (bool_decide_unpack _); vm_compute; exact I.

(** ** The discovery loop *)

Section DiscoveryProps.

Variable page_links : string -> option (list string).
Variable base_url : string.

Local Abbreviation links := (fun u => discover_links page_links u base_url).
Local Abbreviation body := (crawl_body page_links base_url).
Local Abbreviation step := (crawl_step page_links base_url).
Local Abbreviation run := (crawl_run page_links base_url).
Local Abbreviation inv := (crawl_inv page_links base_url).
Local Abbreviation reach := (reachable page_links base_url).

Lemma crawl_body_skip (st : crawl_state) (u : string) :
  u ∈ crawled st ->
  body st u = {| all_links := all_links st; to_crawl := to_crawl st ∖ {[ u ]};
                 crawled := crawled st; fetched := fetched st |}.
Proof. intros H. unfold crawl_body. by rewrite bool_decide_eq_true_2. Qed.

Lemma crawl_body_visit (st : crawl_state) (u : string) :
  u ∉ crawled st ->
  body st u = {| all_links := all_links st ∪ links u;
                 to_crawl := (to_crawl st ∖ {[ u ]}) ∪ (links u ∖ crawled st);
                 crawled := crawled st ∪ {[ u ]};
                 fetched := fetched st ++ [u] |}.
Proof. intros H. unfold crawl_body. by rewrite bool_decide_eq_false_2. Qed.

Lemma crawl_inv_init : inv (crawl_init base_url).
Proof.
  split; simpl.
  - done.
  - constructor.
  - intros u Hu. assert (u = base_url) by set_solver. subst u. constructor.
  - set_solver.
  - set_solver.
Qed.

Lemma crawl_inv_step (st st' : crawl_state) : inv st -> step st st' -> inv st'.
Proof.
  intros [Hf Hnd Hr Hb Hc] Hstep.
  inversion Hstep as [st0 u Hu Hst0 Hst']. subst st0. clear Hstep Hst'.
  destruct (decide (u ∈ crawled st)) as [Hin|Hnin].
  - rewrite (crawl_body_skip _ _ Hin). split; simpl.
    + done.
    + done.
    + intros v Hv. apply Hr. set_solver.
    + destruct (decide (base_url = u)) as [->|]; set_solver.
    + intros v w Hv Hw. specialize (Hc v w Hv Hw).
      destruct (decide (w = u)) as [->|]; set_solver.
  - rewrite (crawl_body_visit _ _ Hnin). split; simpl.
    + rewrite list_to_set_app_L, Hf. set_solver.
    + apply NoDup_app. split; [done|]. split; [|apply NoDup_singleton].
      intros v Hv ->%list_elem_of_singleton. apply Hnin. rewrite Hf.
      by apply elem_of_list_to_set.
    + intros v Hv.
      destruct (decide (v ∈ links u)) as [Hl|Hl].
      * apply (reachable_link _ _ u); [apply Hr; set_solver|done].
      * apply Hr. set_solver.
    + destruct (decide (base_url = u)) as [->|]; set_solver.
    + intros v w Hv Hw.
      destruct (decide (w ∈ crawled st)) as [?|Hw']; [set_solver|].
      destruct (decide (w = u)) as [->|Hne]; [set_solver|].
      apply elem_of_union in Hv as [Hv|Hv].
      * specialize (Hc v w Hv Hw). set_solver.
      * assert (v = u) as -> by set_solver. set_solver.
Qed.

Lemma crawl_inv_preserved (st0 st : crawl_state) : inv st0 -> run st0 st -> inv st.
Proof.
  intros H0. induction 1 as [|st1 st2 st3 _ IH Hstep]; [done|].
  apply (crawl_inv_step st2); [by apply IH|done].
Qed.

Lemma crawl_inv_run (st : crawl_state) : run (crawl_init base_url) st -> inv st.
Proof. apply crawl_inv_preserved, crawl_inv_init. Qed.

Lemma crawl_run_front (st1 st2 st3 : crawl_state) :
  step st1 st2 -> run st2 st3 -> run st1 st3.
Proof.
  intros Hstep. induction 1 as [|sa sb sc _ IH Hs].
  - apply (crawl_run_step _ _ _ st1); [constructor|done].
  - apply (crawl_run_step _ _ _ sb); [by apply IH|done].
Qed.

(** The loop with its popped elements given in advance is a run. *)
Lemma crawl_with_run (pops : list string) (st : crawl_state) :
  run st (crawl_with page_links base_url pops st).
Proof.
  revert st. induction pops as [|u pops IH]; intros st; [constructor|].
  simpl. destruct (bool_decide (u ∈ to_crawl st)) eqn:Hu; [|constructor].
  apply bool_decide_eq_true_1 in Hu.
  apply (crawl_run_front _ (body st u)); [by constructor|apply IH].
Qed.

(** When the worklist is empty the visited set is closed under links and
    holds the base URL: it holds every reachable URL. *)
Lemma crawl_inv_complete (st : crawl_state) (u : string) :
  inv st -> to_crawl st = ∅ -> reach u -> u ∈ crawled st.
Proof.
  intros [_ _ _ Hb Hc] Hempty. rewrite Hempty in *.
  induction 1 as [|v w _ IH Hl]; [set_solver|].
  specialize (Hc v w IH Hl). set_solver.
Qed.

(** A URL of the visited set is not put on the worklist. *)
Lemma crawl_step_no_readd (st st' : crawl_state) (u : string) :
  step st st' -> u ∈ crawled st -> u ∈ to_crawl st' -> u ∈ to_crawl st.
Proof.
  intros Hstep Hu.
  inversion Hstep as [st0 v Hv Hst0 Hst']. subst st0. clear Hstep Hst'.
  destruct (decide (v ∈ crawled st)) as [Hin|Hnin].
  - rewrite (crawl_body_skip _ _ Hin). simpl. set_solver.
  - rewrite (crawl_body_visit _ _ Hnin). simpl. set_solver.
Qed.

Lemma crawl_step_crawled (st st' : crawl_state) :
  step st st' -> crawled st ⊆ crawled st'.
Proof.
  intros Hstep.
  inversion Hstep as [st0 v Hv Hst0 Hst']. subst st0. clear Hstep Hst'.
  destruct (decide (v ∈ crawled st)) as [Hin|Hnin].
  - by rewrite (crawl_body_skip _ _ Hin).
  - rewrite (crawl_body_visit _ _ Hnin). simpl. set_solver.
Qed.

Section Finite.

(** The site is finite: a finite set holds the base URL and the links of
    each of its pages. *)
Variable R : gset string.
Hypothesis R_base : base_url ∈ R.
Hypothesis R_closed : ∀ u, u ∈ R -> links u ⊆ R.

Lemma reachable_in_R (u : string) : reach u -> u ∈ R.
Proof.
  induction 1 as [|v w _ IH Hl]; [done|].
  by apply (R_closed v).
Qed.

Lemma crawl_measure_step (st st' : crawl_state) :
  inv st -> step st st' -> (crawl_measure R st' < crawl_measure R st)%nat.
Proof.
  intros Hinv Hstep.
  inversion Hstep as [st0 u Hu Hst0 Hst']. subst st0. clear Hstep Hst'.
  unfold crawl_measure.
  assert (HuR : u ∈ R) by (apply reachable_in_R, (inv_reach _ _ _ Hinv); set_solver).
  destruct (decide (u ∈ crawled st)) as [Hin|Hnin].
  - rewrite (crawl_body_skip _ _ Hin). simpl.
    assert (Hsub : ({[u]} : gset string) ⊆ to_crawl st) by set_solver.
    rewrite (size_difference _ _ Hsub), size_singleton.
    assert (size (to_crawl st) ≠ 0).
    { intros H0. apply size_empty_inv in H0. set_solver. }
    lia.
  - rewrite (crawl_body_visit _ _ Hnin). simpl.
    assert (Hle : (size (to_crawl st ∖ {[u]} ∪ links u ∖ crawled st) <= size R)%nat).
    { apply subseteq_size. intros v Hv.
      apply elem_of_union in Hv as [Hv|Hv].
      - apply reachable_in_R, (inv_reach _ _ _ Hinv). set_solver.
      - apply (R_closed u HuR). set_solver. }
    replace (R ∖ (crawled st ∪ {[u]})) with ((R ∖ crawled st) ∖ {[u]})
      by set_solver.
    assert (Hsub : ({[u]} : gset string) ⊆ R ∖ crawled st) by set_solver.
    rewrite (size_difference _ _ Hsub), size_singleton.
    assert (size (R ∖ crawled st) ≠ 0).
    { intros H0. apply size_empty_inv in H0. set_solver. }
    destruct (size (R ∖ crawled st)) as [|n]; [done|].
    simpl. rewrite Nat.sub_0_r. lia.
Qed.

Lemma crawl_next_acc (n : nat) (st : crawl_state) :
  (crawl_measure R st < n)%nat ->
  run (crawl_init base_url) st ->
  Acc (crawl_next page_links base_url) st.
Proof.
  revert st. induction n as [|n IH]; intros st Hlt Hrun; [lia|].
  constructor. intros st' [_ Hstep].
  apply IH.
  - pose proof (crawl_measure_step st st' (crawl_inv_run _ Hrun) Hstep). lia.
  - by apply (crawl_run_step _ _ _ st).
Qed.

(** Every run of the loop ends. *)
Lemma crawl_terminates : well_founded (crawl_next page_links base_url).
Proof.
  intros st. constructor. intros st' [Hrun Hstep].
  apply (crawl_next_acc (S (crawl_measure R st'))); [lia|].
  by apply (crawl_run_step _ _ _ st).
Qed.

(** Some run of the loop ends, and then the worklist is empty. *)
Lemma crawl_reaches_end (st : crawl_state) :
  run (crawl_init base_url) st ->
  ∃ final, run st final ∧ to_crawl final = ∅.
Proof.
  induction (crawl_terminates st) as [st _ IH]. intros Hrun.
  destruct (decide (to_crawl st = ∅)) as [Hempty|Hne].
  { exists st. split; [constructor|done]. }
  apply set_choose_L in Hne as [u Hu].
  assert (Hstep : step st (body st u)) by (by constructor).
  destruct (IH (body st u)) as (final & Hfinal & Hempty).
  { by split. }
  { by apply (crawl_run_step _ _ _ st). }
  exists final. split; [|done].
  by apply (crawl_run_front _ (body st u)).
Qed.

(** C8, as amended.  On a finite site every run of the discovery loop ends,
    and it ends with an empty worklist; in every state of a run no URL was
    fetched twice, the visited set is the set of fetched URLs, and only
    reachable URLs were fetched; when the worklist is empty every reachable
    URL was fetched; a turn keeps the visited set and puts no URL of the
    visited set on the worklist.  A page that links to itself is put back
    on the worklist by the turn that visits it, and a turn that pops a
    visited URL only takes it off the worklist. *)
Theorem C8_crawl_visits_once :
  well_founded (crawl_next page_links base_url)
  ∧ (∃ final,
       crawl_run page_links base_url (crawl_init base_url) final
       ∧ to_crawl final = ∅)
  ∧ ∀ st,
      crawl_run page_links base_url (crawl_init base_url) st ->
      NoDup (fetched st)
      ∧ crawled st = list_to_set (fetched st)
      ∧ (∀ u, u ∈ fetched st -> reachable page_links base_url u)
      ∧ (to_crawl st = ∅ ->
         ∀ u, reachable page_links base_url u -> u ∈ fetched st)
      ∧ (∀ st' u,
           crawl_step page_links base_url st st' ->
           u ∈ crawled st ->
           u ∈ crawled st' ∧ (u ∈ to_crawl st' -> u ∈ to_crawl st))
      ∧ (∀ u,
           u ∉ crawled st ->
           u ∈ discover_links page_links u base_url ->
           u ∈ to_crawl (crawl_body page_links base_url st u)
           ∧ u ∈ crawled (crawl_body page_links base_url st u))
      ∧ (∀ u,
           u ∈ crawled st ->
           crawl_body page_links base_url st u
           = {| all_links := all_links st; to_crawl := to_crawl st ∖ {[ u ]};
                crawled := crawled st; fetched := fetched st |}).
Proof.
  split; [apply crawl_terminates|].
  split.
  { destruct (crawl_reaches_end (crawl_init base_url)) as (final & ? & ?);
      [constructor|by exists final]. }
  intros st Hrun.
  pose proof (crawl_inv_run st Hrun) as Hinv.
  destruct Hinv as [Hf Hnd Hr Hb Hc].
  split; [done|]. split; [done|].
  split.
  { intros u Hu. apply Hr. rewrite Hf.
    apply elem_of_union_r. by apply elem_of_list_to_set. }
  split.
  { intros Hempty u Hu.
    pose proof (crawl_inv_complete st u (crawl_inv_run st Hrun) Hempty Hu) as H.
    rewrite Hf in H. by apply elem_of_list_to_set in H. }
  split.
  { intros st' u Hstep Hu. split.
    - by apply (crawl_step_crawled st st' Hstep).
    - by apply (crawl_step_no_readd st st'). }
  split.
  { intros u Hu Hself. rewrite (crawl_body_visit st u Hu). simpl. set_solver. }
  intros u Hu. by apply crawl_body_skip.
Qed.

End Finite.

End DiscoveryProps.

(** A run of C8 on a site of three pages: the base page links to itself, to
    a second page and to another site; the second page links back and to a
    third page, whose request fails. *)
Lemma C8_crawl_visits_once_witness :
  to_crawl (crawl_with demo_site demo_base
              ["https://d/"; "https://d/a"; "https://d/"; "https://d/b"]
              (crawl_init demo_base)) = ∅
  ∧ fetched (crawl_with demo_site demo_base
               ["https://d/"; "https://d/a"; "https://d/"; "https://d/b"]
               (crawl_init demo_base))
    = ["https://d/"; "https://d/a"; "https://d/b"]
  ∧ NoDup (fetched (crawl_with demo_site demo_base
             ["https://d/"; "https://d/a"; "https://d/"; "https://d/b"]
             (crawl_init demo_base))).
Proof.
  assert (Hclosed : ∀ u, u ∈ demo_pages ->
            discover_links demo_site u demo_base ⊆ demo_pages).
  { assert (Hall : set_Forall
              (fun u => discover_links demo_site u demo_base ⊆ demo_pages)
              demo_pages)
      by by_compute.
    exact Hall. }
  assert (Hbase : demo_base ∈ demo_pages).
  { by_compute. }
  destruct (C8_crawl_visits_once demo_site demo_base demo_pages Hbase Hclosed)
    as (_ & _ & H).
  destruct (H _ (crawl_with_run demo_site demo_base
                   ["https://d/"; "https://d/a"; "https://d/"; "https://d/b"]
                   (crawl_init demo_base))) as (Hnd & _).
  split; [by vm_compute|]. split; [by vm_compute|exact Hnd].
Defined.

(** C8 as stated fails: a page that links to itself is put back on the
    worklist by the very turn that visits it.  After the first turn on the
    sample site the base URL has been fetched and is in the visited set, and
    it is on the worklist again, which the pop had emptied. *)
Lemma C8_readded_counterexample :
  crawl_step demo_site demo_base (crawl_init demo_base)
             (crawl_body demo_site demo_base (crawl_init demo_base) demo_base)
  ∧ to_crawl (crawl_init demo_base) ∖ {[ demo_base ]} = ∅
  ∧ fetched (crawl_body demo_site demo_base (crawl_init demo_base) demo_base)
    = [demo_base]
  ∧ demo_base ∈ crawled (crawl_body demo_site demo_base (crawl_init demo_base)
                                    demo_base)
  ∧ demo_base ∈ to_crawl (crawl_body demo_site demo_base (crawl_init demo_base)
                                     demo_base).
Proof.
  split; [constructor; by_compute|].
  repeat split; try (by vm_compute); by_compute.
Qed.

(** ** The strings of a document *)

Lemma node_ind_nested (P : node -> Prop) :
  (∀ s, P (Text s)) ->
  (∀ name cs, Forall P cs -> P (Tag name cs)) ->
  ∀ n, P n.
Proof.
  intros Htext Htag.
  fix IH 1. intros [s|name cs]; [apply Htext|].
  apply Htag. induction cs as [|c cs IHcs]; constructor; [apply IH|apply IHcs].
Qed.

Lemma find_all_strings_root (doc : soup) :
  find_all_strings doc = node_strings (Tag DOCUMENT doc).
Proof. reflexivity. Qed.

Lemma text_at_root (path : list nat) (doc : soup) :
  text_at path doc = text_in path (Tag DOCUMENT doc).
Proof. by destruct path. Qed.

(** The strings below a list of children are those of each child, under
    the index of the child. *)
Lemma children_strings_spec (f : node -> list text_node) (cs : list node)
    (i : nat) (t : text_node) :
  t ∈ children_strings f i cs
  ↔ ∃ j c t1, cs !! j = Some c ∧ t1 ∈ f c ∧ t = under_index (i + j) t1.
Proof.
  revert i. induction cs as [|c cs IH]; intros i; simpl.
  - split; [by intros ?%elem_of_nil|]. by intros (j & c & t1 & ? & _).
  - rewrite elem_of_app, IH. split.
    + intros [H|(j & c' & t1 & Hj & Hin & ->)].
      * apply list_elem_of_In, in_map_iff in H as (t1 & <- & Hin).
        exists 0, c, t1. rewrite Nat.add_0_r.
        split; [done|]. split; [by apply list_elem_of_In|done].
      * exists (S j), c', t1. split; [done|]. split; [done|].
        f_equal. lia.
    + intros ([|j] & c' & t1 & Hj & Hin & ->).
      * injection Hj as <-. left. rewrite Nat.add_0_r.
        apply list_elem_of_In, in_map. by apply list_elem_of_In.
      * right. exists j, c', t1. split; [done|]. split; [done|].
        f_equal. lia.
Qed.

(** The walk yields exactly the strings of the tree, each with its path,
    its text and the names of the tags around it. *)
Lemma node_strings_spec (n : node) (t : text_node) :
  t ∈ node_strings n
  ↔ text_in (tn_path t) n = Some (tn_text t)
    ∧ parents_in (tn_path t) n = Some (tn_parents t).
Proof.
  revert t. induction n as [s|name cs IH] using node_ind_nested; intros t.
  - simpl. rewrite list_elem_of_singleton.
    destruct t as [[|i p] s' l]; simpl; [|naive_solver].
    split; [by intros [= <- <-]|]. by intros [[= <-] [= <-]].
  - cbn [node_strings].
    rewrite list_elem_of_In, in_map_iff. split.
    + intros (t0 & <- & Hin).
      apply list_elem_of_In, children_strings_spec in Hin
        as (j & c & t1 & Hj & Hin & ->).
      rewrite Forall_forall in IH.
      apply (IH c) in Hin as [Htext Hpar]; [|by apply list_elem_of_lookup_2 in Hj].
      simpl. by rewrite Hj, Htext, Hpar.
    + destruct t as [[|j p] s l]; simpl; [by intros [? _]|].
      destruct (cs !! j) as [c|] eqn:Hj; [|by intros [? _]].
      destruct (parents_in p c) as [names|] eqn:Hpar; [|by intros [_ ?]].
      intros [Htext [= <-]].
      exists (under_index j {| tn_path := p; tn_text := s; tn_parents := names |}).
      split; [done|].
      apply list_elem_of_In, children_strings_spec.
      exists j, c, {| tn_path := p; tn_text := s; tn_parents := names |}.
      split; [done|]. split; [|done].
      rewrite Forall_forall in IH. apply IH; [|done].
      by apply list_elem_of_lookup_2 in Hj.
Qed.

(** ** Document order *)

Lemma StronglySorted_map {A B} (f : A -> B) (R1 : relation A) (R2 : relation B)
    (l : list A) :
  (∀ x y, R1 x y -> R2 (f x) (f y)) ->
  StronglySorted R1 l -> StronglySorted R2 (map f l).
Proof.
  intros Hf. induction 1 as [|x l _ IH Hall]; simpl; constructor; [done|].
  apply Forall_forall. intros y Hy.
  apply list_elem_of_In, in_map_iff in Hy as (z & <- & Hz).
  apply Hf. eapply Forall_forall in Hall; [exact Hall|].
  by apply list_elem_of_In.
Qed.

Lemma StronglySorted_filter {A} (f : A -> bool) (R : relation A) (l : list A) :
  StronglySorted R l -> StronglySorted R (List.filter f l).
Proof.
  induction 1 as [|x l _ IH Hall]; simpl; [constructor|].
  destruct (f x); [|done]. constructor; [done|].
  apply Forall_forall. intros y Hy.
  apply list_elem_of_In, filter_In in Hy as [Hy _].
  eapply Forall_forall in Hall; [exact Hall|].
  by apply list_elem_of_In.
Qed.

Lemma children_strings_sorted (f : node -> list text_node) (cs : list node)
    (i : nat) :
  Forall (fun c => StronglySorted before (f c)) cs ->
  StronglySorted before (children_strings f i cs).
Proof.
  intros H. revert i. induction H as [|c cs Hc _ IH]; intros i; simpl.
  - constructor.
  - apply StronglySorted_app_2.
    + intros t1 t2 H1 H2.
      apply list_elem_of_In, in_map_iff in H1 as (t0 & <- & _).
      apply children_strings_spec in H2 as (j & c' & t3 & _ & _ & ->).
      unfold before. cbn [tn_path under_index path_ltb].
      assert (Hlt : (i <? S i + j)%nat = true) by (apply Nat.ltb_lt; lia).
      by rewrite Hlt.
    + apply (StronglySorted_map _ before); [|done].
      intros x y Hxy. unfold before in *. cbn [tn_path under_index path_ltb].
      by rewrite Nat.ltb_irrefl, Nat.eqb_refl, Hxy.
    + apply IH.
Qed.

Lemma node_strings_sorted (n : node) : StronglySorted before (node_strings n).
Proof.
  induction n as [s|name cs IH] using node_ind_nested; simpl.
  - repeat constructor.
  - apply (StronglySorted_map _ before); [done|].
    by apply children_strings_sorted.
Qed.

Lemma truthy_nonempty (s : string) : truthy s = true ↔ s ≠ "".
Proof. by destruct s. Qed.

Lemma is_translatable_qualifies (t : text_node) :
  is_translatable t = true ↔ qualifies (tn_text t) (tn_parents t).
Proof.
  unfold is_translatable, qualifies, mem.
  rewrite !andb_true_iff, forallb_forall, truthy_nonempty.
  assert (Hx : (∀ p, In p (tn_parents t) ->
                 negb (bool_decide (p ∈ EXCLUDED_TAGS)) = true)
               ↔ ∀ p, p ∈ tn_parents t -> p ∉ EXCLUDED_TAGS).
  { split; intros Hall p Hp.
    - apply list_elem_of_In, Hall, negb_true_iff in Hp.
      by rewrite bool_decide_eq_false in Hp.
    - apply negb_true_iff. rewrite bool_decide_eq_false.
      by apply Hall, list_elem_of_In. }
  rewrite Hx. clear Hx.
  destruct (tn_parents t) as [|parent rest].
  - split; [by intros [[? _] _]|]. by intros [(? & ? & ? & _) _].
  - rewrite bool_decide_eq_true. split.
    + intros [[Hp Hall] Hs]. split; [|done]. by exists parent, rest.
    + intros [(p' & r' & [= <- <-] & Hp) [Hall Hs]]. done.
Qed.

Lemma translatable_nodes_spec (doc : soup) (t : text_node) :
  t ∈ translatable_nodes doc
  ↔ text_at (tn_path t) doc = Some (tn_text t)
    ∧ parents_at (tn_path t) doc = Some (tn_parents t)
    ∧ qualifies (tn_text t) (tn_parents t).
Proof.
  unfold translatable_nodes.
  rewrite list_elem_of_In, filter_In, <- list_elem_of_In.
  rewrite find_all_strings_root, node_strings_spec, <- text_at_root.
  rewrite is_translatable_qualifies. unfold parents_at. tauto.
Qed.

Lemma translatable_nodes_sorted (doc : soup) :
  StronglySorted before (translatable_nodes doc).
Proof.
  apply StronglySorted_filter. rewrite find_all_strings_root.
  apply node_strings_sorted.
Qed.


(** On the sample page only the first string of the paragraph and the list
    item are selected: the others are blank, inside [code] or [pre], or
    directly below [body]. *)
Example translatable_nodes_demo :
  map tn_text (find_all_strings demo_doc)
    = ["Call "; "gpio_init"; "  "; "raw text"; "Learn about FreeRTOS here."; "loose"]
  ∧ translatable_nodes demo_doc
    = [ {| tn_path := [0; 0; 0; 0]; tn_text := "Call ";
           tn_parents := ["p"; "body"; "html"; DOCUMENT] |};
        {| tn_path := [0; 0; 2; 0; 0]; tn_text := "Learn about FreeRTOS here.";
           tn_parents := ["li"; "ul"; "body"; "html"; DOCUMENT] |} ].
Proof. split; reflexivity. Qed.

(** ** The retry loop *)

Ltac run_monad :=
  unfold bind, try_except, gets, modify, ret, raise, logging, sleep; simpl.

Ltac unfold_world :=
  unfold set_char_count, set_api_calls, set_sleeps, set_log, set_files_read,
    set_outputs, set_processed_files, set_state_file in *; simpl in *.

Lemma after_failures_zero (attempt : nat) (w : world) :
  after_failures attempt 0 w = w.
Proof.
  destruct w. unfold after_failures, backoff. unfold_world.
  by rewrite !app_nil_r, Nat.add_0_r.
Qed.

Lemma after_failures_succ (attempt count : nat) (w : world) :
  after_failures (S attempt) count
    (set_sleeps (fun l => l ++ [5 * (N.of_nat attempt + 1)])%N
       (set_log (fun l => l ++ [LogRetry]) (set_api_calls S w)))
  = after_failures attempt (S count) w.
Proof.
  destruct w. unfold after_failures, backoff. unfold_world.
  rewrite <- !app_assoc. simpl. f_equal. lia.
Qed.

(** Attempts that all meet a transient error use up the loop: one call, one
    log entry and one sleep each, the sleeps growing by five seconds. *)
Lemma attempts_transient (client : nat -> list string -> api_reply)
    (protected_texts : list string) (placeholders_list : list odict)
    (total : N) (remaining attempt : nat) (w : world) :
  (∀ k, (k < remaining)%nat ->
        client (api_calls w + k) protected_texts = ApiRaises GoogleAPICallError) ->
  attempts client protected_texts placeholders_list total remaining attempt w
  = (Ok None, after_failures attempt remaining w).
Proof.
  revert attempt w. induction remaining as [|r IH]; intros attempt w Hdown.
  - simpl. unfold ret. by rewrite after_failures_zero.
  - cbn [attempts]. run_monad.
    pose proof (Hdown 0 ltac:(lia)) as H0. rewrite Nat.add_0_r in H0.
    rewrite H0. run_monad.
    rewrite IH.
    + by rewrite after_failures_succ.
    + intros k Hk. simpl. rewrite <- (Hdown (S k)) by lia.
      f_equal. destruct w. unfold_world. lia.
Qed.

(** Whatever the client does, the loop calls it at most as often as it has
    attempts left. *)
Lemma attempts_calls (client : nat -> list string -> api_reply)
    (protected_texts : list string) (placeholders_list : list odict)
    (total : N) (remaining attempt : nat) (w : world) :
  (api_calls w
   <= api_calls (attempts client protected_texts placeholders_list total
                          remaining attempt w).2
   <= api_calls w + remaining)%nat.
Proof.
  revert attempt w. induction remaining as [|r IH]; intros attempt w.
  - simpl. lia.
  - cbn [attempts]. run_monad.
    destruct (client (api_calls w) protected_texts) as [results|[]]; run_monad.
    + destruct (restore_results results placeholders_list); destruct w; unfold_world; lia.
    + match goal with |- context [attempts _ _ _ _ r ?a ?w'] =>
        specialize (IH a w') end.
      destruct w. unfold_world. lia.
    + destruct w; unfold_world; lia.
    + destruct w; unfold_world; lia.
    + destruct w; unfold_world; lia.
Qed.

Lemma translate_batch_calls (client : nat -> list string -> api_reply)
    (texts : list string) (terminology : odict) (w : world) :
  (api_calls (translate_batch_with_retry client texts terminology w).2
   <= api_calls w + max_retries)%nat.
Proof.
  destruct texts as [|first_text rest]; [simpl; lia|].
  unfold translate_batch_with_retry, bind.
  match goal with |- context [attempts ?c ?p ?l ?t ?r ?a w] =>
    pose proof (attempts_calls c p l t r a w) as Hcalls;
    destruct (attempts c p l t r a w) as [[[done|]|e] w'] end;
    run_monad; simpl in Hcalls; lia.
Qed.

(** ** The functions that talk to the provider *)

Lemma same_files_refl (w : world) : same_files w w.
Proof. by repeat split. Qed.

Lemma same_files_trans (w1 w2 w3 : world) :
  same_files w1 w2 -> same_files w2 w3 -> same_files w1 w3.
Proof. unfold same_files. intros (-> & -> & -> & ->) (-> & -> & -> & ->). done. Qed.

Lemma attempts_same_files (client : nat -> list string -> api_reply)
    (protected_texts : list string) (placeholders_list : list odict)
    (total : N) (remaining attempt : nat) (w : world) :
  same_files w (attempts client protected_texts placeholders_list total
                         remaining attempt w).2.
Proof.
  revert attempt w. induction remaining as [|r IH]; intros attempt w.
  - apply same_files_refl.
  - cbn [attempts]. run_monad.
    destruct (client (api_calls w) protected_texts) as [results|[]]; run_monad;
      try (by destruct w).
    + destruct (restore_results results placeholders_list); by destruct w.
    + eapply same_files_trans; [|apply IH]. by destruct w.
Qed.

Lemma translate_batch_same_files (client : nat -> list string -> api_reply)
    (texts : list string) (terminology : odict) (w : world) :
  same_files w (translate_batch_with_retry client texts terminology w).2.
Proof.
  destruct texts as [|first_text rest]; [apply same_files_refl|].
  unfold translate_batch_with_retry, bind.
  match goal with |- context [attempts ?c ?p ?l ?t ?r ?a w] =>
    pose proof (attempts_same_files c p l t r a w) as Hsame;
    destruct (attempts c p l t r a w) as [[[done|]|e] w'] end;
    run_monad; done.
Qed.

Lemma translate_batches_same_files (client : nat -> list string -> api_reply)
    (terminology : odict) (todo : list (list text_node)) (doc : soup)
    (total : N) (w : world) :
  same_files w (translate_batches client terminology todo doc total w).2.
Proof.
  revert doc total w. induction todo as [|batch todo IH]; intros doc total w.
  - apply same_files_refl.
  - cbn [translate_batches]. run_monad.
    destruct (CHAR_LIMIT_PER_MONTH <=? char_count w)%N; [apply same_files_refl|].
    pose proof (translate_batch_same_files client (map tn_text batch)
                  terminology w) as Hsame.
    destruct (translate_batch_with_retry client (map tn_text batch) terminology w)
      as [[[translated n]|e] w1]; simpl in *; [|done].
    destruct (replace_batch batch translated doc) as [doc'|e]; run_monad.
    + eapply same_files_trans; [|apply IH].
      eapply same_files_trans; [exact Hsame|]. by destruct w1.
    + eapply same_files_trans; [exact Hsame|]. by destruct w1.
Qed.

Lemma translate_soup_same_files (client : nat -> list string -> api_reply)
    (doc : soup) (terminology : odict) (w : world) :
  same_files w (translate_soup_content client doc terminology w).2.
Proof.
  unfold translate_soup_content, try_except, bind.
  pose proof (translate_batches_same_files client terminology
                (batches (translatable_nodes doc)) doc 0%N w) as Hsame.
  destruct (translate_batches client terminology _ doc 0%N w) as [[r|e] w1];
    run_monad; [done|].
  eapply same_files_trans; [exact Hsame|]. by destruct w1.
Qed.

(** [translate_soup_content] catches every exception. *)
Lemma translate_soup_returns (client : nat -> list string -> api_reply)
    (doc : soup) (terminology : odict) (w : world) :
  ∃ r, (translate_soup_content client doc terminology w).1 = Ok r.
Proof.
  unfold translate_soup_content, try_except, bind.
  destruct (translate_batches client terminology _ doc 0%N w) as [[r|e] w1];
    run_monad; eauto.
Qed.

(** The retry loop does not touch the character counter of the run. *)
Lemma attempts_char_count (client : nat -> list string -> api_reply)
    (protected_texts : list string) (placeholders_list : list odict)
    (total : N) (remaining attempt : nat) (w : world) :
  char_count (attempts client protected_texts placeholders_list total
                       remaining attempt w).2 = char_count w.
Proof.
  revert attempt w. induction remaining as [|r IH]; intros attempt w; [done|].
  cbn [attempts]. run_monad.
  destruct (client (api_calls w) protected_texts) as [results|[]]; run_monad;
    try (by destruct w).
  - destruct (restore_results results placeholders_list); by destruct w.
  - rewrite IH. by destruct w.
Qed.

Lemma translate_batch_char_count (client : nat -> list string -> api_reply)
    (texts : list string) (terminology : odict) (w : world) :
  char_count (translate_batch_with_retry client texts terminology w).2
  = char_count w.
Proof.
  destruct texts as [|first_text rest]; [done|].
  unfold translate_batch_with_retry, bind.
  match goal with |- context [attempts ?c ?p ?l ?t ?r ?a w] =>
    pose proof (attempts_char_count c p l t r a w) as Hcount;
    destruct (attempts c p l t r a w) as [[[done|]|e] w'] end;
    run_monad; done.
Qed.

(** Transient errors on the first [k] attempts and a reply on the next:
    the reply is restored and returned, after [k] sleeps. *)
Lemma attempts_then_reply (client : nat -> list string -> api_reply)
    (protected_texts : list string) (placeholders_list : list odict)
    (total : N) (results final : list string) (k remaining attempt : nat)
    (w : world) :
  (k < remaining)%nat ->
  (∀ j, (j < k)%nat ->
        client (api_calls w + j) protected_texts = ApiRaises GoogleAPICallError) ->
  client (api_calls w + k) protected_texts = Translated results ->
  restore_results results placeholders_list = Ok final ->
  attempts client protected_texts placeholders_list total remaining attempt w
  = (Ok (Some (final, total)), set_api_calls S (after_failures attempt k w)).
Proof.
  revert remaining attempt w. induction k as [|k IH];
    intros remaining attempt w Hk Hdown Hreply Hrestore;
    (destruct remaining as [|r]; [lia|]); cbn [attempts]; run_monad.
  - rewrite Nat.add_0_r in Hreply. rewrite Hreply, Hrestore. run_monad.
    by rewrite after_failures_zero.
  - pose proof (Hdown 0 ltac:(lia)) as H0. rewrite Nat.add_0_r in H0.
    rewrite H0. run_monad.
    rewrite (IH r); [by rewrite after_failures_succ|lia| | |done].
    + intros j Hj. simpl. rewrite <- (Hdown (S j)) by lia.
      f_equal. destruct w. unfold_world. lia.
    + simpl. rewrite <- Hreply. f_equal. destruct w. unfold_world. lia.
Qed.

(** C4.  [translate_batch_with_retry] on a batch that is not empty:
    (a) when the first [k] attempts, fewer than three, meet a transient
        provider error and the next one gets a reply, the restored reply is
        returned with the character count of the protected texts, after
        [k + 1] calls and [k] sleeps of 5, 10, ... seconds;
    (b) when all three attempts meet a transient error, the function
        returns, with the original texts and a character count of zero,
        after three calls, sleeps of 5, 10 and 15 seconds and a log entry
        for the failure.
    In every case the character counter of the run, the set of processed
    files, the state file and the outputs are as before, and the provider
    was called at most three times.  (An empty batch returns at once, with
    no text and a count of zero.) *)
Theorem C4_retry_then_pass_through (client : nat -> list string -> api_reply)
    (texts : list string) (terminology : odict) (w : world) :
  let protected_texts := map (fun text => (protect text terminology).1) texts in
  let w' := (translate_batch_with_retry client texts terminology w).2 in
  (∀ k results final,
     texts ≠ [] ->
     (k < max_retries)%nat ->
     (∀ j, (j < k)%nat ->
           client (api_calls w + j) protected_texts = ApiRaises GoogleAPICallError) ->
     client (api_calls w + k) protected_texts = Translated results ->
     restore_results results (map (fun text => (protect text terminology).2) texts)
       = Ok final ->
     (translate_batch_with_retry client texts terminology w).1
       = Ok (final, sum_N (map len protected_texts))
     ∧ api_calls w' = api_calls w + S k
     ∧ sleeps w' = sleeps w ++ map (fun a => 5 * (N.of_nat a + 1))%N (seq 0 k))
  ∧ ((∀ k, (k < max_retries)%nat ->
           client (api_calls w + k) protected_texts = ApiRaises GoogleAPICallError) ->
     (translate_batch_with_retry client texts terminology w).1 = Ok (texts, 0%N)
     ∧ (texts ≠ [] ->
        api_calls w' = api_calls w + 3
        ∧ sleeps w' = sleeps w ++ [5 * 1; 5 * 2; 5 * 3]%N
        ∧ log w' = log w ++ [LogRetry; LogRetry; LogRetry;
                             LogBatchFailed
                               (str_take 100 (default "" (head texts)))]))
  ∧ char_count w' = char_count w
  ∧ processed_files w' = processed_files w
  ∧ state_file w' = state_file w
  ∧ outputs w' = outputs w
  ∧ (api_calls w' <= api_calls w + max_retries)%nat.
Proof.
  intros protected_texts w'. subst protected_texts.
  assert (Hsame : char_count w' = char_count w ∧ same_files w w').
  { subst w'. split; [apply translate_batch_char_count|].
    apply translate_batch_same_files. }
  destruct Hsame as (Hcount & _ & Hout & Hproc & Hstate).
  split; [|split].
  - intros k results final Hne Hk Hdown Hreply Hrestore.
    destruct texts as [|first_text rest]; [done|].
    subst w'. unfold translate_batch_with_retry, bind.
    rewrite (attempts_then_reply _ _ _ _ results final k); try done.
    + run_monad. split; [by rewrite !map_map|].
      destruct w. unfold after_failures, backoff. unfold_world.
      split; [lia|done].
    + intros j Hj. rewrite <- (Hdown j Hj). f_equal. by rewrite map_map.
    + rewrite <- Hreply. f_equal. by rewrite map_map.
    + rewrite <- Hrestore. f_equal. by rewrite map_map.
  - intros Hdown.
    destruct texts as [|first_text rest]; [done|].
    subst w'. unfold translate_batch_with_retry, bind.
    rewrite attempts_transient.
    2:{ intros k Hk. rewrite <- (Hdown k Hk). f_equal. by rewrite map_map. }
    run_monad. split; [done|]. intros _.
    destruct w. unfold after_failures, backoff, max_retries. unfold_world.
    rewrite <- !app_assoc. split; [lia|]. split; reflexivity.
  - repeat split; try done. apply translate_batch_calls.
Qed.

(** A run of C4: a batch of two texts against a provider that is down. *)
Lemma C4_retry_then_pass_through_witness :
  (translate_batch_with_retry client_down ["Hello"; "GPIO pins"]
     [("GPIO", "pin")] (start_world ∅)).1
  = Ok (["Hello"; "GPIO pins"], 0%N)
  ∧ sleeps (translate_batch_with_retry client_down ["Hello"; "GPIO pins"]
              [("GPIO", "pin")] (start_world ∅)).2 = [5; 10; 15]%N
  ∧ api_calls (translate_batch_with_retry client_down ["Hello"; "GPIO pins"]
                 [("GPIO", "pin")] (start_world ∅)).2 = 3.
Proof.
  destruct (C4_retry_then_pass_through client_down ["Hello"; "GPIO pins"]
              [("GPIO", "pin")] (start_world ∅)) as (_ & Hdown & _).
  destruct (Hdown (fun k _ => eq_refl)) as (H1 & H2).
  split; [exact H1|].
  destruct (H2 ltac:(discriminate)) as (Hcalls & Hsleeps & _).
  split; [exact Hsleeps|exact Hcalls].
Defined.

(** Two transient errors and then a reply: two sleeps, three calls, and the
    term of the dictionary restored in its translation. *)
Example retry_then_reply :
  translate_batch_with_retry client_flaky ["Hello"; "GPIO pins"]
    [("GPIO", "pin")] (start_world ∅)
  = (Ok (["Hello"; "pin pins"], 48%N),
     {| char_count := 0; api_calls := 3; sleeps := [5; 10]%N;
        log := [LogRetry; LogRetry]; files_read := []; outputs := [];
        processed_files := ∅; state_file := ∅ |}).
Proof. by vm_compute. Qed.

(** With a provider that returns its input, a batch of one text is the
    round trip [protect_restore] of that text. *)
Lemma translate_batch_identity (text : string) (terminology : odict) (w : world) :
  (translate_batch_with_retry client_identity [text] terminology w).1
  = Ok ([protect_restore text terminology], len (protect text terminology).1).
Proof.
  unfold translate_batch_with_retry, protect_restore. run_monad.
  destruct (protect text terminology) as [protected_text placeholders]. simpl.
  unfold sum_N. simpl. by rewrite N.add_0_r.
Qed.

(** ** One turn of the loop of main *)


(** ** The loop of main *)




Lemma files_to_process_elem (all_html_files : list string) (stored : gset string)
    (f : string) :
  f ∈ files_to_process all_html_files stored ↔ f ∈ all_html_files ∧ f ∉ stored.
Proof.
  unfold files_to_process.
  rewrite list_elem_of_In, filter_In, <- list_elem_of_In, negb_true_iff.
  by rewrite bool_decide_eq_false.
Qed.




(** ** Errors while a file is processed *)

(** A file that cannot be read or parsed is logged and left out of the set
    and of the state file. *)
Lemma loop_body_read_error (e : env) (terminology : odict) (filepath : string)
    (w : world) :
  env_read e filepath = None ->
  loop_body e terminology filepath w
  = (Ok false,
     set_log (fun l => l ++ [LogReadError filepath])
       (set_files_read (fun l => l ++ [filepath]) w)).
Proof.
  intros Hread.
  unfold loop_body, process_file, read_and_prepare_soup, try_except, bind.
  run_monad. by rewrite Hread.
Qed.

(** A file whose translation raises is logged by [translate_soup_content]
    and left out of the set and of the state file. *)
Lemma loop_body_translation_error (e : env) (terminology : odict)
    (filepath : string) (doc : soup) (w : world) :
  env_read e filepath = Some doc ->
  (translate_soup_content (env_client e) doc terminology
     (set_files_read (fun l => l ++ [filepath]) w)).1 = Ok (None, 0%N) ->
  (loop_body e terminology filepath w).1 = Ok false
  ∧ processed_files (loop_body e terminology filepath w).2 = processed_files w
  ∧ state_file (loop_body e terminology filepath w).2 = state_file w
  ∧ outputs (loop_body e terminology filepath w).2 = outputs w.
Proof.
  intros Hread Hnone.
  unfold loop_body, process_file, read_and_prepare_soup, try_except, bind.
  run_monad. rewrite Hread. run_monad.
  match goal with |- context [translate_soup_content ?c ?d ?t ?w0] =>
    pose proof (translate_soup_same_files c d t w0) as Hsame;
    change w0 with (set_files_read (fun l => l ++ [filepath]) w) in *;
    destruct (translate_soup_content c d t
                (set_files_read (fun l => l ++ [filepath]) w)) as [r1 w1] end.
  simpl in Hnone. subst r1. simpl.
  destruct Hsame as (_ & Hout & Hproc & Hstate).
  destruct w, w1. simpl in *. by subst.
Qed.

(** A file whose output cannot be written is nevertheless added to the set
    and to the state file: [write_translated_file] logs the exception and
    returns, and [main] goes on as after a successful write. *)
Lemma loop_body_write_error (e : env) (terminology : odict) (filepath : string)
    (doc translated : soup) (n : N) (w : world) :
  env_read e filepath = Some doc ->
  (translate_soup_content (env_client e) doc terminology
     (set_files_read (fun l => l ++ [filepath]) w)).1 = Ok (Some translated, n) ->
  env_write_ok e filepath = false ->
  env_save_ok e filepath = true ->
  (loop_body e terminology filepath w).1 = Ok true
  ∧ processed_files (loop_body e terminology filepath w).2
    = processed_files w ∪ {[ filepath ]}
  ∧ state_file (loop_body e terminology filepath w).2
    = processed_files w ∪ {[ filepath ]}
  ∧ outputs (loop_body e terminology filepath w).2 = outputs w.
Proof.
  intros Hread Hsome Hwrite Hsave.
  unfold loop_body, process_file, read_and_prepare_soup, try_except, bind.
  run_monad. rewrite Hread. run_monad.
  match goal with |- context [translate_soup_content ?c ?d ?t ?w0] =>
    pose proof (translate_soup_same_files c d t w0) as Hsame;
    change w0 with (set_files_read (fun l => l ++ [filepath]) w) in *;
    destruct (translate_soup_content c d t
                (set_files_read (fun l => l ++ [filepath]) w)) as [r1 w1] end.
  simpl in Hsome. subst r1. simpl.
  unfold write_translated_file, save_processed_files, try_except.
  rewrite Hwrite, Hsave. run_monad.
  destruct Hsame as (_ & Hout & Hproc & Hstate).
  destruct w, w1. simpl in *. by subst.
Qed.

(** C3, the part that fails.  A run over one file whose output cannot be
    written: nothing is written, the error is logged, and the file is in the
    set and in the state file, so that the next run has nothing to do. *)
Theorem C3_write_error_marked_processed :
  outputs (main (demo_env false true) [] ["source_html/index.html"] ∅) = []
  ∧ log (main (demo_env false true) [] ["source_html/index.html"] ∅)
    = [LogWriteError "source_html/index.html"]
  ∧ processed_files (main (demo_env false true) [] ["source_html/index.html"] ∅)
    = {[ "source_html/index.html" ]}
  ∧ state_file (main (demo_env false true) [] ["source_html/index.html"] ∅)
    = {[ "source_html/index.html" ]}
  ∧ files_to_process ["source_html/index.html"]
      (state_file (main (demo_env false true) [] ["source_html/index.html"] ∅))
    = [].
Proof. repeat split; by vm_compute. Qed.

(** The same run with a file that cannot be read: the file stays out of the
    state file and the next run takes it again. *)
Example read_error_retried :
  log (main unreadable_env [] ["source_html/index.html"] ∅)
    = [LogReadError "source_html/index.html"]
  ∧ state_file (main unreadable_env [] ["source_html/index.html"] ∅) = ∅
  ∧ files_to_process ["source_html/index.html"]
      (state_file (main unreadable_env [] ["source_html/index.html"] ∅))
    = ["source_html/index.html"].
Proof. repeat split; by vm_compute. Qed.

(** ** Replacing strings *)

Lemma text_in_replace_other (q p : list nat) (new : string) (n : node) :
  p ≠ q -> text_in p (replace_in q new n) = text_in p n.
Proof.
  revert p n. induction q as [|j q IH]; intros p n Hne.
  - destruct n as [s|name cs]; [|done]. by destruct p.
  - destruct n as [s|name cs]; [done|].
    destruct p as [|i p]; [done|]. simpl.
    destruct (decide (i = j)) as [->|Hij].
    + rewrite list_lookup_alter_eq.
      destruct (cs !! j) as [c|]; [|done]. simpl.
      apply IH. congruence.
    + by rewrite list_lookup_alter_ne.
Qed.

Lemma text_at_replace_other (q p : list nat) (new : string) (doc : soup) :
  p ≠ q -> text_at p (replace_with q new doc) = text_at p doc.
Proof.
  intros Hne. rewrite !text_at_root.
  rewrite <- (text_in_replace_other q p new (Tag DOCUMENT doc) Hne).
  by destruct q.
Qed.

Lemma replace_batch_other (batch : list text_node) (texts : list string)
    (doc doc' : soup) (p : list nat) :
  replace_batch batch texts doc = Ok doc' ->
  p ∉ map tn_path batch ->
  text_at p doc' = text_at p doc.
Proof.
  revert texts doc. induction batch as [|t batch IH]; intros texts doc.
  - by intros [= <-].
  - simpl. destruct texts as [|new texts]; [done|].
    intros Hr Hp. rewrite (IH _ _ Hr) by set_solver.
    apply text_at_replace_other. set_solver.
Qed.

(** The batches that are translated leave the other strings as they are. *)
Lemma translate_batches_other (client : nat -> list string -> api_reply)
    (terminology : odict) (todo : list (list text_node)) (doc doc' : soup)
    (total total' : N) (w w' : world) (p : list nat) :
  translate_batches client terminology todo doc total w = (Ok (doc', total'), w') ->
  p ∉ map tn_path (List.concat todo) ->
  text_at p doc' = text_at p doc.
Proof.
  revert doc total w. induction todo as [|batch todo IH]; intros doc total w.
  - by intros [= <- _ _].
  - cbn [translate_batches List.concat]. run_monad.
    destruct (CHAR_LIMIT_PER_MONTH <=? char_count w)%N; [by intros [= <- _ _]|].
    destruct (translate_batch_with_retry client (map tn_text batch) terminology w)
      as [[[translated n]|e] w1]; simpl; [|done].
    destruct (replace_batch batch translated doc) as [doc1|e] eqn:Hrep;
      run_monad; [|done].
    intros Hrun Hp. rewrite map_app, elem_of_app in Hp.
    rewrite (IH _ _ _ Hrun) by tauto.
    apply (replace_batch_other _ _ _ _ _ Hrep). tauto.
Qed.

(** Once the character count is at the limit, the batches that follow are
    not submitted. *)
Lemma translate_batches_limit (client : nat -> list string -> api_reply)
    (terminology : odict) (done rest : list (list text_node)) (doc doc1 : soup)
    (total total1 : N) (w w1 : world) :
  translate_batches client terminology done doc total w = (Ok (doc1, total1), w1) ->
  (CHAR_LIMIT_PER_MONTH <= char_count w1)%N ->
  translate_batches client terminology (done ++ rest) doc total w
  = (Ok (doc1, total1), w1).
Proof.
  revert doc total w. induction done as [|batch done IH]; intros doc total w.
  - intros [= <- <- <-] Hlimit. destruct rest as [|batch rest]; [done|].
    cbn [app translate_batches]. run_monad.
    by rewrite (proj2 (N.leb_le _ _) Hlimit).
  - cbn [app translate_batches]. run_monad.
    destruct (CHAR_LIMIT_PER_MONTH <=? char_count w)%N; [done|].
    destruct (translate_batch_with_retry client (map tn_text batch) terminology w)
      as [[[translated n]|e] w2]; simpl; [|done].
    destruct (replace_batch batch translated doc) as [doc2|e]; run_monad; [|done].
    apply IH.
Qed.

(** ** Batches *)

Lemma concat_batches_go {A} (fuel : nat) (l : list A) :
  (List.length l <= fuel)%nat -> List.concat (batches_go fuel l) = l.
Proof.
  revert l. induction fuel as [|fuel IH]; intros l Hlen.
  - destruct l; [done|simpl in Hlen; lia].
  - destruct l as [|x l]; [done|].
    cbn [batches_go List.concat]. rewrite IH; [apply take_drop|].
    rewrite length_drop. unfold BATCH_SIZE. simpl in *. lia.
Qed.

Lemma concat_batches {A} (l : list A) : List.concat (batches l) = l.
Proof. by apply concat_batches_go. Qed.

Lemma path_ltb_irrefl (p : list nat) : path_ltb p p = false.
Proof.
  induction p as [|i p IH]; [done|].
  simpl. by rewrite Nat.ltb_irrefl, Nat.eqb_refl, IH.
Qed.

Lemma sorted_paths_NoDup (l : list text_node) :
  StronglySorted before l -> NoDup (map tn_path l).
Proof.
  induction 1 as [|t l _ IH Hall]; simpl; constructor; [|done].
  intros Hin. apply list_elem_of_In, in_map_iff in Hin as (t' & Heq & Hin).
  eapply Forall_forall in Hall; [|by apply list_elem_of_In].
  unfold before in Hall. by rewrite Heq, path_ltb_irrefl in Hall.
Qed.

(** A node of a later batch is not a node of an earlier one, and it has in
    the document the text that the walk found. *)
Lemma later_batches_apart (doc : soup) (done rest : list (list text_node))
    (t : text_node) :
  batches (translatable_nodes doc) = done ++ rest ->
  t ∈ List.concat rest ->
  (tn_path t ∉ map tn_path (List.concat done))
  ∧ text_at (tn_path t) doc = Some (tn_text t).
Proof.
  intros Hsplit Ht.
  pose proof (concat_batches (translatable_nodes doc)) as Hcat.
  rewrite Hsplit, concat_app in Hcat.
  split.
  - pose proof (sorted_paths_NoDup _ (translatable_nodes_sorted doc)) as Hnd.
    rewrite <- Hcat, map_app in Hnd.
    apply NoDup_app in Hnd as (_ & Hdisj & _).
    intros Hin. apply (Hdisj _ Hin).
    apply list_elem_of_In, in_map. by apply list_elem_of_In.
  - apply translatable_nodes_spec. rewrite <- Hcat. set_solver.
Qed.

(** ** The character limit reached in the middle of a file *)

(** C10.  When the batches of a file split into batches that are translated
    and bring the character count to the limit, and batches that follow,
    the turn of the loop runs to its end: the provider is not called for the
    batches that follow and their strings keep their text, the document is
    written to the output path as it is then, the file is added to the set
    and saved, and no run that finds the file in the state file has it among
    its files to process. *)
Theorem C10_limit_reached_mid_file (e : env) (terminology : odict)
    (filepath : string) (doc doc1 : soup) (done rest : list (list text_node))
    (total1 : N) (w w1 : world) :
  env_read e filepath = Some doc ->
  batches (translatable_nodes doc) = done ++ rest ->
  translate_batches (env_client e) terminology done doc 0%N
    (set_files_read (fun l => l ++ [filepath]) w) = (Ok (doc1, total1), w1) ->
  (CHAR_LIMIT_PER_MONTH <= char_count w1)%N ->
  env_write_ok e filepath = true ->
  env_save_ok e filepath = true ->
  let w' := (loop_body e terminology filepath w).2 in
  (loop_body e terminology filepath w).1 = Ok true
  ∧ api_calls w' = api_calls w1
  ∧ char_count w' = char_count w1
  ∧ (∀ t, t ∈ List.concat rest -> text_at (tn_path t) doc1 = Some (tn_text t))
  ∧ outputs w' = outputs w ++ [(output_path filepath, doc1)]
  ∧ processed_files w' = processed_files w ∪ {[ filepath ]}
  ∧ state_file w' = processed_files w ∪ {[ filepath ]}
  ∧ ∀ all_html_files stored,
      state_file w' ⊆ stored ->
      filepath ∉ files_to_process all_html_files stored.
Proof.
  intros Hread Hsplit Hdone Hlimit Hwrite Hsave w'.
  pose proof (translate_batches_limit _ _ done rest _ _ _ _ _ _ Hdone Hlimit)
    as Hall.
  pose proof (translate_batches_same_files (env_client e) terminology done doc
                0%N (set_files_read (fun l => l ++ [filepath]) w)) as Hsame.
  rewrite Hdone in Hsame. destruct Hsame as (Hr & Hout & Hproc & Hstate).
  assert (Hbody : loop_body e terminology filepath w
    = (Ok true,
       set_state_file (fun _ => processed_files w ∪ {[ filepath ]})
         (set_processed_files (fun s => s ∪ {[ filepath ]})
            (set_outputs (fun l => l ++ [(output_path filepath, doc1)]) w1)))).
  { unfold loop_body, process_file, read_and_prepare_soup, try_except, bind.
    run_monad. rewrite Hread. run_monad.
    unfold translate_soup_content, try_except, bind.
    rewrite Hsplit.
    change {| char_count := char_count w; api_calls := api_calls w;
              sleeps := sleeps w; log := log w;
              files_read := files_read w ++ [filepath]; outputs := outputs w;
              processed_files := processed_files w; state_file := state_file w |}
      with (set_files_read (fun l => l ++ [filepath]) w).
    rewrite Hall. run_monad.
    unfold write_translated_file, save_processed_files, try_except.
    rewrite Hwrite, Hsave. run_monad.
    destruct w, w1. simpl in *. by subst. }
  subst w'. rewrite Hbody. simpl.
  split; [done|]. split; [by destruct w1|]. split; [by destruct w1|].
  split.
  { intros t Ht.
    destruct (later_batches_apart doc done rest t Hsplit Ht) as [Hapart Htext].
    by rewrite (translate_batches_other _ _ _ _ _ _ _ _ _ _ Hdone Hapart). }
  split; [destruct w, w1; simpl in *; by subst|].
  split; [destruct w, w1; simpl in *; by subst|].
  split; [by destruct w1|].
  intros all_html_files stored Hstored. rewrite files_to_process_elem.
  destruct w1. simpl in *. set_solver.
Qed.

(** A run of C10: the first 128 paragraphs of the long page take the count
    over the limit; the last paragraph is written untranslated and the file
    is marked all the same. *)
Lemma C10_limit_reached_mid_file_witness :
  (loop_body demo_long_env [] "source_html/long.html" demo_late_world).1 = Ok true
  ∧ api_calls (loop_body demo_long_env [] "source_html/long.html"
                 demo_late_world).2 = 1
  ∧ text_at [0; 128; 0] demo_long_translated = Some "Hello."
  ∧ text_at [0; 127; 0] demo_long_translated = Some "ka:Hello."
  ∧ outputs (loop_body demo_long_env [] "source_html/long.html"
               demo_late_world).2
    = [("translated_html/long.html", demo_long_translated)]
  ∧ state_file (loop_body demo_long_env [] "source_html/long.html"
                  demo_late_world).2 = {[ "source_html/long.html" ]}.
Proof.
  destruct (C10_limit_reached_mid_file demo_long_env [] "source_html/long.html"
              demo_long_doc demo_long_translated
              [take 128 (translatable_nodes demo_long_doc)]
              [drop 128 (translatable_nodes demo_long_doc)]
              768%N demo_late_world
              {| char_count := 1000000667; api_calls := 1; sleeps := [];
                 log := []; files_read := ["source_html/long.html"];
                 outputs := []; processed_files := ∅; state_file := ∅ |})
    as (H1 & H2 & _ & H4 & H5 & _ & H7 & _).
  - reflexivity.
  - by vm_compute.
  - by vm_compute.
  - by vm_compute.
  - reflexivity.
  - reflexivity.
  - split; [exact H1|]. split; [exact H2|].
    split; [by vm_compute|]. split; [by vm_compute|].
    split; [exact H5|]. rewrite H7. by vm_compute.
Defined.

(** ** Placeholders *)

Lemma string_of_uint_digits (c : ascii) (d : Decimal.uint) :
  is_digit c = false -> has_char c (NilEmpty.string_of_uint d) = false.
Proof.
  intros Hc. induction d as [|d IH|d IH|d IH|d IH|d IH|d IH|d IH|d IH|d IH|d IH];
    [done|..]; cbn [NilEmpty.string_of_uint has_char]; rewrite IH, orb_false_r;
    apply Ascii.eqb_neq; intros <-; discriminate.
Qed.

Lemma str_of_nat_inj (i j : nat) : str_of_nat i = str_of_nat j -> i = j.
Proof.
  unfold str_of_nat. intros H.
  apply Unsigned.to_uint_inj.
  pose proof (NilEmpty.usu (Nat.to_uint i)) as Hi.
  pose proof (NilEmpty.usu (Nat.to_uint j)) as Hj.
  rewrite H in Hi. congruence.
Qed.

Lemma append_inj_l (p s t : string) : p +:+ s = p +:+ t -> s = t.
Proof.
  induction p as [|c p IH]; [done|]. rewrite !append_cons. intros [= H]. by apply IH.
Qed.

(** Two texts without the character [c], each followed by [c]: they end at
    the same place. *)
Lemma append_inj_until (c : ascii) (a b x y : string) :
  has_char c a = false ->
  has_char c b = false ->
  a +:+ String c x = b +:+ String c y ->
  a = b.
Proof.
  revert b. induction a as [|a0 a IH]; intros [|b0 b] Ha Hb; simpl.
  - done.
  - intros [= <- _]. simpl in Hb. by rewrite Ascii.eqb_refl in Hb.
  - intros [= -> _]. simpl in Ha. by rewrite Ascii.eqb_refl in Ha.
  - apply has_char_cons_false in Ha as [_ Ha].
    apply has_char_cons_false in Hb as [_ Hb].
    intros [= -> H]. f_equal. by apply IH.
Qed.

Lemma placeholder_inj (i j : nat) : placeholder i = placeholder j -> i = j.
Proof.
  unfold placeholder. intros H. do 5 apply append_inj_l in H.
  apply str_of_nat_inj.
  apply (append_inj_until "<" _ _ "/span>" "/span>");
    [by apply string_of_uint_digits..|exact H].
Qed.

Lemma dict_set_entries (d : odict) (k v : string) (entry : string * string) :
  entry ∈ dict_set d k v -> entry ∈ d ∨ entry = (k, v).
Proof.
  induction d as [|[k' v'] d IH]; simpl.
  - intros ->%list_elem_of_singleton. by right.
  - destruct (String.eqb k' k).
    + intros [->|H]%elem_of_cons; [by right|left; by right].
    + intros [->|H]%elem_of_cons; [left; by left|].
      destruct (IH H) as [?|?]; [left; by right|by right].
Qed.

Lemma dict_set_keys (d : odict) (k v k0 : string) :
  k0 ∈ map fst (dict_set d k v) -> k0 ∈ map fst d ∨ k0 = k.
Proof.
  intros H. apply list_elem_of_In, in_map_iff in H as ([k1 v1] & <- & Hin).
  apply list_elem_of_In, dict_set_entries in Hin as [Hin|[= -> ->]]; [|by right].
  left. apply list_elem_of_In, in_map_iff. exists (k1, v1).
  split; [done|]. by apply list_elem_of_In.
Qed.

Lemma dict_set_NoDup (d : odict) (k v : string) :
  NoDup (map fst d) -> NoDup (map fst (dict_set d k v)).
Proof.
  induction d as [|[k' v'] d IH]; simpl; intros Hnd.
  - apply NoDup_singleton.
  - apply NoDup_cons in Hnd as [Hnew Hnd].
    destruct (String.eqb_spec k' k) as [->|Hne]; simpl.
    + by apply NoDup_cons.
    + apply NoDup_cons. split; [|by apply IH].
      intros [H| ->]%dict_set_keys; done.
Qed.

Lemma dict_set_length (d : odict) (k v : string) :
  (List.length (dict_set d k v) <= S (List.length d))%nat.
Proof.
  induction d as [|[k' v'] d IH]; simpl; [lia|].
  destruct (String.eqb k' k); simpl; lia.
Qed.

Lemma protect_terminology_from_entries (i : nat) (text : string)
    (terminology placeholders : odict) :
  let result := (protect_terminology_from i text terminology placeholders).2 in
  (NoDup (map fst placeholders) -> NoDup (map fst result))
  ∧ (List.length result <= List.length placeholders + List.length terminology)%nat
  ∧ ∀ ph ka, (ph, ka) ∈ result ->
             (ph, ka) ∈ placeholders
             ∨ ∃ j en, terminology !! j = Some (en, ka) ∧ ph = placeholder (i + j).
Proof.
  revert i text placeholders.
  induction terminology as [|[en_term ka_term] rest IH]; intros i text phs.
  - simpl. split; [done|]. split; [lia|]. by left.
  - cbn [protect_terminology_from].
    destruct (contains en_term text).
    + destruct (IH (S i) (replace en_term (placeholder i) text)
                  (dict_set phs (placeholder i) ka_term)) as (Hnd & Hlen & Hentries).
      split; [intros H; by apply Hnd, dict_set_NoDup|].
      split.
      { pose proof (dict_set_length phs (placeholder i) ka_term). simpl in *. lia. }
      intros ph ka Hin.
      destruct (Hentries ph ka Hin) as [Hold|(j & en & Hj & ->)].
      * apply dict_set_entries in Hold as [Hold|[= -> ->]]; [by left|].
        right. exists 0, en_term. by rewrite Nat.add_0_r.
      * right. exists (S j), en. split; [done|]. f_equal. lia.
    + destruct (IH (S i) text phs) as (Hnd & Hlen & Hentries).
      split; [done|]. split; [simpl in *; lia|].
      intros ph ka Hin.
      destruct (Hentries ph ka Hin) as [Hold|(j & en & Hj & ->)]; [by left|].
      right. exists (S j), en. split; [done|]. f_equal. lia.
Qed.

(** X1.  The placeholders of [protect_terminology] tell the terms apart:
    the placeholders of two indices are different texts; every entry of the
    map that is returned has as its key the placeholder of a term of the
    dictionary and as its value the translation of that very term; no key
    occurs twice, and there are at most as many entries as terms. *)
Theorem X1_placeholders_name_their_terms (text : string) (terminology : odict) :
  (∀ i j, placeholder i = placeholder j -> i = j)
  ∧ (∀ ph ka, (ph, ka) ∈ (protect_terminology text terminology).2 ->
              ∃ j en, terminology !! j = Some (en, ka) ∧ ph = placeholder j)
  ∧ (∀ j ka, (placeholder j, ka) ∈ (protect_terminology text terminology).2 ->
             ∃ en, terminology !! j = Some (en, ka))
  ∧ NoDup (map fst (protect_terminology text terminology).2)
  ∧ (List.length (protect_terminology text terminology).2
     <= List.length terminology)%nat.
Proof.
  destruct (protect_terminology_from_entries 0 text terminology [])
    as (Hnd & Hlen & Hentries).
  assert (Hkeys : ∀ ph ka, (ph, ka) ∈ (protect_terminology text terminology).2 ->
              ∃ j en, terminology !! j = Some (en, ka) ∧ ph = placeholder j).
  { intros ph ka Hin. destruct (Hentries ph ka Hin) as [Hold|H]; [|exact H].
    by apply elem_of_nil in Hold. }
  split; [apply placeholder_inj|].
  split; [exact Hkeys|].
  split.
  { intros j ka Hin. destruct (Hkeys _ _ Hin) as (j' & en & Hj & Heq).
    apply placeholder_inj in Heq as ->. by exists en. }
  split; [apply Hnd; constructor|exact Hlen].
Qed.

(** X2.  [unprotect_terminology] returns a text as it is when none of the
    placeholders occurs in it, as when the provider has dropped or altered
    them: nothing is put back, and nothing is reported. *)
Theorem X2_restoration_without_placeholders (text : string) (placeholders : odict) :
  Forall (fun entry => contains entry.1 text = false) placeholders ->
  unprotect_terminology text placeholders = text.
Proof.
  induction 1 as [|[ph ka] rest Hph _ IH]; [done|].
  cbn [unprotect_terminology]. simpl in Hph. by rewrite replace_absent.
Qed.

(** A run of X2: the reply has lost the placeholder of the term. *)
Lemma X2_restoration_without_placeholders_witness :
  unprotect_terminology "ka:Learn about term0 here."
    (protect_terminology "Learn about FreeRTOS here." [("FreeRTOS", "OS")]).2
  = "ka:Learn about term0 here.".
Proof.
  apply X2_restoration_without_placeholders.
  repeat constructor.
Defined.

(** ** The pattern of protect_code_identifiers *)

Lemma contains_cons (p : string) (c : ascii) (s : string) :
  contains p s = true -> contains p (String c s) = true.
Proof. intros H. cbn [contains]. rewrite H. apply orb_true_r. Qed.

Lemma contains_startswith (p s : string) :
  startswith p s = true -> contains p s = true.
Proof. intros H. destruct s; cbn [contains]; by rewrite H. Qed.

Lemma match_paren_opens (s : string) (r : string * string) :
  match_paren s = Some r -> startswith "(C" s = true.
Proof.
  unfold match_paren, strip_prefix.
  by destruct (startswith "(C" s).
Qed.

Lemma match_type_info_opens (s : string) (r : string * string) :
  match_type_info s = Some r -> contains "(C" s = true.
Proof.
  revert r. induction s as [|c s IH]; intros r.
  - intros H. by apply match_paren_opens in H.
  - cbn [match_type_info]. destruct (is_space c).
    + destruct (match_type_info s) as [[t rest]|] eqn:Hs.
      * intros _. apply contains_cons. by apply (IH (t, rest)).
      * intros H. by apply contains_startswith, (match_paren_opens _ r).
    + intros H. by apply contains_startswith, (match_paren_opens _ r).
Qed.

Lemma ident_tail_opens (prev : ascii) (s : string) (r : string * string * string) :
  ident_tail prev s = Some r -> contains "(C" s = true.
Proof.
  revert prev r. induction s as [|c s IH]; intros prev r.
  - cbn [ident_tail]. destruct (word_boundary (Some prev) ""); [|done].
    destruct (match_type_info "") as [[t rest]|] eqn:Ht; [|done].
    intros _. by apply (match_type_info_opens _ (t, rest)).
  - cbn [ident_tail].
    assert (Hstop : ∀ r0,
      (if word_boundary (Some prev) (String c s)
       then match match_type_info (String c s) with
            | Some (t, rest) => Some ("", t, rest)
            | None => None
            end
       else None) = Some r0 -> contains "(C" (String c s) = true).
    { intros r0. destruct (word_boundary (Some prev) (String c s)); [|done].
      destruct (match_type_info (String c s)) as [[t rest]|] eqn:Ht; [|done].
      intros _. by apply (match_type_info_opens _ (t, rest)). }
    destruct (is_ident_char c); [|apply Hstop].
    destruct (ident_tail c s) as [[[i t] rest]|] eqn:Hs; [|apply Hstop].
    intros _. apply contains_cons. by apply (IH c (i, t, rest)).
Qed.

Lemma match_at_opens (prev : option ascii) (s : string)
    (r : string * string * string) :
  match_at prev s = Some r -> contains "(C" s = true.
Proof.
  destruct s as [|c s]; [done|]. unfold match_at.
  destruct (word_boundary prev (String c s) && is_ident_start c); [|done].
  destruct (ident_tail c s) as [[[i t] rest]|] eqn:Hs; [|done].
  intros _. apply contains_cons. by apply (ident_tail_opens c s (i, t, rest)).
Qed.

Lemma pattern_search_opens (prev : option ascii) (s : string) :
  pattern_search prev s = true -> contains "(C" s = true.
Proof.
  revert prev. induction s as [|c s IH]; intros prev; [done|].
  cbn [pattern_search].
  destruct (match_at prev (String c s)) as [r|] eqn:Hm.
  - intros _. by apply (match_at_opens prev _ r).
  - intros H. apply contains_cons. by apply (IH (Some c)).
Qed.

(** X3.  [protect_code_identifiers] returns a text without [(C] as it is:
    only a text with an annotation can be changed. *)
Theorem X3_no_annotation_no_change (text : string) :
  contains "(C" text = false -> protect_code_identifiers text = text.
Proof.
  intros Hno. apply sub_go_no_match.
  destruct (pattern_search None text) eqn:Hs; [|done].
  apply pattern_search_opens in Hs. congruence.
Qed.

(** A run of X3 on a sentence with parentheses. *)
Lemma X3_no_annotation_no_change_witness :
  protect_code_identifiers "Call gpio_init (see below) first."
  = "Call gpio_init (see below) first.".
Proof. apply X3_no_annotation_no_change. reflexivity. Defined.

(** ** Annotated identifiers *)

Lemma match_type_info_here (plus : bool) (kind rest : string) :
  kind ∈ type_kinds ->
  match_type_info (type_info plus kind +:+ rest) = Some (type_info plus kind, rest).
Proof.
  unfold type_kinds. intros Hkind.
  repeat (apply elem_of_cons in Hkind as [->|Hkind]);
    [destruct plus; reflexivity..|by apply elem_of_nil in Hkind].
Qed.

Lemma type_info_head (plus : bool) (kind : string) :
  ∃ t, type_info plus kind = String " " t.
Proof. eexists. reflexivity. Qed.

Lemma type_info_last (plus : bool) (kind : string) :
  ∃ t, type_info plus kind = t +:+ ")".
Proof.
  exists (" (C" +:+ (if plus then "++" else "") +:+ " " +:+ kind).
  unfold type_info. by rewrite !append_assoc.
Qed.

(** The first group takes the whole identifier when the annotation follows. *)
Lemma ident_tail_here (c : ascii) (body t s rest : string) :
  identifier_tail c body = true ->
  match_type_info (String " " s) = Some (t, rest) ->
  ident_tail c (body +:+ String " " s) = Some (body, t, rest).
Proof.
  revert c. induction body as [|a body IH]; intros c Hid Ht.
  - cbn [identifier_tail] in Hid.
    change ("" +:+ String " " s) with (String " " s).
    cbn [ident_tail]. rewrite Ht.
    change (is_ident_char " ") with false. cbn iota.
    unfold word_boundary, word_opt, str_head. rewrite Hid.
    by change (is_word " ") with false.
  - cbn [identifier_tail] in Hid. apply andb_true_iff in Hid as [Ha Hid].
    rewrite append_cons. cbn [ident_tail]. rewrite Ha.
    by rewrite (IH a Hid Ht).
Qed.

Lemma sub_go_skip (x : string) (a : ascii) (prev : option ascii) (r : string) :
  sub_go (String.length (x +:+ String a "")) prev ((x +:+ String a "") +:+ r)
  = sub_go 0 (Some a) r.
Proof.
  revert prev. induction x as [|c x IH]; intros prev.
  - simpl. by destruct r.
  - rewrite !append_cons. cbn [String.length sub_go]. apply IH.
Qed.

Lemma is_ident_start_word (c : ascii) : is_ident_start c = true -> is_word c = true.
Proof.
  unfold is_ident_start, is_word. intros [H|H]%orb_true_iff; rewrite H; [done|].
  apply orb_true_r.
Qed.

(** X4.  [protect_code_identifiers] wraps an annotated identifier: for a
    text that starts with an identifier (a letter or underscore, then
    letters, digits, underscores, dots and colons, not ending with a dot or
    a colon) followed by a space and [(C kind)] or [(C++ kind)], the kind
    being one of the six of the pattern, the result starts with the
    identifier, whole, in a [span] of class [notranslate], then the
    annotation as it was; the search goes on after the annotation.  When
    nothing follows the annotation, this is the result. *)
Theorem X4_annotated_identifier_wrapped (ident kind rest : string) (plus : bool) :
  is_identifier ident = true ->
  kind ∈ type_kinds ->
  protect_code_identifiers (ident +:+ type_info plus kind +:+ rest)
  = repl ident (type_info plus kind) +:+ sub_go 0 (Some ")"%char) rest
  ∧ protect_code_identifiers (ident +:+ type_info plus kind)
    = repl ident (type_info plus kind).
Proof.
  intros Hid Hkind.
  assert (Hgen : ∀ rest0,
    protect_code_identifiers (ident +:+ type_info plus kind +:+ rest0)
    = repl ident (type_info plus kind) +:+ sub_go 0 (Some ")"%char) rest0).
  { intros rest0.
    destruct ident as [|c body]; [done|].
    cbn [is_identifier] in Hid. apply andb_true_iff in Hid as [Hstart Hbody].
    pose proof (match_type_info_here plus kind rest0 Hkind) as Ht.
    destruct (type_info_head plus kind) as [t0 Ht0].
    destruct (type_info_last plus kind) as [t1 Ht1].
    assert (Htail : ident_tail c (body +:+ type_info plus kind +:+ rest0)
                    = Some (body, type_info plus kind, rest0)).
    { rewrite Ht0 in Ht |- *. rewrite append_cons in Ht |- *.
      by apply ident_tail_here. }
    unfold protect_code_identifiers. rewrite append_cons.
    cbn [sub_go]. unfold match_at.
    replace (word_boundary None (String c (body +:+ type_info plus kind +:+ rest0)))
      with true
      by (unfold word_boundary, word_opt, str_head;
          by rewrite (is_ident_start_word c Hstart)).
    rewrite Hstart. cbn [andb]. rewrite Htail.
    f_equal.
    replace (String.length (String c body) + String.length (type_info plus kind) - 1)
      with (String.length ((body +:+ t1) +:+ ")")).
    2:{ rewrite Ht1, !length_append. simpl. lia. }
    rewrite <- (append_assoc body (type_info plus kind) rest0).
    rewrite Ht1, <- (append_assoc body t1 ")").
    apply sub_go_skip. }
  split; [apply Hgen|].
  specialize (Hgen ""). rewrite !append_empty_r in Hgen. exact Hgen.
Qed.

(** A run of X4 on the example of the documentation string of the
    function. *)
Lemma X4_annotated_identifier_wrapped_witness :
  protect_code_identifiers "mcpwm_init (C++ function)"
  = "<span class=" +:+ dquote +:+ "notranslate" +:+ dquote
      +:+ ">mcpwm_init</span> (C++ function)".
Proof.
  exact (proj2 (X4_annotated_identifier_wrapped "mcpwm_init" "function" "" true
                  eq_refl ltac:(by_compute))).
Defined.

(** ** The batches of a file *)

Lemma batches_go_bounds {A} (fuel : nat) (l : list A) :
  Forall (fun batch => batch ≠ [] ∧ (List.length batch <= BATCH_SIZE)%nat)
         (batches_go fuel l).
Proof.
  revert l. induction fuel as [|fuel IH]; intros l; [constructor|].
  destruct l as [|x l]; [constructor|].
  cbn [batches_go]. constructor; [|apply IH].
  split; [done|]. rewrite length_take. lia.
Qed.

Lemma batches_go_slices {A} (fuel : nat) (l : list A) :
  (List.length l <= fuel)%nat ->
  batches_go fuel l
  = map (fun i => take BATCH_SIZE (drop (i * BATCH_SIZE) l))
        (seq 0 ((List.length l + (BATCH_SIZE - 1)) / BATCH_SIZE)).
Proof.
  revert l. induction fuel as [|fuel IH]; intros l Hlen.
  - destruct l; [done|simpl in Hlen; lia].
  - destruct l as [|x l]; [done|].
    cbn [batches_go].
    assert (Hcount : (List.length (x :: l) + (BATCH_SIZE - 1)) / BATCH_SIZE
                     = S ((List.length (drop BATCH_SIZE (x :: l)) + (BATCH_SIZE - 1))
                          / BATCH_SIZE)).
    { rewrite length_drop. unfold BATCH_SIZE. cbn [List.length].
      destruct (decide (S (List.length l) <= 128)%nat) as [Hle|Hgt].
      - replace (S (List.length l) - 128) with 0 by lia.
        replace (S (List.length l) + (128 - 1))
          with (List.length l + 1 * 128) by lia.
        rewrite Nat.div_add by done.
        rewrite !Nat.div_small by lia. done.
      - replace (S (List.length l) + (128 - 1))
          with ((S (List.length l) - 128 + (128 - 1)) + 1 * 128) by lia.
        rewrite Nat.div_add by done. lia. }
    rewrite Hcount. cbn [seq map]. f_equal.
    rewrite IH.
    2:{ rewrite length_drop. unfold BATCH_SIZE. simpl in *. lia. }
    rewrite <- seq_shift, map_map.
    apply map_ext. intros i. f_equal. by rewrite drop_drop.
Qed.

(** X5.  The batches of [translate_soup_content] are the slices
    [l[i:i + 128]] for [i = 0, 128, ...]: there are [ceil(len(l) / 128)] of
    them, the batch of index [i] holds the elements from [128 * i] on, at
    most 128 of them, no batch is empty, and put one after the other the
    batches give back the list, so that every node is submitted once and in
    document order. *)
Theorem X5_batches_are_slices {A} (l : list A) :
  batches l
  = map (fun i => take BATCH_SIZE (drop (i * BATCH_SIZE) l))
        (seq 0 ((List.length l + (BATCH_SIZE - 1)) / BATCH_SIZE))
  ∧ List.concat (batches l) = l
  ∧ Forall (fun batch => batch ≠ [] ∧ (List.length batch <= BATCH_SIZE)%nat)
           (batches l).
Proof.
  split; [by apply batches_go_slices|].
  split; [apply concat_batches|apply batches_go_bounds].
Qed.

(** ** What translation does to a document *)

Lemma map_alter_absorb {A B} (f : A -> B) (g : A -> A) (i : nat) (l : list A) :
  (∀ x, l !! i = Some x -> f (g x) = f x) ->
  map f (alter g i l) = map f l.
Proof.
  revert i. induction l as [|x l IH]; intros i Hfg; [done|].
  destruct i as [|i]; simpl.
  - by rewrite Hfg.
  - f_equal. apply IH. intros y Hy. by apply Hfg.
Qed.

Lemma skeleton_replace_in (q : list nat) (new : string) (n : node) :
  skeleton (replace_in q new n) = skeleton n.
Proof.
  revert n. induction q as [|j q IH]; intros [s|name cs]; try done.
  simpl. f_equal. apply map_alter_absorb. intros x _. apply IH.
Qed.

Lemma skeleton_replace_with (q : list nat) (new : string) (doc : soup) :
  map skeleton (replace_with q new doc) = map skeleton doc.
Proof.
  destruct q as [|j q]; [done|]. simpl.
  apply map_alter_absorb. intros x _. apply skeleton_replace_in.
Qed.

Lemma skeleton_replace_batch (batch : list text_node) (texts : list string)
    (doc doc' : soup) :
  replace_batch batch texts doc = Ok doc' ->
  map skeleton doc' = map skeleton doc.
Proof.
  revert texts doc. induction batch as [|t batch IH]; intros texts doc.
  - by intros [= <-].
  - simpl. destruct texts as [|new texts]; [done|].
    intros Hr. rewrite (IH _ _ Hr). apply skeleton_replace_with.
Qed.

Lemma skeleton_translate_batches (client : nat -> list string -> api_reply)
    (terminology : odict) (todo : list (list text_node)) (doc doc' : soup)
    (total total' : N) (w w' : world) :
  translate_batches client terminology todo doc total w = (Ok (doc', total'), w') ->
  map skeleton doc' = map skeleton doc.
Proof.
  revert doc total w. induction todo as [|batch todo IH]; intros doc total w.
  - by intros [= <- _ _].
  - cbn [translate_batches]. run_monad.
    destruct (CHAR_LIMIT_PER_MONTH <=? char_count w)%N; [by intros [= <- _ _]|].
    destruct (translate_batch_with_retry client (map tn_text batch) terminology w)
      as [[[translated n]|e] w1]; simpl; [|done].
    destruct (replace_batch batch translated doc) as [doc1|e] eqn:Hrep;
      run_monad; [|done].
    intros Hrun. rewrite (IH _ _ _ Hrun).
    by apply (skeleton_replace_batch batch translated).
Qed.

(** What [translate_soup_content] returns when it returns a document: the
    result of the loop over the batches. *)
Lemma translate_soup_some (client : nat -> list string -> api_reply)
    (doc doc' : soup) (terminology : odict) (n : N) (w w' : world) :
  translate_soup_content client doc terminology w = (Ok (Some doc', n), w') ->
  translate_batches client terminology (batches (translatable_nodes doc)) doc 0%N w
  = (Ok (doc', n), w').
Proof.
  unfold translate_soup_content, try_except, bind.
  destruct (translate_batches client terminology _ doc 0%N w) as [[[d m]|e] w1];
    run_monad; [|done].
  by intros [= <- <- <-].
Qed.

Lemma text_in_replace_same (q : list nat) (new : string) (n : node) :
  is_Some (text_in q n) -> text_in q (replace_in q new n) = Some new.
Proof.
  revert n. induction q as [|j q IH]; intros [s|name cs] [s' Hs]; try done.
  simpl in *. rewrite list_lookup_alter_eq.
  destruct (cs !! j) as [c|]; [|done]. simpl. apply IH. by exists s'.
Qed.

Lemma text_at_replace_same (q : list nat) (new : string) (doc : soup) :
  is_Some (text_at q doc) -> text_at q (replace_with q new doc) = Some new.
Proof.
  destruct q as [|j q]; [by intros [? ?]|].
  rewrite !text_at_root. apply (text_in_replace_same (j :: q) new (Tag DOCUMENT doc)).
Qed.

(** A batch whose nodes are distinct strings of the document, with one text
    for each node: every node gets its text. *)
Lemma replace_batch_map (h : text_node -> string) (batch : list text_node)
    (doc : soup) :
  NoDup (map tn_path batch) ->
  (∀ t, t ∈ batch -> is_Some (text_at (tn_path t) doc)) ->
  ∃ doc', replace_batch batch (map h batch) doc = Ok doc'
          ∧ ∀ t, t ∈ batch -> text_at (tn_path t) doc' = Some (h t).
Proof.
  revert doc. induction batch as [|t batch IH]; intros doc Hnd Htext.
  - exists doc. split; [done|]. by intros t ?%elem_of_nil.
  - simpl in Hnd. apply NoDup_cons in Hnd as [Hnew Hnd].
    destruct (IH (replace_with (tn_path t) (h t) doc) Hnd) as (doc' & Hr & Hall).
    { intros t' Ht'. rewrite text_at_replace_other; [apply Htext; by right|].
      intros Heq. apply Hnew. rewrite <- Heq.
      apply list_elem_of_In, in_map. by apply list_elem_of_In. }
    exists doc'. split; [exact Hr|].
    intros t' [->|Ht']%elem_of_cons; [|by apply Hall].
    rewrite (replace_batch_other _ _ _ _ _ Hr Hnew).
    apply text_at_replace_same, Htext. by left.
Qed.

Lemma replace_batch_write_back (h : string -> string) (batch : list text_node)
    (doc : soup) :
  replace_batch batch (map h (map tn_text batch)) doc = Ok (write_back h doc batch).
Proof.
  revert doc. induction batch as [|t batch IH]; intros doc; [done|].
  cbn [map replace_batch]. apply IH.
Qed.

Lemma write_back_app (h : string -> string) (doc : soup) (l1 l2 : list text_node) :
  write_back h doc (l1 ++ l2) = write_back h (write_back h doc l1) l2.
Proof. apply foldl_app. Qed.

(** Written back to distinct strings of the document, each text is where
    its node stands. *)
Lemma write_back_text (h : string -> string) (doc : soup) (nodes : list text_node) :
  NoDup (map tn_path nodes) ->
  (∀ t, t ∈ nodes -> is_Some (text_at (tn_path t) doc)) ->
  ∀ t, t ∈ nodes -> text_at (tn_path t) (write_back h doc nodes) = Some (h (tn_text t)).
Proof.
  intros Hnd Htext.
  destruct (replace_batch_map (fun t => h (tn_text t)) nodes doc Hnd Htext)
    as (doc' & Hrep & Hall).
  rewrite <- map_map, replace_batch_write_back in Hrep.
  by injection Hrep as <-.
Qed.

Lemma sum_N_app (l1 l2 : list N) : sum_N (l1 ++ l2) = (sum_N l1 + sum_N l2)%N.
Proof.
  unfold sum_N. induction l1 as [|x l1 IH]; simpl; [done|]. rewrite IH. lia.
Qed.

Lemma protected_chars_app (terminology : odict) (l1 l2 : list string) :
  protected_chars terminology (l1 ++ l2)
  = (protected_chars terminology l1 + protected_chars terminology l2)%N.
Proof. unfold protected_chars. by rewrite map_app, sum_N_app. Qed.

Lemma restore_results_map (f : string -> string) (terminology : odict)
    (texts : list string) :
  restore_results (map f (map (fun text => (protect text terminology).1) texts))
                  (map (fun text => (protect text terminology).2) texts)
  = Ok (map (translated_text f terminology) texts).
Proof.
  induction texts as [|text texts IH]; [done|].
  cbn [map restore_results]. by rewrite IH.
Qed.

Section Provider.

(** A provider that is up and translates each text by [f]. *)
Variable client : nat -> list string -> api_reply.
Variable f : string -> string.
Hypothesis client_maps : ∀ n texts, client n texts = Translated (map f texts).

Variable terminology : odict.

Lemma translate_batch_reply (texts : list string) (w : world) :
  texts ≠ [] ->
  translate_batch_with_retry client texts terminology w
  = (Ok (map (translated_text f terminology) texts,
         protected_chars terminology texts),
     set_api_calls S w).
Proof.
  intros Hne. destruct texts as [|first_text rest]; [done|].
  unfold translate_batch_with_retry, bind.
  rewrite (attempts_then_reply _ _ _ _
             (map f (map (fun text => (protect text terminology).1)
                         (first_text :: rest)))
             (map (translated_text f terminology) (first_text :: rest)) 0).
  - rewrite after_failures_zero. unfold ret, protected_chars.
    by rewrite !map_map.
  - unfold max_retries. lia.
  - intros j Hj. lia.
  - rewrite client_maps. by rewrite !map_map.
  - rewrite <- restore_results_map. by rewrite !map_map.
Qed.

Lemma translate_batches_reply (todo : list (list text_node)) (doc : soup)
    (total : N) (w : world) :
  Forall (fun batch => batch ≠ []) todo ->
  (char_count w + protected_chars terminology (map tn_text (List.concat todo))
   < CHAR_LIMIT_PER_MONTH)%N ->
  translate_batches client terminology todo doc total w
  = (Ok (write_back (translated_text f terminology) doc (List.concat todo),
         (total + protected_chars terminology (map tn_text (List.concat todo)))%N),
     set_char_count
       (fun c => c + protected_chars terminology (map tn_text (List.concat todo)))%N
       (set_api_calls (fun k => k + List.length todo) w)).
Proof.
  revert doc total w.
  induction todo as [|batch todo IH]; intros doc total w Hne Hlimit.
  - simpl. unfold ret, protected_chars, sum_N. simpl.
    rewrite N.add_0_r. f_equal. destruct w. unfold_world.
    f_equal; [lia|lia].
  - apply Forall_cons in Hne as [Hbatch Hne].
    cbn [List.concat] in *.
    rewrite map_app, protected_chars_app in *. rewrite write_back_app.
    set (n := protected_chars terminology (map tn_text batch)) in *.
    set (m := protected_chars terminology (map tn_text (List.concat todo))) in *.
    cbn [translate_batches]. unfold bind at 1. unfold gets at 1.
    replace (CHAR_LIMIT_PER_MONTH <=? char_count w)%N with false
      by (symmetry; apply N.leb_gt; lia).
    unfold bind at 1. rewrite translate_batch_reply.
    2:{ by destruct batch. }
    fold n. unfold bind at 1. unfold modify at 1.
    rewrite replace_batch_write_back. rewrite IH; [|done|].
    + fold m. f_equal; [do 2 f_equal; lia|].
      destruct w. unfold_world. f_equal; lia.
    + fold m. destruct w. unfold_world. lia.
Qed.

(** What [translate_soup_content] does with such a provider, below the
    limit. *)
Lemma translate_soup_reply (doc : soup) (w : world) :
  (char_count w
   + protected_chars terminology (map tn_text (translatable_nodes doc))
   < CHAR_LIMIT_PER_MONTH)%N ->
  translate_soup_content client doc terminology w
  = (Ok (Some (translate_doc f terminology doc),
         protected_chars terminology (map tn_text (translatable_nodes doc))),
     set_char_count
       (fun c =>
          c + protected_chars terminology (map tn_text (translatable_nodes doc)))%N
       (set_api_calls
          (fun k => k + List.length (batches (translatable_nodes doc))) w)).
Proof.
  intros Hlimit.
  unfold translate_soup_content, try_except, bind.
  rewrite translate_batches_reply.
  - rewrite concat_batches. unfold ret. by rewrite N.add_0_l.
  - eapply Forall_impl; [apply (batches_go_bounds _ (translatable_nodes doc))|].
    by intros batch [? _].
  - by rewrite concat_batches.
Qed.

End Provider.

(** The selected nodes of a document stand at strings of the document, no
    two at the same one. *)
Lemma translatable_nodes_distinct (doc : soup) :
  NoDup (map tn_path (translatable_nodes doc))
  ∧ ∀ t, t ∈ translatable_nodes doc -> is_Some (text_at (tn_path t) doc).
Proof.
  split; [apply sorted_paths_NoDup, translatable_nodes_sorted|].
  intros t Ht. apply translatable_nodes_spec in Ht as [Ht _]. by exists (tn_text t).
Qed.



(** X7.  When [translate_soup_content] returns a document, every string
    that the node filter does not select has the text it had: in particular
    every string inside [code], [pre], [script], [style] or [kbd], whatever
    the provider returned. *)
Theorem X7_unselected_strings_kept (client : nat -> list string -> api_reply)
    (doc doc' : soup) (terminology : odict) (n : N) (w w' : world) :
  translate_soup_content client doc terminology w = (Ok (Some doc', n), w') ->
  (∀ p s parents,
     text_at p doc = Some s ->
     parents_at p doc = Some parents ->
     ¬ qualifies s parents ->
     text_at p doc' = Some s)
  ∧ (∀ p s parents tag,
       text_at p doc = Some s ->
       parents_at p doc = Some parents ->
       tag ∈ parents ->
       tag ∈ EXCLUDED_TAGS ->
       text_at p doc' = Some s).
Proof.
  intros Hrun. apply translate_soup_some in Hrun.
  assert (Hkept : ∀ p s parents,
     text_at p doc = Some s ->
     parents_at p doc = Some parents ->
     ¬ qualifies s parents ->
     text_at p doc' = Some s).
  { intros p s parents Hs Hparents Hnot.
    rewrite (translate_batches_other _ _ _ _ _ _ _ _ _ _ Hrun); [done|].
    rewrite concat_batches. intros Hin.
    apply list_elem_of_In, in_map_iff in Hin as (t & <- & Hin).
    apply list_elem_of_In, translatable_nodes_spec in Hin as (Htext & Hpar & Hq).
    apply Hnot. congruence. }
  split; [exact Hkept|].
  intros p s parents tag Hs Hparents Htag Hex.
  apply (Hkept p s parents Hs Hparents).
  intros (_ & Hall & _). by apply (Hall tag).
Qed.

(** A run of X7 on the sample page: the identifier inside [code] is as it
    was. *)
Lemma X7_unselected_strings_kept_witness :
  text_at [0; 0; 0; 1; 0] demo_doc = Some "gpio_init"
  ∧ text_at [0; 0; 0; 1; 0] demo_doc_marked = Some "gpio_init".
Proof.
  split; [reflexivity|].
  refine (proj2 (X7_unselected_strings_kept client_mark demo_doc demo_doc_marked
                   [] 31%N (start_world ∅)
                   (translate_soup_content client_mark demo_doc [] (start_world ∅)).2
                   _)
            [0; 0; 0; 1; 0] "gpio_init" ["code"; "p"; "body"; "html"; DOCUMENT]
            "code" eq_refl eq_refl _ _).
  - by vm_compute.
  - by_compute.
  - by_compute.
Defined.

(** X8.  With a provider that is up and translates each text on its own, and
    a character count that stays below the limit, [translate_soup_content]
    returns the document with the selected strings written back one by one:
    every selected string holds the translation of its own text (protected,
    translated and restored).  It returns the number of characters
    submitted, adds that number to the character count of the run, and
    calls the provider once for each batch. *)
Theorem X8_each_string_gets_its_translation
    (client : nat -> list string -> api_reply) (f : string -> string)
    (doc : soup) (terminology : odict) (w : world) :
  (∀ n texts, client n texts = Translated (map f texts)) ->
  (char_count w
   + protected_chars terminology (map tn_text (translatable_nodes doc))
   < CHAR_LIMIT_PER_MONTH)%N ->
  translate_soup_content client doc terminology w
  = (Ok (Some (translate_doc f terminology doc),
         protected_chars terminology (map tn_text (translatable_nodes doc))),
     set_char_count
       (fun c =>
          c + protected_chars terminology (map tn_text (translatable_nodes doc)))%N
       (set_api_calls
          (fun k => k + List.length (batches (translatable_nodes doc))) w))
  ∧ ∀ t, t ∈ translatable_nodes doc ->
         text_at (tn_path t) (translate_doc f terminology doc)
         = Some (translated_text f terminology (tn_text t)).
Proof.
  intros Hclient Hlimit.
  split; [by apply translate_soup_reply|].
  destruct (translatable_nodes_distinct doc) as [Hnd Htext].
  by apply write_back_text.
Qed.

(** A run of X8 on the sample page, with a dictionary of one term and the
    provider that marks what it translates. *)
Lemma X8_each_string_gets_its_translation_witness :
  (translate_soup_content client_mark demo_doc [("FreeRTOS", "OS")]
     (start_world ∅)).1
  = Ok (Some (translate_doc (fun text => "ka:" +:+ text) [("FreeRTOS", "OS")]
                            demo_doc), 61%N)
  ∧ text_at [0; 0; 2; 0; 0]
      (translate_doc (fun text => "ka:" +:+ text) [("FreeRTOS", "OS")] demo_doc)
    = Some "ka:Learn about OS here.".
Proof.
  destruct (X8_each_string_gets_its_translation client_mark
              (fun text => "ka:" +:+ text) demo_doc [("FreeRTOS", "OS")]
              (start_world ∅)) as (Hrun & Hall).
  - reflexivity.
  - reflexivity.
  - split; [by rewrite Hrun|].
    apply (Hall {| tn_path := [0; 0; 2; 0; 0];
                   tn_text := "Learn about FreeRTOS here.";
                   tn_parents := ["li"; "ul"; "body"; "html"; DOCUMENT] |}).
    rewrite (proj2 translatable_nodes_demo). repeat constructor.
Defined.

(** ** Characters counted and calls made *)

Lemma translate_batches_count (client : nat -> list string -> api_reply)
    (terminology : odict) (todo : list (list text_node)) (doc doc' : soup)
    (total total' : N) (w w' : world) :
  translate_batches client terminology todo doc total w = (Ok (doc', total'), w') ->
  (char_count w' + total = char_count w + total')%N.
Proof.
  revert doc total w. induction todo as [|batch todo IH]; intros doc total w.
  - by intros [= _ <- <-].
  - cbn [translate_batches]. run_monad.
    destruct (CHAR_LIMIT_PER_MONTH <=? char_count w)%N; [by intros [= _ <- <-]|].
    pose proof (translate_batch_char_count client (map tn_text batch)
                  terminology w) as Hcount.
    destruct (translate_batch_with_retry client (map tn_text batch) terminology w)
      as [[[translated n]|e] w1]; simpl in *; [|done].
    destruct (replace_batch batch translated doc) as [doc1|e]; run_monad; [|done].
    intros Hrun. apply IH in Hrun. simpl in Hrun. lia.
Qed.

Lemma translate_batches_count_grows (client : nat -> list string -> api_reply)
    (terminology : odict) (todo : list (list text_node)) (doc : soup)
    (total : N) (w : world) :
  (char_count w
   <= char_count (translate_batches client terminology todo doc total w).2)%N.
Proof.
  revert doc total w. induction todo as [|batch todo IH]; intros doc total w.
  - done.
  - cbn [translate_batches]. run_monad.
    destruct (CHAR_LIMIT_PER_MONTH <=? char_count w)%N; [done|].
    pose proof (translate_batch_char_count client (map tn_text batch)
                  terminology w) as Hcount.
    destruct (translate_batch_with_retry client (map tn_text batch) terminology w)
      as [[[translated n]|e] w1]; simpl in *; [|lia].
    destruct (replace_batch batch translated doc) as [doc1|e]; run_monad; [|lia].
    match goal with |- context [translate_batches _ _ _ ?d ?t ?w0] =>
      specialize (IH d t w0) end.
    simpl in IH. lia.
Qed.

(** X9.  The character count of the run never goes down in
    [translate_soup_content], whether a document is returned or not; and
    the number of characters returned with a document is what the call has
    added to the character count of the run. *)
Theorem X9_returned_count_is_charged (client : nat -> list string -> api_reply)
    (doc : soup) (terminology : odict) (w : world) :
  (char_count w
   <= char_count (translate_soup_content client doc terminology w).2)%N
  ∧ ∀ doc' n w',
      translate_soup_content client doc terminology w = (Ok (Some doc', n), w') ->
      char_count w' = (char_count w + n)%N.
Proof.
  split.
  - unfold translate_soup_content, try_except, bind.
    pose proof (translate_batches_count_grows client terminology
                  (batches (translatable_nodes doc)) doc 0%N w) as Hgrows.
    destruct (translate_batches client terminology _ doc 0%N w)
      as [[r|e] w1]; run_monad; done.
  - intros doc' n w' Hrun.
    apply translate_soup_some, translate_batches_count in Hrun. lia.
Qed.

(** A run of X9 on the sample page, from a count of 100. *)
Lemma X9_returned_count_is_charged_witness :
  char_count (translate_soup_content client_mark demo_doc []
                (set_char_count (fun _ => 100%N) (start_world ∅))).2
  = (100 + 31)%N.
Proof.
  apply (proj2 (X9_returned_count_is_charged client_mark demo_doc []
                  (set_char_count (fun _ => 100%N) (start_world ∅)))
               demo_doc_marked 31%N).
  by vm_compute.
Defined.

Lemma translate_batch_calls_grow (client : nat -> list string -> api_reply)
    (texts : list string) (terminology : odict) (w : world) :
  (api_calls w <= api_calls (translate_batch_with_retry client texts terminology w).2)%nat.
Proof.
  destruct texts as [|first_text rest]; [simpl; lia|].
  unfold translate_batch_with_retry, bind.
  match goal with |- context [attempts ?c ?p ?l ?t ?r ?a w] =>
    pose proof (attempts_calls c p l t r a w) as Hcalls;
    destruct (attempts c p l t r a w) as [[[done|]|e] w'] end;
    run_monad; simpl in Hcalls; lia.
Qed.

Lemma translate_batches_calls (client : nat -> list string -> api_reply)
    (terminology : odict) (todo : list (list text_node)) (doc : soup)
    (total : N) (w : world) :
  (api_calls w
   <= api_calls (translate_batches client terminology todo doc total w).2
   <= api_calls w + max_retries * List.length todo)%nat.
Proof.
  revert doc total w. induction todo as [|batch todo IH]; intros doc total w.
  - simpl. lia.
  - cbn [translate_batches]. run_monad.
    destruct (CHAR_LIMIT_PER_MONTH <=? char_count w)%N; [simpl; lia|].
    pose proof (translate_batch_calls client (map tn_text batch) terminology w)
      as Hup.
    pose proof (translate_batch_calls_grow client (map tn_text batch) terminology w)
      as Hlow.
    unfold max_retries in *.
    destruct (translate_batch_with_retry client (map tn_text batch) terminology w)
      as [[[translated n]|e] w1]; simpl in *; [|lia].
    destruct (replace_batch batch translated doc) as [doc1|e]; run_monad; [|lia].
    match goal with |- context [translate_batches _ _ _ ?d ?t ?w0] =>
      specialize (IH d t w0) end.
    simpl in IH. lia.
Qed.

(** X10.  Whatever the provider does, [translate_soup_content] calls it at
    most three times for each batch of 128 selected strings: for a document
    with [k] selected strings, at most [3 * ceil(k / 128)] times, and not at
    all when no string is selected. *)
Theorem X10_calls_per_document (client : nat -> list string -> api_reply)
    (doc : soup) (terminology : odict) (w : world) :
  (api_calls w
   <= api_calls (translate_soup_content client doc terminology w).2
   <= api_calls w
      + 3 * ((List.length (translatable_nodes doc) + 127) / 128))%nat.
Proof.
  unfold translate_soup_content, try_except, bind.
  pose proof (translate_batches_calls client terminology
                (batches (translatable_nodes doc)) doc 0%N w) as Hcalls.
  assert (Hlen : List.length (batches (translatable_nodes doc))
                 = (List.length (translatable_nodes doc) + 127) / 128).
  { unfold batches. rewrite batches_go_slices by done.
    by rewrite length_map, length_seq. }
  rewrite Hlen in Hcalls. unfold max_retries in Hcalls.
  destruct (translate_batches client terminology _ doc 0%N w) as [[r|e] w1];
    run_monad; simpl in Hcalls; lia.
Qed.

(** ** The character limit *)

Lemma attempts_total (client : nat -> list string -> api_reply)
    (protected_texts : list string) (placeholders_list : list odict)
    (total n : N) (remaining attempt : nat) (final : list string) (w w1 : world) :
  attempts client protected_texts placeholders_list total remaining attempt w
  = (Ok (Some (final, n)), w1) ->
  n = total.
Proof.
  revert attempt w. induction remaining as [|r IH]; intros attempt w; [done|].
  cbn [attempts]. run_monad.
  destruct (client (api_calls w) protected_texts) as [results|[]]; run_monad;
    try done.
  - destruct (restore_results results placeholders_list); [|done].
    by intros [= _ <- _].
  - apply IH.
Qed.

(** A batch adds its protected characters to the count, or nothing. *)
Lemma translate_batch_total (client : nat -> list string -> api_reply)
    (texts final : list string) (terminology : odict) (n : N) (w w1 : world) :
  translate_batch_with_retry client texts terminology w = (Ok (final, n), w1) ->
  n = 0%N ∨ n = protected_chars terminology texts.
Proof.
  destruct texts as [|first_text rest]; [intros [= _ <- _]; by left|].
  unfold translate_batch_with_retry, bind.
  match goal with |- context [attempts ?c ?p ?l ?t ?r ?a w] =>
    destruct (attempts c p l t r a w) as [[[[final' n']|]|e] w'] eqn:Hatt end;
    run_monad; [|by intros [= _ <- _]; left|done].
  intros [= _ <- _]. right.
  apply attempts_total in Hatt. subst n'.
  unfold protected_chars. by rewrite !map_map.
Qed.

Lemma max_batch_chars_cons (terminology : odict) (batch : list text_node)
    (todo : list (list text_node)) :
  max_batch_chars terminology (batch :: todo)
  = N.max (protected_chars terminology (map tn_text batch))
          (max_batch_chars terminology todo).
Proof. reflexivity. Qed.

Lemma translate_batches_overshoot (client : nat -> list string -> api_reply)
    (terminology : odict) (todo : list (list text_node)) (doc : soup)
    (total bound : N) (w : world) :
  (max_batch_chars terminology todo <= bound)%N ->
  (char_count w < CHAR_LIMIT_PER_MONTH + bound)%N ->
  (char_count (translate_batches client terminology todo doc total w).2
   < CHAR_LIMIT_PER_MONTH + bound)%N.
Proof.
  revert doc total w. induction todo as [|batch todo IH];
    intros doc total w Hbound Hstart; [done|].
  rewrite max_batch_chars_cons in Hbound.
  cbn [translate_batches]. run_monad.
  destruct (CHAR_LIMIT_PER_MONTH <=? char_count w)%N eqn:Hlimit; [done|].
  apply N.leb_gt in Hlimit.
  pose proof (translate_batch_char_count client (map tn_text batch)
                terminology w) as Hcount.
  destruct (translate_batch_with_retry client (map tn_text batch) terminology w)
    as [[[translated n]|e] w1] eqn:Hbatch; simpl in *; [|lia].
  apply translate_batch_total in Hbatch.
  destruct (replace_batch batch translated doc) as [doc1|e]; run_monad.
  - apply IH; [lia|]. simpl. lia.
  - lia.
Qed.

(** X11.  The character limit is enforced batch by batch: a call of
    [translate_soup_content] that starts below the limit leaves the
    character count of the run below the limit plus the characters of the
    largest batch of the document, whatever the provider does.  The count
    of a batch is the length of its protected texts, or zero when the
    batch was given up. *)
Theorem X11_limit_overshoot_bounded (client : nat -> list string -> api_reply)
    (doc : soup) (terminology : odict) (w : world) :
  (char_count w < CHAR_LIMIT_PER_MONTH)%N ->
  (char_count (translate_soup_content client doc terminology w).2
   < CHAR_LIMIT_PER_MONTH
     + max_batch_chars terminology (batches (translatable_nodes doc)))%N.
Proof.
  intros Hstart.
  unfold translate_soup_content, try_except, bind.
  pose proof (translate_batches_overshoot client terminology
                (batches (translatable_nodes doc)) doc 0%N
                (max_batch_chars terminology (batches (translatable_nodes doc)))
                w ltac:(lia) ltac:(lia)) as Hover.
  destruct (translate_batches client terminology _ doc 0%N w) as [[r|e] w1];
    run_monad; done.
Qed.

(** A run of X11 on the long sample page, from a hundred characters below
    the limit: the first batch is submitted whole. *)
Lemma X11_limit_overshoot_bounded_witness :
  (char_count (translate_soup_content client_mark demo_long_doc []
                 demo_late_world).2
   < CHAR_LIMIT_PER_MONTH
     + max_batch_chars [] (batches (translatable_nodes demo_long_doc)))%N
  ∧ char_count (translate_soup_content client_mark demo_long_doc []
                  demo_late_world).2 = 1000000667%N.
Proof.
  split.
  - apply X11_limit_overshoot_bounded. reflexivity.
  - by vm_compute.
Defined.

(** ** Replies that make a file fail *)

Lemma restore_results_long (results : list string) (placeholders_list : list odict) :
  (List.length placeholders_list < List.length results)%nat ->
  restore_results results placeholders_list = Raise IndexError.
Proof.
  revert placeholders_list.
  induction results as [|r results IH]; intros phs Hlen; [simpl in Hlen; lia|].
  destruct phs as [|ph phs]; [done|].
  cbn [restore_results]. rewrite IH; [done|]. simpl in Hlen. lia.
Qed.

Lemma restore_results_short (results : list string) (placeholders_list : list odict) :
  (List.length results <= List.length placeholders_list)%nat ->
  ∃ final, restore_results results placeholders_list = Ok final
           ∧ List.length final = List.length results.
Proof.
  revert placeholders_list.
  induction results as [|r results IH]; intros phs Hlen; [by exists []|].
  destruct phs as [|ph phs]; [simpl in Hlen; lia|].
  destruct (IH phs) as (final & Hr & Hl); [simpl in Hlen; lia|].
  cbn [restore_results]. rewrite Hr. eexists. split; [done|]. simpl. by rewrite Hl.
Qed.

Lemma replace_batch_short (batch : list text_node) (texts : list string)
    (doc : soup) :
  (List.length texts < List.length batch)%nat ->
  replace_batch batch texts doc = Raise IndexError.
Proof.
  revert texts doc. induction batch as [|t batch IH]; intros texts doc Hlen;
    [simpl in Hlen; lia|].
  destruct texts as [|new texts]; [done|].
  cbn [replace_batch]. apply IH. simpl in Hlen. lia.
Qed.

(** The first attempt of the retry loop when the provider replies. *)
Lemma attempts_first_reply (client : nat -> list string -> api_reply)
    (protected_texts results : list string) (placeholders_list : list odict)
    (total : N) (remaining attempt : nat) (w : world) :
  client (api_calls w) protected_texts = Translated results ->
  attempts client protected_texts placeholders_list total (S remaining) attempt w
  = (match restore_results results placeholders_list with
     | Ok final_texts => Ok (Some (final_texts, total))
     | Raise e => Raise e
     end, set_api_calls S w).
Proof.
  intros Hreply. cbn [attempts]. run_monad. rewrite Hreply.
  by destruct (restore_results results placeholders_list).
Qed.

(** The first attempt of the retry loop when the provider raises an error
    that is not a [GoogleAPICallError]. *)
Lemma attempts_first_error (client : nat -> list string -> api_reply)
    (protected_texts : list string) (placeholders_list : list odict)
    (total : N) (remaining attempt : nat) (e : exn) (w : world) :
  client (api_calls w) protected_texts = ApiRaises e ->
  e ≠ GoogleAPICallError ->
  attempts client protected_texts placeholders_list total (S remaining) attempt w
  = (Raise e, set_api_calls S w).
Proof.
  intros Hreply Hne. cbn [attempts]. run_monad. rewrite Hreply.
  by destruct e.
Qed.

(** The state after [translate_soup_content] has caught an exception. *)
Lemma translate_soup_raise (client : nat -> list string -> api_reply)
    (doc : soup) (terminology : odict) (e : exn) (w w1 : world) :
  translate_batches client terminology (batches (translatable_nodes doc)) doc 0%N w
  = (Raise e, w1) ->
  translate_soup_content client doc terminology w
  = (Ok (None, 0%N), set_log (fun l => l ++ [LogSoupError]) w1).
Proof.
  intros Hrun. unfold translate_soup_content, try_except, bind.
  by rewrite Hrun.
Qed.

Lemma batches_cons {A} (x : A) (l : list A) :
  batches (x :: l)
  = take BATCH_SIZE (x :: l) :: batches_go (List.length l) (drop BATCH_SIZE (x :: l)).
Proof. reflexivity. Qed.

(** X12.  A reply of the provider that does not hold one text for each text
    of the batch makes [translate_soup_content] return no document, after
    one call: with more texts the restoration raises [IndexError] and the
    character count of the run is as before; with fewer texts the
    characters of the batch are added to the count and then the write-back
    raises [IndexError].  The exception is logged, and zero characters are
    reported. *)
Theorem X12_reply_of_wrong_length (client : nat -> list string -> api_reply)
    (doc : soup) (terminology : odict) (results : list string) (w : world) :
  let batch := take BATCH_SIZE (translatable_nodes doc) in
  let protected_texts :=
    map (fun text => (protect text terminology).1) (map tn_text batch) in
  let w' := (translate_soup_content client doc terminology w).2 in
  translatable_nodes doc ≠ [] ->
  (char_count w < CHAR_LIMIT_PER_MONTH)%N ->
  client (api_calls w) protected_texts = Translated results ->
  List.length results ≠ List.length batch ->
  (translate_soup_content client doc terminology w).1 = Ok (None, 0%N)
  ∧ api_calls w' = S (api_calls w)
  ∧ log w' = log w ++ [LogSoupError]
  ∧ char_count w'
    = (if (List.length results <? List.length batch)%nat
       then char_count w + protected_chars terminology (map tn_text batch)
       else char_count w)%N.
Proof.
  intros batch protected_texts w' Hne Hlimit Hreply Hlen.
  destruct (translatable_nodes doc) as [|t nodes] eqn:Hnodes; [done|].
  assert (Hbatch : ∃ rest, batch = t :: rest) by (by eexists).
  destruct Hbatch as [rest Hbatch].
  assert (Hrun : ∃ w1,
    translate_batches client terminology (batches (t :: nodes)) doc 0%N w
    = (Raise IndexError, w1)
    ∧ api_calls w1 = S (api_calls w)
    ∧ log w1 = log w
    ∧ char_count w1
      = (if (List.length results <? List.length batch)%nat
         then char_count w + protected_chars terminology (map tn_text batch)
         else char_count w)%N).
  { rewrite batches_cons. fold batch.
    cbn [translate_batches]. unfold bind at 1. unfold gets at 1.
    replace (CHAR_LIMIT_PER_MONTH <=? char_count w)%N with false
      by (symmetry; apply N.leb_gt; lia).
    unfold bind at 1.
    assert (Hbatch_run :
      translate_batch_with_retry client (map tn_text batch) terminology w
      = (match restore_results results
                 (map (fun text => (protect text terminology).2)
                      (map tn_text batch)) with
         | Ok final_texts =>
             Ok (final_texts, protected_chars terminology (map tn_text batch))
         | Raise e => Raise e
         end, set_api_calls S w)).
    { rewrite Hbatch. cbn [map]. unfold translate_batch_with_retry, bind, max_retries.
      rewrite (attempts_first_reply _ _ results).
      2:{ rewrite <- Hreply. unfold protected_texts. rewrite Hbatch.
          cbn [map]. by rewrite !map_map. }
      unfold protected_chars. cbn [map]. rewrite !map_map.
      by destruct (restore_results results _). }
    rewrite Hbatch_run.
    destruct (decide (List.length results < List.length batch)%nat) as [Hlt|Hge].
    - destruct (restore_results_short results
                  (map (fun text => (protect text terminology).2)
                       (map tn_text batch))) as (final & -> & Hfinal).
      { rewrite !length_map. lia. }
      unfold bind at 1. unfold modify at 1.
      rewrite replace_batch_short by lia.
      eexists. split; [reflexivity|].
      rewrite (proj2 (Nat.ltb_lt _ _) Hlt).
      by destruct w.
    - rewrite restore_results_long by (rewrite !length_map; lia).
      eexists. split; [reflexivity|].
      rewrite (proj2 (Nat.ltb_ge _ _)) by lia.
      by destruct w. }
  destruct Hrun as (w1 & Hrun & Hcalls & Hlog & Hcount).
  subst w'. rewrite <- Hnodes in Hrun.
  rewrite (translate_soup_raise _ _ _ _ _ _ Hrun). simpl.
  split; [done|]. destruct w1. simpl in *. by subst.
Qed.

(** A run of X12 on the sample page with a provider that returns no text:
    the 31 characters of the batch are counted, and no document comes back. *)
Lemma X12_reply_of_wrong_length_witness :
  (translate_soup_content client_silent demo_doc [] (start_world ∅)).1
  = Ok (None, 0%N)
  ∧ char_count (translate_soup_content client_silent demo_doc []
                  (start_world ∅)).2 = 31%N.
Proof.
  destruct (X12_reply_of_wrong_length client_silent demo_doc [] [] (start_world ∅))
    as (H1 & _ & _ & H4).
  - discriminate.
  - reflexivity.
  - reflexivity.
  - discriminate.
  - split; [exact H1|]. rewrite H4. reflexivity.
Defined.

(** X13.  An exception of the provider that is not a [GoogleAPICallError]
    is not retried: [translate_batch_with_retry] raises it after one call,
    without sleeping; [translate_soup_content] catches it, logs it and
    returns no document, the character count of the run being as before. *)
Theorem X13_other_errors_not_retried (client : nat -> list string -> api_reply)
    (doc : soup) (terminology : odict) (e : exn) (w : world) :
  let batch := take BATCH_SIZE (translatable_nodes doc) in
  let protected_texts :=
    map (fun text => (protect text terminology).1) (map tn_text batch) in
  let w' := (translate_soup_content client doc terminology w).2 in
  translatable_nodes doc ≠ [] ->
  (char_count w < CHAR_LIMIT_PER_MONTH)%N ->
  client (api_calls w) protected_texts = ApiRaises e ->
  e ≠ GoogleAPICallError ->
  translate_batch_with_retry client (map tn_text batch) terminology w
  = (Raise e, set_api_calls S w)
  ∧ (translate_soup_content client doc terminology w).1 = Ok (None, 0%N)
  ∧ api_calls w' = S (api_calls w)
  ∧ sleeps w' = sleeps w
  ∧ log w' = log w ++ [LogSoupError]
  ∧ char_count w' = char_count w.
Proof.
  intros batch protected_texts w' Hne Hlimit Hreply He.
  destruct (translatable_nodes doc) as [|t nodes] eqn:Hnodes; [done|].
  assert (Hbatch : ∃ rest, batch = t :: rest) by (by eexists).
  destruct Hbatch as [rest Hbatch].
  assert (Hbatch_run :
    translate_batch_with_retry client (map tn_text batch) terminology w
    = (Raise e, set_api_calls S w)).
  { rewrite Hbatch. cbn [map].
    unfold translate_batch_with_retry, bind, max_retries.
    rewrite (attempts_first_error _ _ _ _ _ _ e); [done| |done].
    rewrite <- Hreply. unfold protected_texts. rewrite Hbatch.
    cbn [map]. by rewrite !map_map. }
  split; [exact Hbatch_run|].
  assert (Hrun :
    translate_batches client terminology (batches (translatable_nodes doc)) doc 0%N w
    = (Raise e, set_api_calls S w)).
  { rewrite Hnodes, batches_cons. fold batch.
    cbn [translate_batches]. unfold bind at 1. unfold gets at 1.
    replace (CHAR_LIMIT_PER_MONTH <=? char_count w)%N with false
      by (symmetry; apply N.leb_gt; lia).
    unfold bind at 1. by rewrite Hbatch_run. }
  subst w'. rewrite (translate_soup_raise _ _ _ _ _ _ Hrun). simpl.
  split; [done|]. by destruct w.
Qed.

(** A run of X13 on the sample page. *)
Lemma X13_other_errors_not_retried_witness :
  (translate_soup_content client_broken demo_doc [] (start_world ∅)).1
  = Ok (None, 0%N)
  ∧ api_calls (translate_soup_content client_broken demo_doc []
                 (start_world ∅)).2 = 1
  ∧ sleeps (translate_soup_content client_broken demo_doc []
              (start_world ∅)).2 = [].
Proof.
  destruct (X13_other_errors_not_retried client_broken demo_doc [] OtherError
              (start_world ∅)) as (_ & H1 & H2 & H3 & _).
  - discriminate.
  - reflexivity.
  - reflexivity.
  - discriminate.
  - split; [exact H1|]. split; [exact H2|exact H3].
Defined.

(** ** The files of a run *)

Lemma endswith_refl (s : string) : endswith s s = true.
Proof. destruct s; cbn [endswith]; by rewrite String.eqb_refl. Qed.

Lemma endswith_append (p a b : string) :
  endswith p b = true -> endswith p (a +:+ b) = true.
Proof.
  intros H. induction a as [|c a IH]; [done|].
  rewrite append_cons. cbn [endswith]. rewrite IH. apply orb_true_r.
Qed.

Lemma path_join_endswith (p a b : string) :
  endswith p b = true -> endswith p (path_join a b) = true.
Proof.
  intros H. unfold path_join.
  destruct (startswith "/" b); [done|].
  destruct (negb (truthy a) || endswith "/" a); by repeat apply endswith_append.
Qed.

Lemma filter_flat_map {A B} (p : B -> bool) (g : A -> list B) (l : list A) :
  List.filter p (flat_map g l) = flat_map (fun x => List.filter p (g x)) l.
Proof.
  induction l as [|x l IH]; [done|]. simpl. by rewrite List.filter_app, IH.
Qed.

Lemma length_flat_map_map {A B C} (h : A -> B -> C) (g : A -> list B) (l : list A) :
  List.length (flat_map (fun x => map (h x) (g x)) l)
  = List.length (flat_map g l).
Proof.
  induction l as [|x l IH]; [done|]. simpl. by rewrite !length_app, length_map, IH.
Qed.

(** X14.  [get_html_files] returns the files of the walk whose names end
    with [.html], each joined to its directory and nothing else: every path
    returned ends with [.html], and there are as many paths as such
    names. *)
Theorem X14_html_files_only (walk : list (string * list string)) :
  (∀ p, p ∈ get_html_files walk
        ↔ ∃ root files file,
            (root, files) ∈ walk ∧ file ∈ files
            ∧ endswith ".html" file = true ∧ p = path_join root file)
  ∧ (∀ p, p ∈ get_html_files walk -> endswith ".html" p = true)
  ∧ List.length (get_html_files walk)
    = List.length (List.filter (endswith ".html") (flat_map snd walk)).
Proof.
  assert (Hspec : ∀ p, p ∈ get_html_files walk
        ↔ ∃ root files file,
            (root, files) ∈ walk ∧ file ∈ files
            ∧ endswith ".html" file = true ∧ p = path_join root file).
  { intros p. unfold get_html_files.
    rewrite list_elem_of_In, in_flat_map. split.
    - intros ([root files] & Hentry & Hp). simpl in Hp.
      apply in_map_iff in Hp as (file & <- & Hfile).
      apply filter_In in Hfile as [Hfile Hhtml].
      exists root, files, file. by rewrite !list_elem_of_In.
    - intros (root & files & file & Hentry & Hfile & Hhtml & ->).
      exists (root, files). split; [by apply list_elem_of_In|]. simpl.
      apply in_map, filter_In. split; [by apply list_elem_of_In|done]. }
  split; [exact Hspec|]. split.
  - intros p (root & files & file & _ & _ & Hhtml & ->)%Hspec.
    by apply path_join_endswith.
  - unfold get_html_files. rewrite filter_flat_map.
    apply (length_flat_map_map (fun entry => path_join entry.1)
             (fun entry => List.filter (endswith ".html") entry.2)).
Qed.

(** ** The loop of main, continued *)




Lemma loop_body_outputs (e : env) (terminology : odict) (filepath : string)
    (w : world) :
  let w' := (loop_body e terminology filepath w).2 in
  processed_files w ⊆ processed_files w'
  ∧ (outputs w' = outputs w
     ∨ ∃ doc translated n,
         env_read e filepath = Some doc
         ∧ (translate_soup_content (env_client e) doc terminology
              (set_files_read (fun l => l ++ [filepath]) w)).1
           = Ok (Some translated, n)
         ∧ env_write_ok e filepath = true
         ∧ outputs w' = outputs w ++ [(output_path filepath, translated)]
         ∧ filepath ∈ processed_files w').
Proof.
  unfold loop_body, process_file, read_and_prepare_soup, try_except, bind.
  run_monad.
  destruct (env_read e filepath) as [doc|] eqn:Hread; run_monad.
  2:{ split; [by destruct w|]. left. by destruct w. }
  match goal with |- context [translate_soup_content ?c ?d ?t ?w0] =>
    pose proof (translate_soup_same_files c d t w0) as Hsame;
    destruct (translate_soup_returns c d t w0) as [[translated n] Hret];
    change w0 with (set_files_read (fun l => l ++ [filepath]) w) in *;
    destruct (translate_soup_content c d t
                (set_files_read (fun l => l ++ [filepath]) w)) as [r1 w1] eqn:Hrun
  end.
  simpl in Hret. subst r1. simpl.
  destruct Hsame as (_ & Hout & Hproc & _).
  destruct translated as [translated|]; run_monad.
  2:{ destruct w, w1. simpl in *. subst. split; [done|]. by left. }
  unfold write_translated_file, save_processed_files, try_except.
  destruct (env_write_ok e filepath) eqn:Hwrite, (env_save_ok e filepath);
    run_monad; destruct w, w1; simpl in *; subst;
    (split; [set_solver|]);
    first [ by left
          | right; exists doc, translated, n;
            repeat split; try done; first [ by rewrite Hrun | set_solver ] ].
Qed.

Lemma process_files_outputs (e : env) (terminology : odict) (files : list string)
    (w : world) (p : string) (d : soup) :
  (p, d) ∈ outputs (process_files e terminology files w) ->
  (p, d) ∈ outputs w
  ∨ ∃ f doc n w0,
      f ∈ files
      ∧ p = output_path f
      ∧ env_read e f = Some doc
      ∧ (translate_soup_content (env_client e) doc terminology w0).1
        = Ok (Some d, n)
      ∧ env_write_ok e f = true
      ∧ f ∈ processed_files (process_files e terminology files w).
Proof.
  assert (Hgrow : ∀ files0 w0,
    processed_files w0 ⊆ processed_files (process_files e terminology files0 w0)).
  { induction files0 as [|f0 files0 IH0]; intros w0; [done|].
    cbn [process_files].
    destruct (CHAR_LIMIT_PER_MONTH <=? char_count w0)%N; [by destruct w0|].
    etransitivity; [|apply IH0].
    apply (loop_body_outputs e terminology f0 w0). }
  revert w. induction files as [|f files IH]; intros w; [by left|].
  cbn [process_files].
  destruct (CHAR_LIMIT_PER_MONTH <=? char_count w)%N.
  { destruct w. simpl. by left. }
  intros Hin. apply IH in Hin as [Hin|(f' & doc & n & w0 & Hf' & Hrest)].
  - destruct (loop_body_outputs e terminology f w)
      as (_ & [Heq|(doc & translated & n & Hread & Hrun & Hwrite & Heq & Hproc)]).
    + left. by rewrite <- Heq.
    + rewrite Heq in Hin. apply elem_of_app in Hin as [Hin|Hin]; [by left|].
      apply list_elem_of_singleton in Hin as [= -> ->].
      right. exists f, doc, n, (set_files_read (fun l => l ++ [f]) w).
      split; [by left|]. repeat split; try done.
      by apply Hgrow.
  - right. exists f', doc, n, w0. split; [by right|exact Hrest].
Qed.

(** X16.  Every file that [main] writes is the translation of a file that
    the state file did not hold and that could be read: it is written to
    the output path of that file, it has the tree of tags of that file, and
    that file is in the set of processed files at the end of the run. *)
Theorem X16_outputs_have_sources (e : env) (terminology : odict)
    (all_html_files : list string) (stored : gset string) (p : string) (d : soup) :
  (p, d) ∈ outputs (main e terminology all_html_files stored) ->
  ∃ f doc,
    f ∈ all_html_files
    ∧ (f ∉ stored)
    ∧ p = output_path f
    ∧ env_read e f = Some doc
    ∧ env_write_ok e f = true
    ∧ map skeleton d = map skeleton doc
    ∧ f ∈ processed_files (main e terminology all_html_files stored).
Proof.
  unfold main. intros Hin.
  apply process_files_outputs in Hin
    as [Hin|(f & doc & n & w0 & Hf & -> & Hread & Hrun & Hwrite & Hproc)].
  { by apply elem_of_nil in Hin. }
  apply files_to_process_elem in Hf as [Hall Hnot].
  exists f, doc. repeat split; try done.
  destruct (translate_soup_content (env_client e) doc terminology w0)
    as [r w1] eqn:Hsoup.
  simpl in Hrun. subst r.
  apply translate_soup_some in Hsoup.
  by apply (skeleton_translate_batches _ _ _ _ _ _ _ _ _ Hsoup).
Qed.

(** A run of X16 over one file. *)
Lemma X16_outputs_have_sources_witness :
  ∃ f doc,
    f ∈ ["source_html/a.html"]
    ∧ (f ∉ (∅ : gset string))
    ∧ "translated_html/a.html" = output_path f
    ∧ env_read (demo_env true true) f = Some doc
    ∧ env_write_ok (demo_env true true) f = true
    ∧ map skeleton demo_doc = map skeleton doc
    ∧ f ∈ processed_files (main (demo_env true true) [] ["source_html/a.html"] ∅).
Proof.
  apply (X16_outputs_have_sources (demo_env true true) [] ["source_html/a.html"] ∅
           "translated_html/a.html" demo_doc).
  assert (Hout : outputs (main (demo_env true true) [] ["source_html/a.html"] ∅)
                 = [("translated_html/a.html", demo_doc)]) by (by vm_compute).
  rewrite Hout. by left.
Defined.

(** ** Files marked as processed *)





(** ** A run in which nothing fails *)

Section CompleteRun.

Variable e : env.
Variable f : string -> string.
Variable terminology : odict.
Hypothesis client_maps : ∀ n texts, env_client e n texts = Translated (map f texts).

(** A turn of the loop for a file that can be read, written and saved. *)
Lemma loop_body_complete (filepath : string) (w : world) :
  is_Some (env_read e filepath) ->
  env_write_ok e filepath = true ->
  env_save_ok e filepath = true ->
  (char_count w + run_chars e terminology [filepath] < CHAR_LIMIT_PER_MONTH)%N ->
  loop_body e terminology filepath w
  = (Ok true,
     set_state_file (fun _ => processed_files w ∪ {[ filepath ]})
       (set_processed_files (fun s => s ∪ {[ filepath ]})
          (set_outputs
             (fun l => l ++ [(output_path filepath,
                              translate_doc f terminology (source_doc e filepath))])
             (set_char_count
                (fun c => c + run_chars e terminology [filepath])%N
                (set_api_calls
                   (fun k => k + List.length
                                  (batches (translatable_nodes
                                              (source_doc e filepath))))
                   (set_files_read (fun l => l ++ [filepath]) w)))))).
Proof.
  intros [doc Hread] Hwrite Hsave Hlimit.
  assert (Hchars : run_chars e terminology [filepath]
                   = protected_chars terminology
                       (map tn_text (translatable_nodes doc))).
  { unfold run_chars, sum_N. cbn [map foldr]. unfold source_doc.
    rewrite Hread. cbn [from_option id]. lia. }
  rewrite Hchars in Hlimit |- *. unfold source_doc. rewrite Hread.
  cbn [from_option id].
  unfold loop_body, process_file, read_and_prepare_soup, try_except, bind.
  run_monad. rewrite Hread. run_monad.
  change {| char_count := char_count w; api_calls := api_calls w;
            sleeps := sleeps w; log := log w;
            files_read := files_read w ++ [filepath]; outputs := outputs w;
            processed_files := processed_files w; state_file := state_file w |}
    with (set_files_read (fun l => l ++ [filepath]) w).
  rewrite (translate_soup_reply (env_client e) f client_maps) by (by destruct w).
  run_monad.
  unfold write_translated_file, save_processed_files, try_except.
  rewrite Hwrite, Hsave. run_monad.
  by destruct w.
Qed.

Lemma run_chars_cons (filepath : string) (files : list string) :
  run_chars e terminology (filepath :: files)
  = (run_chars e terminology [filepath] + run_chars e terminology files)%N.
Proof. unfold run_chars, sum_N. simpl. lia. Qed.

Lemma process_files_complete (files : list string) (w : world) :
  (∀ filepath, filepath ∈ files ->
     is_Some (env_read e filepath)
     ∧ env_write_ok e filepath = true
     ∧ env_save_ok e filepath = true) ->
  (char_count w + run_chars e terminology files < CHAR_LIMIT_PER_MONTH)%N ->
  state_file w = processed_files w ->
  let w' := process_files e terminology files w in
  files_read w' = files_read w ++ files
  ∧ outputs w'
    = outputs w
      ++ map (fun filepath =>
                (output_path filepath,
                 translate_doc f terminology (source_doc e filepath))) files
  ∧ processed_files w' = processed_files w ∪ list_to_set files
  ∧ state_file w' = processed_files w'
  ∧ char_count w' = (char_count w + run_chars e terminology files)%N
  ∧ log w' = log w
  ∧ sleeps w' = sleeps w.
Proof.
  revert w. induction files as [|filepath files IH]; intros w Hok Hlimit Hstate.
  - simpl. rewrite !app_nil_r. unfold run_chars, sum_N. simpl.
    repeat split; try done; [set_solver|lia].
  - rewrite run_chars_cons in Hlimit.
    destruct (Hok filepath ltac:(by left)) as (Hread & Hwrite & Hsave).
    cbn [process_files].
    replace (CHAR_LIMIT_PER_MONTH <=? char_count w)%N with false
      by (symmetry; apply N.leb_gt; lia).
    rewrite loop_body_complete by (try done; lia).
    cbn [snd].
    match goal with |- context [process_files e terminology files ?w1] =>
      destruct (IH w1) as (H1 & H2 & H3 & H4 & H5 & H6 & H7) end.
    { intros file Hfile. apply Hok. by right. }
    { destruct w. unfold_world. lia. }
    { by destruct w. }
    rewrite H1, H2, H4, H3, H5, H6, H7, (run_chars_cons filepath files).
    destruct w. unfold_world. rewrite <- !app_assoc. simpl.
    repeat split; try done; [set_solver|lia].
Qed.

End CompleteRun.

(** X18.  A run in which nothing fails does all the work: when the provider
    is up and translates each text on its own, every file to process can be
    read, written and saved, and the characters of all these files stay
    below the limit, [main] opens the files to process in their order,
    writes for each of them, to its output path, its document with every
    selected string translated, and ends with every one of them in the set
    and in the state file, with the characters submitted as its count, and
    without an entry in the log or a sleep; the next run has nothing to
    do. *)
Theorem X18_complete_run (e : env) (f : string -> string) (terminology : odict)
    (all_html_files : list string) (stored : gset string) :
  let files := files_to_process all_html_files stored in
  let w' := main e terminology all_html_files stored in
  (∀ n texts, env_client e n texts = Translated (map f texts)) ->
  (∀ filepath, filepath ∈ files ->
     is_Some (env_read e filepath)
     ∧ env_write_ok e filepath = true
     ∧ env_save_ok e filepath = true) ->
  (run_chars e terminology files < CHAR_LIMIT_PER_MONTH)%N ->
  files_read w' = files
  ∧ outputs w'
    = map (fun filepath =>
             (output_path filepath,
              translate_doc f terminology (source_doc e filepath))) files
  ∧ processed_files w' = stored ∪ list_to_set files
  ∧ state_file w' = stored ∪ list_to_set files
  ∧ char_count w' = run_chars e terminology files
  ∧ log w' = []
  ∧ sleeps w' = []
  ∧ files_to_process all_html_files (state_file w') = [].
Proof.
  intros files w' Hclient Hok Hlimit. subst w' files. unfold main.
  destruct (process_files_complete e f terminology Hclient
              (files_to_process all_html_files stored) (start_world stored) Hok)
    as (H1 & H2 & H3 & H4 & H5 & H6 & H7); [simpl; lia|done|].
  rewrite H4, H1, H2, H3, H5, H6, H7. simpl.
  repeat split; try done; try lia.
  destruct (files_to_process all_html_files
              (stored ∪ list_to_set (files_to_process all_html_files stored)))
    as [|file rest] eqn:Hrest; [done|].
  assert (Hfile : file ∈ files_to_process all_html_files
                    (stored ∪ list_to_set (files_to_process all_html_files stored)))
    by (rewrite Hrest; by left).
  apply files_to_process_elem in Hfile as [Hin Hnot].
  exfalso. apply Hnot.
  destruct (decide (file ∈ stored)) as [?|Hnew]; [set_solver|].
  apply elem_of_union_r, elem_of_list_to_set.
  by apply files_to_process_elem.
Qed.

(** A run of X18 over two files, one of which the state file holds. *)
Lemma X18_complete_run_witness :
  outputs (main demo_mark_env [("FreeRTOS", "OS")]
             ["source_html/a.html"; "source_html/b.html"]
             {[ "source_html/a.html" ]})
  = [("translated_html/b.html",
      translate_doc (fun text => "ka:" +:+ text) [("FreeRTOS", "OS")] demo_doc)]
  ∧ state_file (main demo_mark_env [("FreeRTOS", "OS")]
                  ["source_html/a.html"; "source_html/b.html"]
                  {[ "source_html/a.html" ]})
    = {[ "source_html/a.html" ]} ∪ list_to_set ["source_html/b.html"].
Proof.
  destruct (X18_complete_run demo_mark_env (fun text => "ka:" +:+ text)
              [("FreeRTOS", "OS")]
              ["source_html/a.html"; "source_html/b.html"]
              {[ "source_html/a.html" ]})
    as (_ & H2 & _ & H4 & _).
  - reflexivity.
  - intros filepath _. repeat split. by eexists.
  - by vm_compute.
  - split; [exact H2|exact H4].
Defined.

(** ** The discovery loop, continued *)

Lemma startswith_refl (s : string) : startswith s s = true.
Proof. induction s as [|c s IH]; [done|]. simpl. by rewrite Ascii.eqb_refl. Qed.

Section DiscoveryScope.

Variable page_links : string -> option (list string).
Variable base_url : string.

Local Abbreviation links := (fun u => discover_links page_links u base_url).
Local Abbreviation run := (crawl_run page_links base_url).
Local Abbreviation reach := (reachable page_links base_url).

Lemma discover_links_scope (u v : string) :
  v ∈ links u -> startswith base_url v = true.
Proof.
  unfold discover_links. destruct (page_links u) as [hrefs|]; [|set_solver].
  rewrite elem_of_list_to_set, list_elem_of_filter. tauto.
Qed.

Lemma reachable_scope (u : string) : reach u -> startswith base_url u = true.
Proof.
  destruct 1 as [|u v _ Hv]; [apply startswith_refl|].
  by apply (discover_links_scope u).
Qed.

(** The set [all_links] holds the links of the pages visited so far. *)
Lemma crawl_all_links_preserved (st0 st : crawl_state) :
  (∀ v, v ∈ all_links st0 ↔ ∃ u, u ∈ crawled st0 ∧ v ∈ links u) ->
  run st0 st ->
  ∀ v, v ∈ all_links st ↔ ∃ u, u ∈ crawled st ∧ v ∈ links u.
Proof.
  intros H0. induction 1 as [|st1 st2 st3 _ IH Hstep]; [done|].
  inversion Hstep as [st u Hu Hst Hst']. subst st. clear Hstep Hst'.
  intros v. destruct (decide (u ∈ crawled st2)) as [Hin|Hnin].
  - rewrite (crawl_body_skip _ _ _ _ Hin). simpl. by apply IH.
  - rewrite (crawl_body_visit _ _ _ _ Hnin). simpl.
    rewrite elem_of_union, (IH H0). split.
    + intros [(u' & Hu' & Hv)|Hv]; [exists u'|exists u]; set_solver.
    + intros (u' & [Hu'| ->%elem_of_singleton]%elem_of_union & Hv);
        [left; by exists u'|by right].
Qed.

Lemma crawl_all_links (st : crawl_state) :
  run (crawl_init base_url) st ->
  ∀ v, v ∈ all_links st ↔ ∃ u, u ∈ crawled st ∧ v ∈ links u.
Proof.
  apply crawl_all_links_preserved.
  intros v. simpl. split; [set_solver|]. intros (u & Hu & _). set_solver.
Qed.

(** X19.  The discovery loop never leaves the site: in every state of a
    run, every URL that was fetched, and every URL of [all_links], of the
    worklist and of the visited set, starts with the base URL. *)
Theorem X19_crawl_stays_in_scope (st : crawl_state) :
  crawl_run page_links base_url (crawl_init base_url) st ->
  (∀ u, u ∈ fetched st -> startswith base_url u = true)
  ∧ (∀ u, u ∈ all_links st ∪ to_crawl st ∪ crawled st ->
          startswith base_url u = true).
Proof.
  intros Hrun.
  pose proof (crawl_inv_run page_links base_url st Hrun) as [Hf _ Hr _ _].
  assert (Hscope : ∀ u, u ∈ all_links st ∪ to_crawl st ∪ crawled st ->
                        startswith base_url u = true).
  { intros u [[Hu|Hu]%elem_of_union|Hu]%elem_of_union.
    - apply (crawl_all_links st Hrun) in Hu as (u' & _ & Hu).
      by apply (discover_links_scope u').
    - apply reachable_scope, Hr. set_solver.
    - apply reachable_scope, Hr. set_solver. }
  split; [|exact Hscope].
  intros u Hu. apply Hscope. rewrite Hf.
  apply elem_of_union_r. by apply elem_of_list_to_set.
Qed.

(** X20.  When the discovery loop ends, [all_links] holds exactly the URLs
    that some reachable page links to (with the base URL as prefix), and
    each of them was visited.  The base URL itself is in [all_links], and so
    among the pages that the update check fetches, only when some reachable
    page links to it. *)
Theorem X20_discovered_links (st : crawl_state) :
  crawl_run page_links base_url (crawl_init base_url) st ->
  to_crawl st = ∅ ->
  (∀ v, v ∈ all_links st
        ↔ ∃ u, reachable page_links base_url u
               ∧ v ∈ discover_links page_links u base_url)
  ∧ all_links st ⊆ crawled st
  ∧ ((∀ u, reachable page_links base_url u ->
           base_url ∉ discover_links page_links u base_url) ->
     base_url ∉ all_links st).
Proof.
  intros Hrun Hempty.
  pose proof (crawl_inv_run page_links base_url st Hrun) as Hinv.
  assert (Hall : ∀ v, v ∈ all_links st ↔ ∃ u, reach u ∧ v ∈ links u).
  { intros v. rewrite (crawl_all_links st Hrun). split.
    - intros (u & Hu & Hv). exists u. split; [|done].
      apply (inv_reach _ _ _ Hinv). set_solver.
    - intros (u & Hu & Hv). exists u. split; [|done].
      by apply (crawl_inv_complete page_links base_url st u Hinv Hempty). }
  split; [exact Hall|]. split.
  - intros v (u & Hu & Hv)%(crawl_all_links st Hrun).
    pose proof (inv_closed _ _ _ Hinv u v Hu Hv) as Hin.
    rewrite Hempty in Hin. set_solver.
  - intros Hnone (u & Hu & Hv)%Hall. by apply (Hnone u).
Qed.

(** X21.  What the discovery loop finds does not depend on the order in
    which [set.pop] hands out the URLs: two runs that have ended have the
    same [all_links] and the same visited set, and have fetched the same
    URLs, each once. *)
Theorem X21_discovery_order_independent (st1 st2 : crawl_state) :
  crawl_run page_links base_url (crawl_init base_url) st1 ->
  to_crawl st1 = ∅ ->
  crawl_run page_links base_url (crawl_init base_url) st2 ->
  to_crawl st2 = ∅ ->
  all_links st1 = all_links st2
  ∧ crawled st1 = crawled st2
  ∧ fetched st1 ≡ₚ fetched st2.
Proof.
  intros Hrun1 Hempty1 Hrun2 Hempty2.
  pose proof (crawl_inv_run page_links base_url st1 Hrun1) as Hinv1.
  pose proof (crawl_inv_run page_links base_url st2 Hrun2) as Hinv2.
  assert (Hcrawled : ∀ st, crawl_inv page_links base_url st -> to_crawl st = ∅ ->
            ∀ u, u ∈ crawled st ↔ reach u).
  { intros st Hinv Hempty u. split.
    - intros Hu. apply (inv_reach _ _ _ Hinv). set_solver.
    - by apply crawl_inv_complete. }
  assert (Heq : crawled st1 = crawled st2).
  { apply set_eq. intros u.
    by rewrite (Hcrawled st1 Hinv1 Hempty1), (Hcrawled st2 Hinv2 Hempty2). }
  split.
  { apply set_eq. intros v.
    rewrite (crawl_all_links st1 Hrun1), (crawl_all_links st2 Hrun2).
    by rewrite Heq. }
  split; [exact Heq|].
  apply NoDup_Permutation;
    [apply (inv_nodup _ _ _ Hinv1)|apply (inv_nodup _ _ _ Hinv2)|].
  intros u.
  rewrite <- !(elem_of_list_to_set (C := gset string)).
  by rewrite <- (inv_fetched _ _ _ Hinv1), <- (inv_fetched _ _ _ Hinv2), Heq.
Qed.

End DiscoveryScope.

(** A run of X19 on the sample site: the link to another site is not
    followed. *)
Lemma X19_crawl_stays_in_scope_witness :
  Forall (fun u => startswith demo_base u = true)
         (fetched (crawl_with demo_site demo_base
                     ["https://d/"; "https://d/a"; "https://d/"; "https://d/b"]
                     (crawl_init demo_base))).
Proof.
  apply Forall_forall.
  exact (proj1 (X19_crawl_stays_in_scope demo_site demo_base _
                  (crawl_with_run demo_site demo_base
                     ["https://d/"; "https://d/a"; "https://d/"; "https://d/b"]
                     (crawl_init demo_base)))).
Defined.

(** A run of X20 on the sample site. *)
Lemma X20_discovered_links_witness :
  all_links (crawl_with demo_site demo_base
               ["https://d/"; "https://d/a"; "https://d/"; "https://d/b"]
               (crawl_init demo_base))
  ⊆ crawled (crawl_with demo_site demo_base
               ["https://d/"; "https://d/a"; "https://d/"; "https://d/b"]
               (crawl_init demo_base)).
Proof.
  refine (proj1 (proj2 (X20_discovered_links demo_site demo_base _
                          (crawl_with_run demo_site demo_base
                             ["https://d/"; "https://d/a"; "https://d/"; "https://d/b"]
                             (crawl_init demo_base)) _))).
  by vm_compute.
Defined.

(** A run of X21 on the sample site: the second run pops the base URL again
    before the second page. *)
Lemma X21_discovery_order_independent_witness :
  all_links (crawl_with demo_site demo_base
               ["https://d/"; "https://d/a"; "https://d/"; "https://d/b"]
               (crawl_init demo_base))
  = all_links (crawl_with demo_site demo_base
                 ["https://d/"; "https://d/"; "https://d/a"; "https://d/b"]
                 (crawl_init demo_base)).
Proof.
  refine (proj1 (X21_discovery_order_independent demo_site demo_base _ _
                   (crawl_with_run demo_site demo_base
                      ["https://d/"; "https://d/a"; "https://d/"; "https://d/b"]
                      (crawl_init demo_base)) _
                   (crawl_with_run demo_site demo_base
                      ["https://d/"; "https://d/"; "https://d/a"; "https://d/b"]
                      (crawl_init demo_base)) _)); by vm_compute.
Defined.

(** ** Paths, continued *)




Lemma has_char_append (c : ascii) (s t : string) :
  has_char c (s +:+ t) = has_char c s || has_char c t.
Proof.
  induction s as [|a s IH]; [done|].
  rewrite append_cons. cbn [has_char]. by rewrite IH, orb_assoc.
Qed.

(** The file name of [save_html_file] holds no separator and holds a dot. *)
Lemma file_name_of_shape (rel : string) :
  has_char "/" (file_name_of rel) = false ∧ has_char "." (file_name_of rel) = true.
Proof.
  unfold file_name_of.
  destruct (String.eqb rel "" || endswith "/" rel); [done|].
  pose proof (basename_no_separator rel) as Hsep.
  destruct (has_char "." (basename rel)) eqn:Hdot; [done|].
  rewrite !has_char_append, Hsep, Hdot. done.
Qed.



Lemma startswith_append_more (p s t : string) :
  startswith p s = true -> startswith p (s +:+ t) = true.
Proof.
  revert s. induction p as [|a p IH]; intros [|b s]; try done.
  simpl. intros [-> H]%andb_true_iff. by rewrite (IH _ H).
Qed.



Lemma after_last_append (c : ascii) (y f : string) :
  has_char c f = false -> after_last c (y +:+ f) = after_last c y.
Proof.
  intros Hf. induction y as [|a y IH].
  - simpl. destruct (after_last_split c f) as [[H0 _]|(h & Hh & _)]; [done|].
    destruct (after_last c f) as [|k] eqn:Hk; [done|].
    exfalso.
    assert (Hin : has_char c (str_take (S k) f) = true).
    { rewrite Hh, has_char_append. simpl. by rewrite Ascii.eqb_refl, orb_true_r. }
    rewrite <- (str_take_drop (S k) f), has_char_append, Hin in Hf. done.
  - rewrite append_cons. cbn [after_last]. by rewrite IH.
Qed.

Lemma after_last_endswith (c : ascii) (y : string) :
  endswith (String c "") y = true -> after_last c y = String.length y.
Proof.
  induction y as [|a y IH]; [done|].
  cbn [endswith]. intros [H|H]%orb_true_iff.
  - apply String.eqb_eq in H. injection H as <- <-. simpl.
    by rewrite Ascii.eqb_refl.
  - cbn [after_last String.length]. rewrite (IH H).
    destruct y; [done|]. done.
Qed.

Lemma str_drop_append (y f : string) : str_drop (String.length y) (y +:+ f) = f.
Proof. induction y as [|a y IH]; [by destruct f|]. by rewrite append_cons. Qed.

(** [os.path.join] of a second component that does not start with a
    separator: the second component comes after nothing, or after a
    separator. *)
Lemma path_join_split (a b : string) :
  startswith "/" b = false ->
  ∃ y, path_join a b = y +:+ b ∧ (y = "" ∨ endswith "/" y = true).
Proof.
  intros Hb. unfold path_join. rewrite Hb.
  destruct a as [|c a]; [exists ""; by split; [|left]|].
  simpl negb. cbn [orb].
  destruct (endswith "/" (String c a)) eqn:Hend.
  - exists (String c a). split; [done|by right].
  - exists (String c a +:+ "/"). split; [by rewrite append_assoc|].
    right. apply endswith_snoc.
Qed.

(** The last component of a joined path is the second component when that
    holds no separator. *)
Lemma basename_path_join (a b : string) :
  has_char "/" b = false -> basename (path_join a b) = b.
Proof.
  intros Hb. unfold basename.
  destruct (path_join_split a b (has_char_startswith _ _ Hb)) as (y & -> & Hy).
  rewrite after_last_append by done.
  destruct Hy as [->|Hy]; [done|].
  rewrite after_last_endswith by done.
  apply str_drop_append.
Qed.

(** X23.  The file that [save_html_file] writes has, as the last component
    of its path, the file name that the function has chosen, and this name
    holds a dot: a page without extension gets [.html], a directory gets
    [index.html], and no file is written under a name without extension. *)
Theorem X23_saved_file_has_extension (url base_dir base_url : string) :
  basename (local_path url base_dir base_url)
  = file_name_of (relative_path url base_url)
  ∧ has_char "." (basename (local_path url base_dir base_url)) = true
  ∧ has_char "/" (file_name_of (relative_path url base_url)) = false.
Proof.
  destruct (file_name_of_shape (relative_path url base_url)) as [Hsep Hdot].
  assert (Hbase : basename (local_path url base_dir base_url)
                  = file_name_of (relative_path url base_url))
    by (by apply basename_path_join).
  split; [exact Hbase|]. split; [by rewrite Hbase|exact Hsep].
Qed.

(** ** The pages of the site *)

Lemma forallb_str_has_char (p : ascii -> bool) (c : ascii) (s : string) :
  forallb_str p s = true -> p c = false -> has_char c s = false.
Proof.
  intros Hs Hc. induction s as [|a s IH]; [done|].
  cbn [forallb_str] in Hs. apply andb_true_iff in Hs as [Ha Hs].
  cbn [has_char]. rewrite (IH Hs), orb_false_r.
  apply Ascii.eqb_neq. intros ->. congruence.
Qed.

Lemma before_char_absent (c : ascii) (s : string) :
  has_char c s = false -> before_char c s = s.
Proof.
  induction s as [|a s IH]; [done|].
  intros [Hne Hs]%has_char_cons_false. cbn [before_char].
  rewrite (proj2 (Ascii.eqb_neq a c) Hne). by rewrite IH.
Qed.

Lemma has_char_str_drop (c : ascii) (n : nat) (s : string) :
  has_char c s = false -> has_char c (str_drop n s) = false.
Proof.
  revert s. induction n as [|n IH]; intros [|a s]; try done.
  intros [_ Hs]%has_char_cons_false. by apply IH.
Qed.

Lemma strip_params_absent (s : string) :
  has_char ";" s = false -> strip_params s = s.
Proof.
  intros Hs. unfold strip_params.
  rewrite before_char_absent by (by apply has_char_str_drop).
  apply str_take_drop.
Qed.

Lemma split_scheme_https (s : string) :
  split_scheme ("https:" +:+ s) = ("https", s).
Proof. reflexivity. Qed.

(** The path of the URL of a page of the site. *)
Lemma url_path_page (rest : string) :
  path_text rest = true ->
  url_path (BASE_URL +:+ rest) = "/projects/esp-idf/en/latest/" +:+ rest.
Proof.
  intros Hrest.
  assert (Hno : ∀ c, (c = "?" ∨ c = "#" ∨ c = ";")%char ->
            has_char c ("/projects/esp-idf/en/latest/" +:+ rest) = false).
  { intros c Hc. rewrite has_char_append.
    rewrite (forallb_str_has_char _ c rest Hrest)
      by (destruct Hc as [->|[->| ->]]; reflexivity).
    destruct Hc as [->|[->| ->]]; reflexivity. }
  unfold url_path.
  change (BASE_URL +:+ rest)
    with ("https:" +:+ ("//docs.espressif.com/projects/esp-idf/en/latest/" +:+ rest)).
  rewrite split_scheme_https.
  change (startswith "//" ("//docs.espressif.com/projects/esp-idf/en/latest/"
                           +:+ rest)) with true.
  cbv iota.
  change (from_delim (str_drop 2 ("//docs.espressif.com/projects/esp-idf/en/latest/"
                                  +:+ rest)))
    with ("/projects/esp-idf/en/latest/" +:+ rest).
  rewrite (before_char_absent "#") by (apply Hno; auto).
  rewrite (before_char_absent "?") by (apply Hno; auto).
  change (mem "https" uses_params) with true. cbv iota.
  apply strip_params_absent, Hno. auto.
Qed.

Lemma relative_path_page (rest : string) :
  path_text rest = true ->
  relative_path (BASE_URL +:+ rest) BASE_URL = lstrip_char "/" rest.
Proof.
  intros Hrest. unfold relative_path.
  rewrite (url_path_page rest Hrest).
  change (url_path BASE_URL) with "/projects/esp-idf/en/latest/".
  change (lstrip_char "/" "/projects/esp-idf/en/latest/")
    with "projects/esp-idf/en/latest/".
  change (lstrip_char "/" ("/projects/esp-idf/en/latest/" +:+ rest))
    with ("projects/esp-idf/en/latest/" +:+ rest).
  rewrite startswith_append.
  by rewrite str_drop_append.
Qed.

(** X24.  The mirror of the site: a page whose URL is the base URL of
    monitor.py followed by a text without query, fragment and parameters is
    saved below [source_html] under that text without its leading
    separators, followed by [index.html] when it is empty or ends with a
    separator, by nothing when its last segment holds a dot, and by [.html]
    otherwise (the text holding no doubled separator after the leading
    ones). *)
Theorem X24_site_mirror (rest : string) :
  path_text rest = true ->
  contains "//" (lstrip_char "/" rest) = false ->
  relative_path (BASE_URL +:+ rest) BASE_URL = lstrip_char "/" rest
  ∧ local_path (BASE_URL +:+ rest) SOURCE_DIR BASE_URL
    = "source_html/" +:+ lstrip_char "/" rest +:+
        (if String.eqb (lstrip_char "/" rest) ""
            || endswith "/" (lstrip_char "/" rest)
         then "index.html"
         else if has_char "." (basename (lstrip_char "/" rest))
              then "" else ".html").
Proof.
  intros Hrest Hdouble.
  pose proof (relative_path_page rest Hrest) as Hrel.
  split; [exact Hrel|].
  unfold local_path. rewrite Hrel.
  rewrite joined_path_of_relative; try done.
  apply lstrip_char_head.
Qed.

(** A run of X24 on three pages. *)
Lemma X24_site_mirror_witness :
  local_path (BASE_URL +:+ "api-reference/peripherals/gpio.html") SOURCE_DIR BASE_URL
  = "source_html/api-reference/peripherals/gpio.html"
  ∧ local_path (BASE_URL +:+ "get-started/") SOURCE_DIR BASE_URL
    = "source_html/get-started/index.html"
  ∧ local_path (BASE_URL +:+ "about") SOURCE_DIR BASE_URL
    = "source_html/about.html".
Proof.
  split; [|split].
  - exact (proj2 (X24_site_mirror "api-reference/peripherals/gpio.html"
                    eq_refl eq_refl)).
  - exact (proj2 (X24_site_mirror "get-started/" eq_refl eq_refl)).
  - exact (proj2 (X24_site_mirror "about" eq_refl eq_refl)).
Defined.

(** ** The update check, continued *)

Lemma filter_none {A} (p : A -> bool) (l : list A) :
  (∀ x, x ∈ l -> p x = false) -> List.filter p l = [].
Proof.
  induction l as [|x l IH]; intros Hall; [done|].
  simpl. rewrite (Hall x) by (by left). apply IH. intros y Hy. apply Hall. by right.
Qed.

Lemma NoDup_list_filter {A} (p : A -> bool) (l : list A) :
  NoDup l -> NoDup (List.filter p l).
Proof.
  induction 1 as [|x l Hx _ IH]; simpl; [constructor|].
  destruct (p x); [|done]. constructor; [|done].
  intros Hin. apply Hx.
  by apply list_elem_of_In, filter_In in Hin as [?%list_elem_of_In _].
Qed.

Section UpdateCheckMore.

Variable fetch : string -> option string.
Variable sha256_hexdigest : string -> string.
Variables base_dir base_url : string.

Local Abbreviation check previous all_links :=
  (check_updates fetch sha256_hexdigest all_links previous base_dir base_url).

Lemma check_updates_hashes (all_links : gset string)
    (previous_hashes : gmap string string) (url : string) :
  current_hashes (check previous_hashes all_links) !! url
  = if bool_decide (url ∈ all_links) then hashed fetch sha256_hexdigest url
    else None.
Proof.
  unfold check_updates. rewrite check_fold_hashes. simpl.
  rewrite lookup_empty.
  rewrite (bool_decide_ext (url ∈ sorted_urls all_links) (url ∈ all_links))
    by apply sorted_urls_elem.
  destruct (bool_decide (url ∈ all_links)); [|done].
  by destruct (hashed fetch sha256_hexdigest url).
Qed.

(** X25.  The fingerprint map that the update check builds holds, for each
    discovered URL that was fetched, the digest of its content, and nothing
    else: it does not depend on the previous map, and a URL of the previous
    map that is no longer discovered has no entry in it. *)
Theorem X25_new_fingerprints (all_links : gset string)
    (previous_hashes : gmap string string) :
  (∀ url,
     current_hashes (check previous_hashes all_links) !! url
     = if bool_decide (url ∈ all_links) then hashed fetch sha256_hexdigest url
       else None)
  ∧ (∀ url, url ∉ all_links ->
            current_hashes (check previous_hashes all_links) !! url = None)
  ∧ ∀ other_hashes,
      current_hashes (check other_hashes all_links)
      = current_hashes (check previous_hashes all_links).
Proof.
  split; [apply check_updates_hashes|]. split.
  - intros url Hnot. rewrite check_updates_hashes.
    by rewrite bool_decide_eq_false_2.
  - intros other_hashes. apply map_eq. intros url.
    by rewrite !check_updates_hashes.
Qed.

(** X26.  The update check is idempotent: run again on the same pages with
    the fingerprint map that the first run has built (what the first run
    saves and the second loads), it finds no page changed, writes nothing to
    the log, saves no file, and builds the same fingerprint map. *)
Theorem X26_second_check_finds_nothing (all_links : gset string)
    (previous_hashes : gmap string string) :
  let first :=
    check_updates fetch sha256_hexdigest all_links previous_hashes
                  base_dir base_url in
  let second :=
    check_updates fetch sha256_hexdigest all_links (current_hashes first)
                  base_dir base_url in
  updated_or_new_urls second = []
  ∧ log_file second = []
  ∧ saved_files second = []
  ∧ current_hashes second = current_hashes first.
Proof.
  intros first second.
  assert (Hnone : List.filter
            (changed_or_new fetch sha256_hexdigest (current_hashes first))
            (sorted_urls all_links) = []).
  { apply filter_none. intros url Hurl%sorted_urls_elem.
    unfold changed_or_new. subst first. rewrite check_updates_hashes.
    rewrite bool_decide_eq_true_2 by done.
    destruct (hashed fetch sha256_hexdigest url) as [new_hash|]; [|done].
    by rewrite bool_decide_eq_false_2 by (intros Hne; by apply Hne). }
  subst second. unfold check_updates.
  destruct (check_fold_updated fetch sha256_hexdigest (current_hashes first)
              base_dir base_url (sorted_urls all_links) check_init) as [-> ->].
  rewrite check_fold_saved, Hnone. simpl.
  repeat split; try done.
  apply map_eq. intros url.
  fold (check (current_hashes first) all_links).
  subst first. by rewrite !check_updates_hashes.
Qed.

(** X27.  The update check lists each changed or new URL once, in sorted
    order; it logs exactly the URLs that it lists, in the same order, and it
    saves a file for exactly those of them whose content is not empty, in
    that order: a changed page with an empty content is listed and logged,
    and no file is written for it. *)
Theorem X27_log_and_saved_files (all_links : gset string)
    (previous_hashes : gmap string string) :
  let st := check previous_hashes all_links in
  log_file st = updated_or_new_urls st
  ∧ saved_files st
    = flat_map (saved_for fetch base_dir base_url) (updated_or_new_urls st)
  ∧ (∀ file,
       file ∈ saved_files st
       ↔ ∃ url content,
           url ∈ updated_or_new_urls st
           ∧ fetch url = Some content
           ∧ content ≠ ""
           ∧ file = (local_path url base_dir base_url, content))
  ∧ (List.length (saved_files st) <= List.length (updated_or_new_urls st))%nat
  ∧ StronglySorted String.le (updated_or_new_urls st)
  ∧ NoDup (updated_or_new_urls st).
Proof.
  intros st. subst st. unfold check_updates.
  destruct (check_fold_updated fetch sha256_hexdigest previous_hashes
              base_dir base_url (sorted_urls all_links) check_init) as [-> ->].
  rewrite check_fold_saved. simpl.
  set (updated := List.filter
         (changed_or_new fetch sha256_hexdigest previous_hashes)
         (sorted_urls all_links)).
  split; [done|]. split; [done|]. split.
  - intros file. rewrite list_elem_of_In, in_flat_map. split.
    + intros (url & Hurl & Hfile). unfold saved_for, save_html_file in Hfile.
      destruct (fetch url) as [content|] eqn:Hfetch; [|done].
      destruct content as [|c content]; [done|].
      simpl in Hfile. destruct Hfile as [<-|[]].
      exists url, (String c content). by rewrite list_elem_of_In.
    + intros (url & content & Hurl & Hfetch & Hne & ->).
      exists url. split; [by apply list_elem_of_In|].
      unfold saved_for, save_html_file. rewrite Hfetch.
      destruct content; [done|]. by left.
  - split; [|split].
    + clear. induction updated as [|url updated IH]; [done|].
      simpl. rewrite length_app.
      assert (List.length (saved_for fetch base_dir base_url url) <= 1)%nat.
      { unfold saved_for, save_html_file.
        destruct (fetch url) as [content|]; [|simpl; lia].
        destruct (negb (truthy content)); simpl; lia. }
      lia.
    + apply StronglySorted_filter, sorted_urls_sorted.
    + subst updated. apply NoDup_list_filter. unfold sorted_urls.
      rewrite merge_sort_Permutation. apply NoDup_elements.
Qed.

End UpdateCheckMore.

